(** * RAVAA chat backend ([app.py]): a shallow embedding and its properties

    The development follows the layout of the program:

    - [Py]         the Python built-ins the program calls on strings
                   ([str.lower], [in], [str.split], [str.join], ...);
    - [Float]      the rounding of Python's float division;
    - [Difflib]    the part of the standard [difflib] module behind
                   [get_close_matches] ([SequenceMatcher], [heapq.nlargest]);
    - [App]        the functions and request handlers of [app.py];
    - [Spec]       the wording of the specification, where a property
                   compares the program with it, and sample inputs;
    - [Invariants] the notions the proofs about [SequenceMatcher] use.

    The properties come after the definitions, one section per component.

    Python strings are lists of Unicode code points.  A Python float is
    modelled by its exact value, a rational.  Every score of the lie
    detector is a small multiple of 1/2, so sums of scores are exact in
    binary64 (as long as a speaker has fewer than 2^48 messages); an
    average [sum(vals) / len(vals)] is the exact quotient rounded to
    binary64, and it is compared with the binary64 numbers that the
    literals 1.2 and 0.5 denote.  A similarity ratio is the rounded
    quotient [2.0 * matches / length]; compared with 0.65 or with another
    ratio it behaves as the exact quotient for strings of fewer than 2^25
    code points, and is kept exact. *)

From Stdlib Require Import QArith Qround Qpower Lqa Ascii String.
From Stdlib Require Import DecimalString.
From stdpp Require Import gmap gmultiset list sorting.

(** ** Python built-ins on strings *)

Module Py.

Local Open Scope N_scope.

(** A Python [str] is a [list N], the sequence of its code points.  [lit]
    reads the ASCII literals of the source. *)
Fixpoint lit (x : string) : list N :=
  match x with
  | EmptyString => []
  | String c rest => N_of_ascii c :: lit rest
  end.

(** [str.lower].  A code point has one lowercase form, except U+0130, which
    has two.  [lower_table] lists the code points that change, in blocks
    [(first, last, step, target)]: the code points [first], [first + step],
    ... up to [last] map to [target], [target + step], ...  The three
    tables are those of Unicode 14.0, as CPython 3.11 has them. *)
Definition lower_table : list (N * N * N * N) :=
  [(65, 90, 1, 97); (192, 214, 1, 224); (216, 222, 1, 248); (256, 302, 2, 257);
   (306, 310, 2, 307); (313, 327, 2, 314); (330, 374, 2, 331);
   (376, 376, 1, 255); (377, 381, 2, 378); (385, 385, 1, 595);
   (386, 388, 2, 387); (390, 390, 1, 596); (391, 391, 1, 392);
   (393, 394, 1, 598); (395, 395, 1, 396); (398, 398, 1, 477);
   (399, 399, 1, 601); (400, 400, 1, 603); (401, 401, 1, 402);
   (403, 403, 1, 608); (404, 404, 1, 611); (406, 406, 1, 617);
   (407, 407, 1, 616); (408, 408, 1, 409); (412, 412, 1, 623);
   (413, 413, 1, 626); (415, 415, 1, 629); (416, 420, 2, 417);
   (422, 422, 1, 640); (423, 423, 1, 424); (425, 425, 1, 643);
   (428, 428, 1, 429); (430, 430, 1, 648); (431, 431, 1, 432);
   (433, 434, 1, 650); (435, 437, 2, 436); (439, 439, 1, 658);
   (440, 440, 1, 441); (444, 444, 1, 445); (452, 452, 1, 454);
   (453, 453, 1, 454); (455, 455, 1, 457); (456, 456, 1, 457);
   (458, 458, 1, 460); (459, 475, 2, 460); (478, 494, 2, 479);
   (497, 497, 1, 499); (498, 500, 2, 499); (502, 502, 1, 405);
   (503, 503, 1, 447); (504, 542, 2, 505); (544, 544, 1, 414);
   (546, 562, 2, 547); (570, 570, 1, 11365); (571, 571, 1, 572);
   (573, 573, 1, 410); (574, 574, 1, 11366); (577, 577, 1, 578);
   (579, 579, 1, 384); (580, 580, 1, 649); (581, 581, 1, 652);
   (582, 590, 2, 583); (880, 882, 2, 881); (886, 886, 1, 887);
   (895, 895, 1, 1011); (902, 902, 1, 940); (904, 906, 1, 941);
   (908, 908, 1, 972); (910, 911, 1, 973); (913, 929, 1, 945);
   (931, 939, 1, 963); (975, 975, 1, 983); (984, 1006, 2, 985);
   (1012, 1012, 1, 952); (1015, 1015, 1, 1016); (1017, 1017, 1, 1010);
   (1018, 1018, 1, 1019); (1021, 1023, 1, 891); (1024, 1039, 1, 1104);
   (1040, 1071, 1, 1072); (1120, 1152, 2, 1121); (1162, 1214, 2, 1163);
   (1216, 1216, 1, 1231); (1217, 1229, 2, 1218); (1232, 1326, 2, 1233);
   (1329, 1366, 1, 1377); (4256, 4293, 1, 11520); (4295, 4295, 1, 11559);
   (4301, 4301, 1, 11565); (5024, 5103, 1, 43888); (5104, 5109, 1, 5112);
   (7312, 7354, 1, 4304); (7357, 7359, 1, 4349); (7680, 7828, 2, 7681);
   (7838, 7838, 1, 223); (7840, 7934, 2, 7841); (7944, 7951, 1, 7936);
   (7960, 7965, 1, 7952); (7976, 7983, 1, 7968); (7992, 7999, 1, 7984);
   (8008, 8013, 1, 8000); (8025, 8031, 2, 8017); (8040, 8047, 1, 8032);
   (8072, 8079, 1, 8064); (8088, 8095, 1, 8080); (8104, 8111, 1, 8096);
   (8120, 8121, 1, 8112); (8122, 8123, 1, 8048); (8124, 8124, 1, 8115);
   (8136, 8139, 1, 8050); (8140, 8140, 1, 8131); (8152, 8153, 1, 8144);
   (8154, 8155, 1, 8054); (8168, 8169, 1, 8160); (8170, 8171, 1, 8058);
   (8172, 8172, 1, 8165); (8184, 8185, 1, 8056); (8186, 8187, 1, 8060);
   (8188, 8188, 1, 8179); (8486, 8486, 1, 969); (8490, 8490, 1, 107);
   (8491, 8491, 1, 229); (8498, 8498, 1, 8526); (8544, 8559, 1, 8560);
   (8579, 8579, 1, 8580); (9398, 9423, 1, 9424); (11264, 11311, 1, 11312);
   (11360, 11360, 1, 11361); (11362, 11362, 1, 619); (11363, 11363, 1, 7549);
   (11364, 11364, 1, 637); (11367, 11371, 2, 11368); (11373, 11373, 1, 593);
   (11374, 11374, 1, 625); (11375, 11375, 1, 592); (11376, 11376, 1, 594);
   (11378, 11378, 1, 11379); (11381, 11381, 1, 11382); (11390, 11391, 1, 575);
   (11392, 11490, 2, 11393); (11499, 11501, 2, 11500);
   (11506, 11506, 1, 11507); (42560, 42604, 2, 42561);
   (42624, 42650, 2, 42625); (42786, 42798, 2, 42787);
   (42802, 42862, 2, 42803); (42873, 42875, 2, 42874); (42877, 42877, 1, 7545);
   (42878, 42886, 2, 42879); (42891, 42891, 1, 42892); (42893, 42893, 1, 613);
   (42896, 42898, 2, 42897); (42902, 42920, 2, 42903); (42922, 42922, 1, 614);
   (42923, 42923, 1, 604); (42924, 42924, 1, 609); (42925, 42925, 1, 620);
   (42926, 42926, 1, 618); (42928, 42928, 1, 670); (42929, 42929, 1, 647);
   (42930, 42930, 1, 669); (42931, 42931, 1, 43859); (42932, 42946, 2, 42933);
   (42948, 42948, 1, 42900); (42949, 42949, 1, 642); (42950, 42950, 1, 7566);
   (42951, 42953, 2, 42952); (42960, 42960, 1, 42961);
   (42966, 42968, 2, 42967); (42997, 42997, 1, 42998);
   (65313, 65338, 1, 65345); (66560, 66599, 1, 66600);
   (66736, 66771, 1, 66776); (66928, 66938, 1, 66967);
   (66940, 66954, 1, 66979); (66956, 66962, 1, 66995);
   (66964, 66965, 1, 67003); (68736, 68786, 1, 68800);
   (71840, 71871, 1, 71872); (93760, 93791, 1, 93792);
   (125184, 125217, 1, 125218)].

Definition in_block (c : N) (block : N * N * N * N) : bool :=
  let '(first, last, step, _) := block in
  (first <=? c) && (c <=? last) && ((c - first) mod step =? 0).

Definition lower_cp (c : N) : list N :=
  if c =? 304 then [105; 775]
  else match List.find (in_block c) lower_table with
       | Some (first, _, _, target) => [target + (c - first)]
       | None => [c]
       end.

(** The properties Cased and Case_Ignorable, as ranges [(first, last)]. *)
Definition cased_table : list (N * N) :=
  [(65, 90); (97, 122); (170, 170); (181, 181); (186, 186); (192, 214);
   (216, 246); (248, 442); (444, 447); (452, 659); (661, 696); (704, 705);
   (736, 740); (837, 837); (880, 883); (886, 887); (890, 893); (895, 895);
   (902, 902); (904, 906); (908, 908); (910, 929); (931, 1013); (1015, 1153);
   (1162, 1327); (1329, 1366); (1376, 1416); (4256, 4293); (4295, 4295);
   (4301, 4301); (4304, 4346); (4349, 4351); (5024, 5109); (5112, 5117);
   (7296, 7304); (7312, 7354); (7357, 7359); (7424, 7615); (7680, 7957);
   (7960, 7965); (7968, 8005); (8008, 8013); (8016, 8023); (8025, 8025);
   (8027, 8027); (8029, 8029); (8031, 8061); (8064, 8116); (8118, 8124);
   (8126, 8126); (8130, 8132); (8134, 8140); (8144, 8147); (8150, 8155);
   (8160, 8172); (8178, 8180); (8182, 8188); (8305, 8305); (8319, 8319);
   (8336, 8348); (8450, 8450); (8455, 8455); (8458, 8467); (8469, 8469);
   (8473, 8477); (8484, 8484); (8486, 8486); (8488, 8488); (8490, 8493);
   (8495, 8500); (8505, 8505); (8508, 8511); (8517, 8521); (8526, 8526);
   (8544, 8575); (8579, 8580); (9398, 9449); (11264, 11492); (11499, 11502);
   (11506, 11507); (11520, 11557); (11559, 11559); (11565, 11565);
   (42560, 42605); (42624, 42653); (42786, 42887); (42891, 42894);
   (42896, 42954); (42960, 42961); (42963, 42963); (42965, 42969);
   (42997, 42998); (43000, 43002); (43824, 43866); (43868, 43880);
   (43888, 43967); (64256, 64262); (64275, 64279); (65313, 65338);
   (65345, 65370); (66560, 66639); (66736, 66771); (66776, 66811);
   (66928, 66938); (66940, 66954); (66956, 66962); (66964, 66965);
   (66967, 66977); (66979, 66993); (66995, 67001); (67003, 67004);
   (67456, 67456); (67459, 67461); (67463, 67504); (67506, 67514);
   (68736, 68786); (68800, 68850); (71840, 71903); (93760, 93823);
   (119808, 119892); (119894, 119964); (119966, 119967); (119970, 119970);
   (119973, 119974); (119977, 119980); (119982, 119993); (119995, 119995);
   (119997, 120003); (120005, 120069); (120071, 120074); (120077, 120084);
   (120086, 120092); (120094, 120121); (120123, 120126); (120128, 120132);
   (120134, 120134); (120138, 120144); (120146, 120485); (120488, 120512);
   (120514, 120538); (120540, 120570); (120572, 120596); (120598, 120628);
   (120630, 120654); (120656, 120686); (120688, 120712); (120714, 120744);
   (120746, 120770); (120772, 120779); (122624, 122633); (122635, 122654);
   (125184, 125251); (127280, 127305); (127312, 127337); (127344, 127369)].

Definition case_ignorable_table : list (N * N) :=
  [(39, 39); (46, 46); (58, 58); (94, 94); (96, 96); (168, 168); (173, 173);
   (175, 175); (180, 180); (183, 184); (688, 879); (884, 885); (890, 890);
   (900, 901); (903, 903); (1155, 1161); (1369, 1369); (1375, 1375);
   (1425, 1469); (1471, 1471); (1473, 1474); (1476, 1477); (1479, 1479);
   (1524, 1524); (1536, 1541); (1552, 1562); (1564, 1564); (1600, 1600);
   (1611, 1631); (1648, 1648); (1750, 1757); (1759, 1768); (1770, 1773);
   (1807, 1807); (1809, 1809); (1840, 1866); (1958, 1968); (2027, 2037);
   (2042, 2042); (2045, 2045); (2070, 2093); (2137, 2139); (2184, 2184);
   (2192, 2193); (2200, 2207); (2249, 2306); (2362, 2362); (2364, 2364);
   (2369, 2376); (2381, 2381); (2385, 2391); (2402, 2403); (2417, 2417);
   (2433, 2433); (2492, 2492); (2497, 2500); (2509, 2509); (2530, 2531);
   (2558, 2558); (2561, 2562); (2620, 2620); (2625, 2626); (2631, 2632);
   (2635, 2637); (2641, 2641); (2672, 2673); (2677, 2677); (2689, 2690);
   (2748, 2748); (2753, 2757); (2759, 2760); (2765, 2765); (2786, 2787);
   (2810, 2815); (2817, 2817); (2876, 2876); (2879, 2879); (2881, 2884);
   (2893, 2893); (2901, 2902); (2914, 2915); (2946, 2946); (3008, 3008);
   (3021, 3021); (3072, 3072); (3076, 3076); (3132, 3132); (3134, 3136);
   (3142, 3144); (3146, 3149); (3157, 3158); (3170, 3171); (3201, 3201);
   (3260, 3260); (3263, 3263); (3270, 3270); (3276, 3277); (3298, 3299);
   (3328, 3329); (3387, 3388); (3393, 3396); (3405, 3405); (3426, 3427);
   (3457, 3457); (3530, 3530); (3538, 3540); (3542, 3542); (3633, 3633);
   (3636, 3642); (3654, 3662); (3761, 3761); (3764, 3772); (3782, 3782);
   (3784, 3789); (3864, 3865); (3893, 3893); (3895, 3895); (3897, 3897);
   (3953, 3966); (3968, 3972); (3974, 3975); (3981, 3991); (3993, 4028);
   (4038, 4038); (4141, 4144); (4146, 4151); (4153, 4154); (4157, 4158);
   (4184, 4185); (4190, 4192); (4209, 4212); (4226, 4226); (4229, 4230);
   (4237, 4237); (4253, 4253); (4348, 4348); (4957, 4959); (5906, 5908);
   (5938, 5939); (5970, 5971); (6002, 6003); (6068, 6069); (6071, 6077);
   (6086, 6086); (6089, 6099); (6103, 6103); (6109, 6109); (6155, 6159);
   (6211, 6211); (6277, 6278); (6313, 6313); (6432, 6434); (6439, 6440);
   (6450, 6450); (6457, 6459); (6679, 6680); (6683, 6683); (6742, 6742);
   (6744, 6750); (6752, 6752); (6754, 6754); (6757, 6764); (6771, 6780);
   (6783, 6783); (6823, 6823); (6832, 6862); (6912, 6915); (6964, 6964);
   (6966, 6970); (6972, 6972); (6978, 6978); (7019, 7027); (7040, 7041);
   (7074, 7077); (7080, 7081); (7083, 7085); (7142, 7142); (7144, 7145);
   (7149, 7149); (7151, 7153); (7212, 7219); (7222, 7223); (7288, 7293);
   (7376, 7378); (7380, 7392); (7394, 7400); (7405, 7405); (7412, 7412);
   (7416, 7417); (7468, 7530); (7544, 7544); (7579, 7679); (8125, 8125);
   (8127, 8129); (8141, 8143); (8157, 8159); (8173, 8175); (8189, 8190);
   (8203, 8207); (8216, 8217); (8228, 8228); (8231, 8231); (8234, 8238);
   (8288, 8292); (8294, 8303); (8305, 8305); (8319, 8319); (8336, 8348);
   (8400, 8432); (11388, 11389); (11503, 11505); (11631, 11631);
   (11647, 11647); (11744, 11775); (11823, 11823); (12293, 12293);
   (12330, 12333); (12337, 12341); (12347, 12347); (12441, 12446);
   (12540, 12542); (40981, 40981); (42232, 42237); (42508, 42508);
   (42607, 42610); (42612, 42621); (42623, 42623); (42652, 42655);
   (42736, 42737); (42752, 42785); (42864, 42864); (42888, 42890);
   (42994, 42996); (43000, 43001); (43010, 43010); (43014, 43014);
   (43019, 43019); (43045, 43046); (43052, 43052); (43204, 43205);
   (43232, 43249); (43263, 43263); (43302, 43309); (43335, 43345);
   (43392, 43394); (43443, 43443); (43446, 43449); (43452, 43453);
   (43471, 43471); (43493, 43494); (43561, 43566); (43569, 43570);
   (43573, 43574); (43587, 43587); (43596, 43596); (43632, 43632);
   (43644, 43644); (43696, 43696); (43698, 43700); (43703, 43704);
   (43710, 43711); (43713, 43713); (43741, 43741); (43756, 43757);
   (43763, 43764); (43766, 43766); (43867, 43871); (43881, 43883);
   (44005, 44005); (44008, 44008); (44013, 44013); (64286, 64286);
   (64434, 64450); (65024, 65039); (65043, 65043); (65056, 65071);
   (65106, 65106); (65109, 65109); (65279, 65279); (65287, 65287);
   (65294, 65294); (65306, 65306); (65342, 65342); (65344, 65344);
   (65392, 65392); (65438, 65439); (65507, 65507); (65529, 65531);
   (66045, 66045); (66272, 66272); (66422, 66426); (67456, 67461);
   (67463, 67504); (67506, 67514); (68097, 68099); (68101, 68102);
   (68108, 68111); (68152, 68154); (68159, 68159); (68325, 68326);
   (68900, 68903); (69291, 69292); (69446, 69456); (69506, 69509);
   (69633, 69633); (69688, 69702); (69744, 69744); (69747, 69748);
   (69759, 69761); (69811, 69814); (69817, 69818); (69821, 69821);
   (69826, 69826); (69837, 69837); (69888, 69890); (69927, 69931);
   (69933, 69940); (70003, 70003); (70016, 70017); (70070, 70078);
   (70089, 70092); (70095, 70095); (70191, 70193); (70196, 70196);
   (70198, 70199); (70206, 70206); (70367, 70367); (70371, 70378);
   (70400, 70401); (70459, 70460); (70464, 70464); (70502, 70508);
   (70512, 70516); (70712, 70719); (70722, 70724); (70726, 70726);
   (70750, 70750); (70835, 70840); (70842, 70842); (70847, 70848);
   (70850, 70851); (71090, 71093); (71100, 71101); (71103, 71104);
   (71132, 71133); (71219, 71226); (71229, 71229); (71231, 71232);
   (71339, 71339); (71341, 71341); (71344, 71349); (71351, 71351);
   (71453, 71455); (71458, 71461); (71463, 71467); (71727, 71735);
   (71737, 71738); (71995, 71996); (71998, 71998); (72003, 72003);
   (72148, 72151); (72154, 72155); (72160, 72160); (72193, 72202);
   (72243, 72248); (72251, 72254); (72263, 72263); (72273, 72278);
   (72281, 72283); (72330, 72342); (72344, 72345); (72752, 72758);
   (72760, 72765); (72767, 72767); (72850, 72871); (72874, 72880);
   (72882, 72883); (72885, 72886); (73009, 73014); (73018, 73018);
   (73020, 73021); (73023, 73029); (73031, 73031); (73104, 73105);
   (73109, 73109); (73111, 73111); (73459, 73460); (78896, 78904);
   (92912, 92916); (92976, 92982); (92992, 92995); (94031, 94031);
   (94095, 94111); (94176, 94177); (94179, 94180); (110576, 110579);
   (110581, 110587); (110589, 110590); (113821, 113822); (113824, 113827);
   (118528, 118573); (118576, 118598); (119143, 119145); (119155, 119170);
   (119173, 119179); (119210, 119213); (119362, 119364); (121344, 121398);
   (121403, 121452); (121461, 121461); (121476, 121476); (121499, 121503);
   (121505, 121519); (122880, 122886); (122888, 122904); (122907, 122913);
   (122915, 122916); (122918, 122922); (123184, 123197); (123566, 123566);
   (123628, 123631); (125136, 125142); (125252, 125259); (127995, 127999);
   (917505, 917505); (917536, 917631); (917760, 917999)].

Definition in_ranges (ranges : list (N * N)) (c : N) : bool :=
  existsb (fun '(first, last) => (first <=? c) && (c <=? last)) ranges.

Definition is_cased : N -> bool := in_ranges cased_table.
Definition is_case_ignorable : N -> bool := in_ranges case_ignorable_table.

(** The capital sigma, U+03A3, becomes the final sigma U+03C2 when a cased
    code point comes before it and none comes after it, case-ignorable code
    points being skipped on both sides; otherwise it becomes U+03C3.
    [cased_next t] tells whether the first code point of [t] that is not
    case-ignorable is cased; [before] holds the code points before the
    sigma, the nearest first. *)
Fixpoint cased_next (t : list N) : bool :=
  match t with
  | [] => false
  | c :: t' => if is_case_ignorable c then cased_next t' else is_cased c
  end.

Definition final_sigma (before after : list N) : bool :=
  cased_next before && negb (cased_next after).

Fixpoint lower_from (before t : list N) : list N :=
  match t with
  | [] => []
  | c :: t' =>
      (if c =? 931
       then [if final_sigma before t' then 962 else 963]
       else lower_cp c)
      ++ lower_from (c :: before) t'
  end.

Definition lower (t : list N) : list N := lower_from [] t.

(** [str.upper] on one code point, Python's table below U+0100. *)
Definition upper_cp (c : N) : list N :=
  if (97 <=? c) && (c <=? 122) then [c - 32]
  else if c =? 181 then [924]
  else if c =? 223 then [83; 83]
  else if (224 <=? c) && (c <=? 254) && negb (c =? 247) then [c - 32]
  else if c =? 255 then [376]
  else [c].

Definition upper (t : list N) : list N := concat (map upper_cp t).

Definition is_ascii (t : list N) : Prop := Forall (fun c => c < 128) t.

(** [t.startswith(p)]. *)
Fixpoint startswith (p t : list N) : bool :=
  match p, t with
  | [], _ => true
  | _ :: _, [] => false
  | a :: p', b :: t' => (a =? b) && startswith p' t'
  end.

(** [sub in t] on strings: [sub] occurs in [t] as a contiguous run. *)
Fixpoint str_in (sub t : list N) : bool :=
  startswith sub t ||
  match t with
  | [] => false
  | _ :: t' => str_in sub t'
  end.

(** [str.isspace] on one code point (the code points [str.split] and
    [str.strip] treat as white space). *)
Definition isspace (c : N) : bool :=
  existsb (N.eqb c)
    [9; 10; 11; 12; 13; 28; 29; 30; 31; 32; 133; 160; 5760;
     8192; 8193; 8194; 8195; 8196; 8197; 8198; 8199; 8200; 8201; 8202;
     8232; 8233; 8239; 8287; 12288].

(** [t.split()]: the maximal runs of non-space code points.  [cur] is the
    token being read. *)
Fixpoint split_ws_from (cur t : list N) : list (list N) :=
  match t with
  | [] => match cur with [] => [] | _ => [cur] end
  | c :: t' =>
      if isspace c
      then match cur with
           | [] => split_ws_from [] t'
           | _ => cur :: split_ws_from [] t'
           end
      else split_ws_from (cur ++ [c]) t'
  end.

Definition split_ws (t : list N) : list (list N) := split_ws_from [] t.

(** [t.split(sep)] for a non-empty separator: cut at every occurrence of [sep],
    scanning from the left; [skip] counts the code points of an occurrence
    still to be passed over. *)
Fixpoint split_from (sep : list N) (skip : nat) (cur t : list N)
  : list (list N) :=
  match t with
  | [] => [cur]
  | c :: t' =>
      match skip with
      | S k => split_from sep k cur t'
      | O =>
          if startswith sep t
          then cur :: split_from sep (Nat.pred (length sep)) [] t'
          else split_from sep O (cur ++ [c]) t'
      end
  end.

Definition split (sep t : list N) : list (list N) := split_from sep O [] t.

(** [sep.join(parts)]. *)
Fixpoint join (sep : list N) (parts : list (list N)) : list N :=
  match parts with
  | [] => []
  | [p] => p
  | p :: rest => p ++ sep ++ join sep rest
  end.

(** [t.strip()]. *)
Fixpoint lstrip (t : list N) : list N :=
  match t with
  | [] => []
  | c :: t' => if isspace c then lstrip t' else t
  end.

Definition strip (t : list N) : list N := rev (lstrip (rev (lstrip t))).

(** Order of strings, [a > b]: by the first code point that differs, a proper
    extension being greater than its prefix. *)
Fixpoint str_gt (a b : list N) : bool :=
  match a, b with
  | [], _ => false
  | _ :: _, [] => true
  | x :: a', y :: b' => (y <? x) || ((x =? y) && str_gt a' b')
  end.

(** [t.capitalize()]: the first code point in title case, the rest in lower
    case.  Below U+0100 the title-case form is the uppercase form, except
    for U+00DF, whose title-case form is "Ss". *)
Definition title_cp (c : N) : list N :=
  if c =? 223 then [83; 115] else upper_cp c.

Definition capitalize (t : list N) : list N :=
  match t with
  | [] => []
  | c :: rest => title_cp c ++ lower_from [c] rest
  end.

End Py.

(** ** Python floats

    A float is a binary64 number; the model keeps its exact value, a
    rational.  The sums of scores are exact; a quotient is the exact
    quotient rounded to the nearest binary64 number, and so is a literal
    such as [1.2].  Overflow is left out: the quotients taken here are not
    above 12 in absolute value. *)

Module Float.

Local Open Scope Q_scope.

(** The integer nearest to [q], the even one when two are as near. *)
Definition round_half_even (q : Q) : Z :=
  let n := Qfloor q in
  match Qcompare (q - inject_Z n) (1 # 2) with
  | Lt => n
  | Eq => if Z.even n then n else (n + 1)%Z
  | Gt => (n + 1)%Z
  end.

(** For [a > 0], the exponent [e] with [2 ^ e <= a < 2 ^ (e + 1)]. *)
Definition exponent (a : Q) : Z :=
  let e := (Z.log2 (Qnum a) - Z.log2 (Zpos (Qden a)))%Z in
  if Qle_bool (2 ^ e) a then e else (e - 1)%Z.

(** The gap between the binary64 numbers around [a > 0]: 53 significant
    bits, and no exponent below -1022. *)
Definition ulp (a : Q) : Q := 2 ^ (Z.max (exponent a) (-1022) - 52).

(** The binary64 number nearest to [a > 0], the one with the even
    significand when two are as near. *)
Definition nearest (a : Q) : Q :=
  inject_Z (round_half_even (a / ulp a)) * ulp a.

(** [q] rounded to binary64. *)
Definition binary64 (q : Q) : Q :=
  if Qeq_bool q 0 then 0
  else if Qle_bool 0 q then nearest q
  else - nearest (- q).

End Float.

(** ** The standard [difflib] module, as [get_close_matches] uses it

    [get_close_matches] builds one [SequenceMatcher] with [isjunk=None] and
    [autojunk=True], sets its second sequence [b] to the word and its first
    sequence [a] to each candidate in turn.  The matcher's fields are passed
    explicitly here: [a], [b], and the index [b2j] built from [b].  A
    matching block is a triple [(i, j, k)], for [a[i:i+k] == b[j:j+k]]. *)

Module Difflib.

Import Py.

(** [_calculate_ratio(matches, length)]: [2.0 * matches / length], and [1.0]
    for two empty sequences. *)
Definition calculate_ratio (matches length : nat) : Q :=
  match length with
  | O => 1
  | S _ => 2 * Z.of_nat matches # Pos.of_nat length
  end.

(** [__chain_b], first loop: [b2j[elt]] lists, in increasing order, the
    indices of [b] that hold [elt]. *)
Definition index_elt (b2j : gmap N (list nat)) (i : nat) (elt : N)
  : gmap N (list nat) :=
  <[elt := default [] (b2j !! elt) ++ [i]]> b2j.

Fixpoint index_from (b2j : gmap N (list nat)) (i : nat) (b : list N)
  : gmap N (list nat) :=
  match b with
  | [] => b2j
  | elt :: b' => index_from (index_elt b2j i elt) (S i) b'
  end.

(** [__chain_b]: no element is junk ([isjunk] is [None]); with [autojunk], in
    a sequence of 200 elements or more, the elements that occur more than
    [n // 100 + 1] times are "popular" and deleted from the index. *)
Definition chain_b (b : list N) : gmap N (list nat) :=
  let b2j := index_from ∅ 0 b in
  let n := length b in
  if (200 <=? n)%nat
  then
    let ntest := (n / 100 + 1)%nat in
    filter (fun kv => (length kv.2 <= ntest)%nat) b2j
  else b2j.

(** [a[i] == b[j]] for indices in range. *)
Definition same_at (a b : list N) (i j : nat) : bool :=
  match a !! i, b !! j with
  | Some x, Some y => N.eqb x y
  | _, _ => false
  end.

(** [find_longest_match], the loop over [j in b2j.get(a[i], nothing)].
    [j2lenget(j-1, 0)] is 0 for [j = 0], the key [-1] never being set.
    [i-k+1] is written [i + 1 - k]; [k] never exceeds [i + 1]
    (see [scan_rows_bounds]). *)
Fixpoint scan_row (blo bhi i : nat) (j2len : gmap nat nat) (js : list nat)
    (newj2len : gmap nat nat) (best : nat * nat * nat)
  : gmap nat nat * (nat * nat * nat) :=
  match js with
  | [] => (newj2len, best)
  | j :: js' =>
      if (j <? blo)%nat then scan_row blo bhi i j2len js' newj2len best
      else if (bhi <=? j)%nat then (newj2len, best)
      else
        let k := S (match j with
                    | O => 0
                    | S j' => default 0 (j2len !! j')
                    end) in
        let newj2len := <[j := k]> newj2len in
        let best := if (best.2 <? k)%nat
                    then ((i + 1 - k)%nat, (j + 1 - k)%nat, k)
                    else best in
        scan_row blo bhi i j2len js' newj2len best
  end.

(** [find_longest_match], the loop [for i in range(alo, ahi)]; [rows] is the
    part of the range still to visit. *)
Fixpoint scan_rows (a : list N) (b2j : gmap N (list nat)) (blo bhi : nat)
    (rows : list nat) (j2len : gmap nat nat) (best : nat * nat * nat)
  : nat * nat * nat :=
  match rows with
  | [] => best
  | i :: rows' =>
      let js := match a !! i with
                | Some elt => default [] (b2j !! elt)
                | None => []
                end in
      let '(newj2len, best) := scan_row blo bhi i j2len js ∅ best in
      scan_rows a b2j blo bhi rows' newj2len best
  end.

(** [while besti > alo and bestj > blo and a[besti-1] == b[bestj-1]]
    (no element of [b] is junk). *)
Fixpoint extend_left (a b : list N) (alo blo besti bestj bestsize : nat)
  : nat * nat * nat :=
  match besti, bestj with
  | S i', S j' =>
      if (alo <? besti)%nat && (blo <? bestj)%nat && same_at a b i' j'
      then extend_left a b alo blo i' j' (S bestsize)
      else (besti, bestj, bestsize)
  | _, _ => (besti, bestj, bestsize)
  end.

(** [while besti+bestsize < ahi and bestj+bestsize < bhi and
    a[besti+bestsize] == b[bestj+bestsize]]; [gap] is
    [ahi - (besti+bestsize)]. *)
Fixpoint extend_right (a b : list N) (bhi besti bestj bestsize gap : nat)
  : nat * nat * nat :=
  match gap with
  | O => (besti, bestj, bestsize)
  | S gap' =>
      if (bestj + bestsize <? bhi)%nat
         && same_at a b (besti + bestsize) (bestj + bestsize)
      then extend_right a b bhi besti bestj (S bestsize) gap'
      else (besti, bestj, bestsize)
  end.

(** [find_longest_match(alo, ahi, blo, bhi)].  The two closing loops of the
    source, which absorb junk, never run: the junk set is empty. *)
Definition find_longest_match (a b : list N) (b2j : gmap N (list nat))
    (alo ahi blo bhi : nat) : nat * nat * nat :=
  let '(besti, bestj, bestsize) :=
    scan_rows a b2j blo bhi (seq alo (ahi - alo)) ∅ (alo, blo, 0%nat) in
  let '(besti, bestj, bestsize) :=
    extend_left a b alo blo besti bestj bestsize in
  extend_right a b bhi besti bestj bestsize (ahi - (besti + bestsize)).

(** [get_matching_blocks], the [while queue] loop.  The queue is a stack: its
    top is the head of the list.  [fuel] bounds the number of iterations;
    [None] is returned when it runs out with work left. *)
Fixpoint blocks_loop (fuel : nat) (a b : list N) (b2j : gmap N (list nat))
    (queue : list (nat * nat * nat * nat)) (matching_blocks : list (nat * nat * nat))
  : option (list (nat * nat * nat)) :=
  match queue with
  | [] => Some matching_blocks
  | (alo, ahi, blo, bhi) :: queue =>
      match fuel with
      | O => None
      | S fuel =>
          let '(i, j, k) := find_longest_match a b b2j alo ahi blo bhi in
          match k with
          | O => blocks_loop fuel a b b2j queue matching_blocks
          | S _ =>
              let matching_blocks := matching_blocks ++ [(i, j, k)] in
              let queue :=
                if (alo <? i)%nat && (blo <? j)%nat
                then (alo, i, blo, j) :: queue else queue in
              let queue :=
                if (i + k <? ahi)%nat && (j + k <? bhi)%nat
                then ((i + k)%nat, ahi, (j + k)%nat, bhi) :: queue else queue in
              blocks_loop fuel a b b2j queue matching_blocks
          end
      end
  end.

(** Order of the triples, for [matching_blocks.sort()]. *)
Definition block_leb (x y : nat * nat * nat) : bool :=
  let '(i1, j1, k1) := x in
  let '(i2, j2, k2) := y in
  (i1 <? i2)%nat
  || ((i1 =? i2)%nat
      && ((j1 <? j2)%nat || ((j1 =? j2)%nat && (k1 <=? k2)%nat))).

Fixpoint insert_block (x : nat * nat * nat) (l : list (nat * nat * nat))
  : list (nat * nat * nat) :=
  match l with
  | [] => [x]
  | y :: l' => if block_leb x y then x :: l else y :: insert_block x l'
  end.

Definition sort_blocks (l : list (nat * nat * nat)) : list (nat * nat * nat) :=
  foldr insert_block [] l.

(** [get_matching_blocks], the loop that merges adjacent blocks;
    [(i1, j1, k1)] is the block being grown. *)
Fixpoint collapse (i1 j1 k1 : nat) (blocks : list (nat * nat * nat))
  : list (nat * nat * nat) :=
  match blocks with
  | [] => match k1 with O => [] | S _ => [(i1, j1, k1)] end
  | (i2, j2, k2) :: rest =>
      if ((i1 + k1 =? i2) && (j1 + k1 =? j2))%nat
      then collapse i1 j1 (k1 + k2) rest
      else match k1 with O => [] | S _ => [(i1, j1, k1)] end
           ++ collapse i2 j2 k2 rest
  end.

(** [get_matching_blocks()].  Every iteration of the loop shortens the part
    of [a] left in the queue or drops a region from it, so
    [2 * len(a) + 1] iterations are enough ([blocks_loop_total]). *)
Definition get_matching_blocks (a b : list N) (b2j : gmap N (list nat))
  : list (nat * nat * nat) :=
  let la := length a in
  let lb := length b in
  let matching_blocks :=
    default [] (blocks_loop (S (2 * la)) a b b2j [(0, la, 0, lb)%nat] []) in
  collapse 0 0 0 (sort_blocks matching_blocks) ++ [(la, lb, 0%nat)].

(** Number of matches of [ratio()]:
    [sum(triple[-1] for triple in self.get_matching_blocks())]. *)
Definition matches (a b : list N) (b2j : gmap N (list nat)) : nat :=
  sum_list_with snd (get_matching_blocks a b b2j).

Definition ratio (a b : list N) (b2j : gmap N (list nat)) : Q :=
  calculate_ratio (matches a b b2j) (length a + length b).

(** [quick_ratio()]: [fullbcount] counts the elements of [b]; [avail[x]] is
    what is left of that count after the occurrences of [x] seen in [a]
    (it goes negative when [a] has more). *)
Definition fullbcount (b : list N) : gmap N Z :=
  fold_left (fun m elt => <[elt := (default 0 (m !! elt) + 1)%Z]> m) b ∅.

Definition quick_step (fbc : gmap N Z) (st : gmap N Z * nat) (elt : N)
  : gmap N Z * nat :=
  let '(avail, matches) := st in
  let numb := match avail !! elt with
              | Some n => n
              | None => default 0%Z (fbc !! elt)
              end in
  (<[elt := (numb - 1)%Z]> avail,
   if (0 <? numb)%Z then S matches else matches).

Definition quick_matches (a b : list N) : nat :=
  (fold_left (quick_step (fullbcount b)) a (∅, 0%nat)).2.

Definition quick_ratio (a b : list N) : Q :=
  calculate_ratio (quick_matches a b) (length a + length b).

Definition real_quick_ratio (a b : list N) : Q :=
  calculate_ratio (Nat.min (length a) (length b)) (length a + length b).

(** [x > y] on the tuples [(score, x)]: the scores decide unless they are
    equal, then the strings do. *)
Definition scored_gt (x y : Q * list N) : bool :=
  if Qeq_bool x.1 y.1 then str_gt x.2 y.2 else negb (Qle_bool x.1 y.1).

(** [max(it, default=sentinel)]: the first of the greatest items. *)
Definition py_max {A} (gt : A -> A -> bool) (items : list A) : option A :=
  match items with
  | [] => None
  | x :: rest =>
      Some (fold_left (fun m item => if gt item m then item else m) rest x)
  end.

(** [heapq.nlargest(1, result)], which is [max] in a list. *)
Definition nlargest1 (result : list (Q * list N)) : list (Q * list N) :=
  match py_max scored_gt result with
  | None => []
  | Some r => [r]
  end.

(** The test of [get_close_matches] on one candidate [x]. *)
Definition close_enough (word : list N) (b2j : gmap N (list nat))
    (cutoff : Q) (x : list N) : bool :=
  Qle_bool cutoff (real_quick_ratio x word)
  && Qle_bool cutoff (quick_ratio x word)
  && Qle_bool cutoff (ratio x word b2j).

(** [get_close_matches(word, possibilities, n=1, cutoff)]; the two argument
    checks of the source pass for [n = 1] and a cutoff in [0, 1]. *)
Definition get_close_matches (word : list N) (possibilities : list (list N))
    (cutoff : Q) : list (list N) :=
  let b2j := chain_b word in
  let result :=
    map (fun x => (ratio x word b2j, x))
        (List.filter (close_enough word b2j cutoff) possibilities) in
  map snd (nlargest1 result).

End Difflib.

(** ** The program *)

Module App.

Import Py Float Difflib.

Local Open Scope Q_scope.
Set Warnings "-register-all".

(** *** Python values and exceptions *)

(** The exceptions the handlers can meet. *)
Inductive exn :=
  | AttributeError
  | TypeError
  | ValueError
  | ZeroDivisionError.

Inductive result (A : Type) :=
  | Ok (a : A)
  | Raise (e : exn).
Arguments Ok {A} a.
Arguments Raise {A} e.

(** Sequencing: an exception ends the computation; [x ← r; k] is stdpp's
    notation for it. *)
#[export] Instance result_bind : MBind result :=
  fun A B (k : A -> result B) (r : result A) =>
    match r with
    | Ok a => k a
    | Raise e => Raise e
    end.

(** A request body as [request.get_json()] returns it.  Numbers carry their
    value; the non-finite floats, which are not JSON, are left out. *)
Inductive json :=
  | JNull
  | JBool (b : bool)
  | JNum (q : Q)
  | JStr (s : list N)
  | JList (items : list json)
  | JObj (fields : list (list N * json)).

(** [d.get(key, default)]: only a [dict] has the method. *)
Fixpoint fields_get (key : list N) (fields : list (list N * json))
  : option json :=
  match fields with
  | [] => None
  | (k, v) :: rest =>
      if bool_decide (k = key) then Some v else fields_get key rest
  end.

Definition dict_get (d : json) (key : list N) (dflt : json) : result json :=
  match d with
  | JObj fields => Ok (default dflt (fields_get key fields))
  | _ => Raise AttributeError
  end.

(** Truth value of a JSON value ([not message]). *)
Definition truthy (v : json) : bool :=
  match v with
  | JNull => false
  | JBool b => b
  | JNum q => negb (Qeq_bool q 0)
  | JStr s => match s with [] => false | _ :: _ => true end
  | JList items => match items with [] => false | _ :: _ => true end
  | JObj fields => match fields with [] => false | _ :: _ => true end
  end.

(** JSON values as dictionary keys: [None], numbers (the booleans are the
    numbers 0 and 1) and strings are hashable, lists and dicts are not. *)
Inductive key :=
  | KNone
  | KNum (q : Q)
  | KStr (s : list N).

Definition hash_key (v : json) : result key :=
  match v with
  | JNull => Ok KNone
  | JBool b => Ok (KNum (if b then 1 else 0))
  | JNum q => Ok (KNum q)
  | JStr s => Ok (KStr s)
  | JList _ | JObj _ => Raise TypeError
  end.

Definition key_eqb (x y : key) : bool :=
  match x, y with
  | KNone, KNone => true
  | KNum p, KNum q => Qeq_bool p q
  | KStr s, KStr t => bool_decide (s = t)
  | _, _ => false
  end.

(** A [dict] under construction: its items in insertion order. *)
Fixpoint items_get {V} (k : key) (items : list (key * V)) : option V :=
  match items with
  | [] => None
  | (k', v) :: rest => if key_eqb k' k then Some v else items_get k rest
  end.

Fixpoint items_alter {V} (f : V -> V) (k : key) (items : list (key * V))
  : list (key * V) :=
  match items with
  | [] => []
  | (k', v) :: rest =>
      if key_eqb k' k then (k', f v) :: rest
      else (k', v) :: items_alter f k rest
  end.

(** [d[k] = v]. *)
Fixpoint items_set {V} (k : key) (v : V) (items : list (key * V))
  : list (key * V) :=
  match items with
  | [] => [(k, v)]
  | (k', v') :: rest =>
      if key_eqb k' k then (k', v) :: rest
      else (k', v') :: items_set k v rest
  end.

(** [str(n)] for an [int]. *)
Definition str_of_int (z : Z) : list N :=
  lit (NilZero.string_of_int (Z.to_int z)).

(** The random generator: [source] is the sequence of raw draws to come,
    [drawn] the number of draws made so far. *)
Record rng := { source : nat -> nat; drawn : nat }.

Definition randbelow (n : nat) (g : rng) : nat * rng :=
  ((source g (drawn g) mod n)%nat,
   {| source := source g; drawn := S (drawn g) |}).

(** *** Basic Q&A helpers *)

(** An entry of [knowledge_base["questions"]]. *)
Record KnowledgeEntry := { question : list N; answer : list N }.

Definition find_best_match (user_question : list N)
    (questions : list (list N)) : option (list N) :=
  let matches :=
    get_close_matches (lower user_question) (map lower questions) (13 # 20) in
  match matches with
  | m :: _ => Some m
  | [] => None
  end.

(** [knowledge_base] stands for [knowledge_base["questions"]]. *)
Fixpoint get_answer_for_question (asked : list N)
    (knowledge_base : list KnowledgeEntry) : option (list N) :=
  match knowledge_base with
  | [] => None
  | q :: rest =>
      if bool_decide (lower (question q) = lower asked)
      then Some (answer q)
      else get_answer_for_question asked rest
  end.

(** *** Lie detector *)

(** U+2019, the apostrophe of most entries of [hedge_words]. *)
Definition rsquo : list N := [8217%N].

Definition hedge_words : list (list N) :=
  [lit "maybe"; lit "perhaps"; lit "possibly"; lit "could be";
   lit "might be"; lit "i guess"; lit "i suppose"; lit "i think";
   lit "i" ++ rsquo ++ lit "m not sure"; lit "not really"; lit "kind of";
   lit "sort of"; lit "more or less"; lit "i" ++ rsquo ++ lit "d say";
   lit "it seems like"; lit "as far as i remember"; lit "i believe";
   lit "to some extent"; lit "you could say that";
   lit "depends"; lit "that" ++ rsquo ++ lit "s hard to say";
   lit "let" ++ rsquo ++ lit "s just say";
   lit "i wouldn" ++ rsquo ++ lit "t say that exactly";
   lit "not exactly"; lit "not technically"; lit "in a way";
   lit "something like that"; lit "i don" ++ rsquo ++ lit "t know";
   lit "i mean"; lit "i guess you could say"; lit "just"; lit "only";
   lit "barely"; lit "hardly"; lit "a little";
   lit "not that much"; lit "nothing major"; lit "no big deal";
   lit "wasn" ++ rsquo ++ lit "t serious"; lit "sorta"; lit "kinda";
   lit "a tiny bit"; lit "at some point"; lit "a while back";
   lit "recently"; lit "i think it was yesterday";
   lit "not sure when"; lit "back then"; lit "sometime";
   lit "earlier maybe"; lit "can" ++ rsquo ++ lit "t remember exactly";
   lit ".."; lit "wasn't"; lit "*"].

Definition contradiction_phrases : list (list N * list N) :=
  [(lit "yes", lit "no"); (lit "never", lit "sometimes");
   (lit "always", lit "not always")].

Definition avoidance_phrases : list (list N) :=
  [lit "idk"; lit "don't wanna say"; lit "prefer not to answer"].

Definition analyze_message (msg : list N) : Q :=
  let score : Q := 0 in
  let text := lower msg in
  (* Hedge words *)
  let score : Q :=
    if existsb (fun hw => str_in hw text) hedge_words
    then score + 2 else score in
  (* Short/cryptic message *)
  let score : Q :=
    if (length (split_ws text) <? 4)%nat then score + 1 else score in
  (* Contradictions *)
  let score : Q :=
    fold_left
      (fun (score : Q) '(a, b) =>
         if str_in a text && str_in b text then score + 2 else score)
      contradiction_phrases score in
  (* Avoidance *)
  let score : Q :=
    if existsb (fun p => str_in p text) avoidance_phrases
    then score + 3 else score in
  let score : Q :=
    if str_in (lit "?") text then score - (1 # 2) else score in
  score.

(** [analyze_message] on any value: [msg.lower()] exists on a [str] only. *)
Definition analyze_message_any (msg : json) : result Q :=
  match msg with
  | JStr s => Ok (analyze_message s)
  | _ => Raise AttributeError
  end.

Record speaker_summary := { average_score : Q; verdict : list N }.

(** [sum(vals)]. *)
Definition py_sum (vals : list Q) : Q := fold_left Qplus vals 0.

(** First loop of [lie_detector_analysis], one entry. *)
Definition score_entry (scores : list (key * list Q)) (entry : json)
  : result (list (key * list Q)) :=
  speaker ← dict_get entry (lit "speaker") JNull;
  message ← dict_get entry (lit "message") (JStr []);
  score ← analyze_message_any message;
  k ← hash_key speaker;
  let scores :=
    match items_get k scores with
    | None => scores ++ [(k, [])]
    | Some _ => scores
    end in
  Ok (items_alter (fun vals => vals ++ [score]) k scores).

Fixpoint score_entries (scores : list (key * list Q)) (messages : list json)
  : result (list (key * list Q)) :=
  match messages with
  | [] => Ok scores
  | entry :: rest =>
      scores ← score_entry scores entry; score_entries scores rest
  end.

(** Second loop of [lie_detector_analysis], one speaker.  The division is
    the division of floats, which rounds the quotient, and the literals
    [1.2] and [0.5] are the binary64 numbers nearest to them. *)
Definition summarize (vals : list Q) : result speaker_summary :=
  match vals with
  | [] => Raise ZeroDivisionError
  | _ :: _ =>
      let avg :=
        binary64 (py_sum vals / inject_Z (Z.of_nat (length vals))) in
      let verdict :=
        if negb (Qle_bool avg (binary64 (12 # 10)))
        then lit "Highly Suspicious"
        else if negb (Qle_bool avg (binary64 (1 # 2)))
        then lit "Suspicious"
        else lit "Likely Truthful" in
      Ok {| average_score := avg; verdict := verdict |}
  end.

Fixpoint summarize_items (items : list (key * list Q))
  : result (list (key * speaker_summary)) :=
  match items with
  | [] => Ok []
  | (speaker, vals) :: rest =>
      entry ← summarize vals;
      summary ← summarize_items rest;
      Ok ((speaker, entry) :: summary)
  end.

Definition lie_detector_analysis (messages : list json)
  : result (list (key * speaker_summary)) :=
  scores ← score_entries [] messages;
  summarize_items scores.

(** *** Rock paper scissors *)

Inductive rps_outcome :=
  | RpsError (error : list N)
  | RpsPlayed (player computer result : list N).

Definition rps_play (player_choice : list N) (g : rng) : rps_outcome * rng :=
  let choices := [lit "rock"; lit "paper"; lit "scissors"] in
  let player_choice := lower player_choice in
  if negb (bool_decide (player_choice ∈ choices))
  then (RpsError (lit "Invalid choice. Choose rock, paper, or scissors."), g)
  else
    let '(n, g) := randbelow (length choices) g in
    let comp_choice := nth n choices [] in
    let result :=
      if bool_decide (player_choice = comp_choice) then lit "tie"
      else if bool_decide (player_choice = lit "rock")
                && bool_decide (comp_choice = lit "scissors")
              || bool_decide (player_choice = lit "paper")
                 && bool_decide (comp_choice = lit "rock")
              || bool_decide (player_choice = lit "scissors")
                 && bool_decide (comp_choice = lit "paper")
      then lit "win"
      else lit "lose" in
    (RpsPlayed player_choice comp_choice result, g).

(** *** Wikipedia search snippet *)

(** [topic.replace(' ', '_')]. *)
Definition underscores (topic : list N) : list N :=
  map (fun c => if N.eqb c 32 then 95%N else c) topic.

(** The request and the HTML parser are outside the program: [fetch url]
    gives [res.status_code] and the texts [p.get_text()] of the elements
    that [soup.select('#mw-content-text p')] finds in the page. *)
Definition get_wiki_intro (fetch : list N -> Z * list (list N))
    (topic : list N) : list N :=
  let url := lit "https://simple.wikipedia.org/wiki/" ++ underscores topic in
  let '(status_code, paragraphs) := fetch url in
  if negb (status_code =? 200)%Z
  then lit "Sorry, I couldn't find that topic."
  else
    let text :=
      join (lit " ")
           (List.filter
              (fun p => match strip p with [] => false | _ :: _ => true end)
              paragraphs) in
    let lines := split (lit ". ") text in
    match lines with
    | [] => lit "No summary available."
    | _ :: _ => join (lit ". ") (take 3 lines) ++ lit "."
    end.

(** *** Dice roll *)

Definition roll_dice (g : rng) : Z * rng :=
  let '(n, g) := randbelow 6 g in ((1 + Z.of_nat n)%Z, g).

(** *** Alarm *)

(** The process-wide state: the [alarms] dictionary and the alarm threads
    that have been started and have not written yet. *)
Record world := {
  alarms : list (key * list N);
  threads : list (Z * json)
}.

Section Alarm.

(** Two built-ins are taken as they are: [int(s)] on a [str] ([None] when it
    raises [ValueError]), and [str(v)] on a value that is not a [str], as
    an f-string renders it. *)
Variable int_of_str : list N -> option Z.
Variable str_of_value : json -> list N.

Definition py_int (v : json) : result Z :=
  match v with
  | JNull => Raise TypeError
  | JBool b => Ok (if b then 1 else 0)%Z
  | JNum q => Ok (Z.quot (Qnum q) (Zpos (Qden q)))
  | JStr s =>
      match int_of_str s with
      | Some z => Ok z
      | None => Raise ValueError
      end
  | JList _ | JObj _ => Raise TypeError
  end.

Definition format_value (v : json) : list N :=
  match v with
  | JStr s => s
  | _ => str_of_value v
  end.

(** Body of [alarm_thread], past the [time.sleep]. *)
Definition alarm_thread (minutes : Z) (message : json) (w : world)
  : result world :=
  k ← hash_key message;
  Ok {| alarms :=
          items_set k
            (lit "Alarm: " ++ format_value message ++ lit " (set "
             ++ str_of_int minutes ++ lit " minutes ago)!")
            (alarms w);
        threads := threads w |}.

Definition set_alarm (minutes : Z) (message : json) (w : world)
  : list N * world :=
  let w := {| alarms := alarms w;
              threads := threads w ++ [(minutes, message)] |} in
  (lit "Alarm set for " ++ str_of_int minutes
   ++ lit " minutes from now with message: '" ++ format_value message
   ++ lit "'",
   w).

(** The [try] block of the [/set-alarm] handler. *)
Definition alarm_inputs (data : json) : result (Z * json) :=
  raw ← dict_get data (lit "minutes") (JNum 0);
  minutes ← py_int raw;
  message ← dict_get data (lit "message") (JStr []);
  if (minutes <=? 0)%Z || negb (truthy message)
  then Raise ValueError
  else Ok (minutes, message).

(** [POST /set-alarm]; the value is the [response] field of the reply. *)
Definition alarm (data : json) (w : world) : list N * world :=
  match alarm_inputs data with
  | Raise _ =>
      (lit "Invalid input. Provide positive minutes and a message.", w)
  | Ok (minutes, message) => set_alarm minutes message w
  end.

End Alarm.

(** *** Routes *)

(** The [response] field of a reply of [/lie-detector]. *)
Inductive lie_detector_response :=
  | Text (s : list N)
  | Summary (summary : list (key * speaker_summary)).

(** [jsonify] writes a dictionary with its keys sorted: it sorts the
    items, which compares their keys with [<].  Strings compare with
    strings and numbers with numbers (the booleans are numbers); [<] on any
    other two keys raises [TypeError].  The keys of a dictionary differ, so
    the order of the result is that of any sorting method, and an
    exception is raised exactly when two keys cannot be compared; the
    sorting is written here as an insertion sort. *)
Definition key_lt (x y : key) : result bool :=
  match x, y with
  | KNum p, KNum q => Ok (negb (Qle_bool q p))
  | KStr s, KStr t => Ok (str_gt t s)
  | _, _ => Raise TypeError
  end.

Fixpoint insert_item {V} (x : key * V) (sorted : list (key * V))
  : result (list (key * V)) :=
  match sorted with
  | [] => Ok [x]
  | y :: rest =>
      lt ← key_lt x.1 y.1;
      if lt : bool then Ok (x :: y :: rest)
      else rest ← insert_item x rest; Ok (y :: rest)
  end.

Fixpoint sorted_items {V} (items : list (key * V))
  : result (list (key * V)) :=
  match items with
  | [] => Ok []
  | x :: rest => sorted ← sorted_items rest; insert_item x sorted
  end.

(** [POST /lie-detector]; the summary of the reply is given as [jsonify]
    writes it, the speakers in sorted order. *)
Definition lie_detector (data : json) : result lie_detector_response :=
  messages ← dict_get data (lit "messages") (JList []);
  match messages with
  | JList items =>
      summary ← lie_detector_analysis items;
      reply ← sorted_items summary;
      Ok (Summary reply)
  | _ =>
      Ok (Text (lit "Invalid input. Send a list of messages with speaker and message."))
  end.

(** [POST /chat] on the text of the [message] field; the value is the
    [response] field, [None] standing for Python's [None]. *)
Definition chat (knowledge_base : list KnowledgeEntry) (message : list N)
    (g : rng) : option (list N) * rng :=
  let user_input := strip message in
  let lowered := lower user_input in
  if existsb (fun cmd => str_in cmd lowered)
       [lit "play rps"; lit "rock paper scissors"]
  then (Some (lit "To play, send POST to /play-rps with your choice (rock, paper, or scissors)."), g)
  else if str_in (lit "lie detector") lowered
  then (Some (lit "Send conversation messages to /lie-detector as JSON to analyze."), g)
  else if str_in (lit "search") lowered
  then (Some (lit "Send your search topic to /search as JSON to get Wikipedia intro."), g)
  else if str_in (lit "dice roll") lowered
  then
    let '(result, g) := roll_dice g in
    (Some ([127922%N] ++ lit " You rolled a " ++ str_of_int result ++ lit "."),
     g)
  else if str_in (lit "set alarm") lowered
  then (Some (lit "Send POST to /set-alarm with minutes and message in JSON."), g)
  else
    (* Otherwise regular Q&A *)
    let questions := map question knowledge_base in
    let best_match := find_best_match user_input questions in
    let answer :=
      match best_match with
      | Some ((_ :: _) as m) => get_answer_for_question m knowledge_base
      | _ => Some (lit "I don't understand.")
      end in
    (answer, g).

(** [rps_play] on any value: [player_choice.lower()] exists on a [str]
    only. *)
Definition rps_play_any (player_choice : json) (g : rng)
  : result (rps_outcome * rng) :=
  match player_choice with
  | JStr s => Ok (rps_play s g)
  | _ => Raise AttributeError
  end.

(** [POST /play-rps]; the value is the [response] field of the reply. *)
Definition play_rps (data : json) (g : rng) : result (list N * rng) :=
  choice ← dict_get data (lit "choice") (JStr []);
  '(result, g) ← rps_play_any choice g;
  match result with
  | RpsError error => Ok (error, g)
  | RpsPlayed player computer result =>
      Ok (lit "Your choice: " ++ player ++ lit ". Computer chose: "
          ++ computer ++ lit ". Result: " ++ capitalize result ++ lit "!",
          g)
  end.

(** [get_wiki_intro] on any value: [topic.replace] exists on a [str] only. *)
Definition get_wiki_intro_any (fetch : list N -> Z * list (list N))
    (topic : json) : result (list N) :=
  match topic with
  | JStr s => Ok (get_wiki_intro fetch s)
  | _ => Raise AttributeError
  end.

(** [POST /search]; the value is the [response] field of the reply. *)
Definition search (fetch : list N -> Z * list (list N)) (data : json)
  : result (list N) :=
  topic ← dict_get data (lit "topic") (JStr []);
  if negb (truthy topic)
  then Ok (lit "Please provide a topic to search.")
  else get_wiki_intro_any fetch topic.

End App.

(** ** The specification's wording, for comparison with the program *)

Module Spec.

Import Py Float Difflib App.

Local Open Scope Q_scope.

(** Whether a phrase of the list occurs in the text. *)
Definition any_phrase (phrases : list (list N)) (text : list N) : bool :=
  existsb (fun p => str_in p text) phrases.

(** Signal 1: +2 once if any hedge phrase occurs. *)
Definition hedge_signal (text : list N) : Q :=
  if any_phrase hedge_words text then 2 else 0.

(** Signal 2: +1 for fewer than 4 white-space separated tokens. *)
Definition short_signal (text : list N) : Q :=
  if (length (split_ws text) <? 4)%nat then 1 else 0.

(** Signal 3: +2 for each pair whose two phrases both occur. *)
Definition complete_pairs (text : list N) : list (list N * list N) :=
  List.filter (fun '(a, b) => str_in a text && str_in b text)
    [(lit "yes", lit "no"); (lit "never", lit "sometimes");
     (lit "always", lit "not always")].

Definition contradiction_signal (text : list N) : Q :=
  2 * inject_Z (Z.of_nat (length (complete_pairs text))).

(** Signal 4: +3 if an avoidance phrase occurs. *)
Definition avoidance_signal (text : list N) : Q :=
  if any_phrase [lit "idk"; lit "don't wanna say"; lit "prefer not to answer"]
       text
  then 3 else 0.

(** Signal 5: -0.5 for a question mark. *)
Definition question_signal (text : list N) : Q :=
  if str_in (lit "?") text then - (1 # 2) else 0.

Definition five_signals (text : list N) : Q :=
  hedge_signal text + short_signal text + contradiction_signal text
  + avoidance_signal text + question_signal text.

(** A text in which none of the five signals is present. *)
Definition no_signal (text : list N) : Prop :=
  any_phrase hedge_words text = false
  /\ (4 <= length (split_ws text))%nat
  /\ complete_pairs text = []
  /\ any_phrase avoidance_phrases text = false
  /\ str_in (lit "?") text = false.

(** The cyclic rule of rock paper scissors: [x] beats [y]. *)
Definition beats (x y : list N) : Prop :=
  (x = lit "rock" /\ y = lit "scissors")
  \/ (x = lit "scissors" /\ y = lit "paper")
  \/ (x = lit "paper" /\ y = lit "rock").

(** A word spelt with U+00DF, the sharp s, whose uppercase form is "SS". *)
Definition sharp_s_word : list N := lit "po" ++ [223%N] ++ lit "ibly".

(** A chat message of the data model, and the JSON object that carries it. *)
Record ChatMessage := { speaker : list N; message : list N }.

Definition entry_of (m : ChatMessage) : json :=
  JObj [(lit "speaker", JStr (speaker m)); (lit "message", JStr (message m))].

(** The messages of one speaker, in input order, and their scores. *)
Definition messages_of (s : list N) (msgs : list ChatMessage)
  : list ChatMessage :=
  List.filter (fun m => bool_decide (speaker m = s)) msgs.

Definition scores_of (s : list N) (msgs : list ChatMessage) : list Q :=
  map (fun m => analyze_message (message m)) (messages_of s msgs).

(** Arithmetic mean. *)
Definition mean (vals : list Q) : Q :=
  foldr Qplus 0 vals / inject_Z (Z.of_nat (length vals)).

(** The scores a speaker has after more messages: [old] is the entry of the
    dictionary before them, if any, [new] the scores they add. *)
Definition more_scores (old : option (list Q)) (new : list Q)
  : option (list Q) :=
  match old, new with
  | None, [] => None
  | _, _ => Some (default [] old ++ new)
  end.

(** The summary entry of a list of scores ([None] for an empty list). *)
Definition summary_of (vals : list Q) : option speaker_summary :=
  match summarize vals with
  | Ok e => Some e
  | Raise _ => None
  end.

(** The [minutes] and [message] fields of a [/set-alarm] body, as the handler
    reads them: [minutes_of] is the integer [minutes] coerces to, if any. *)
Definition minutes_of (int_of_str : list N -> option Z) (data : json)
  : option Z :=
  match data with
  | JObj fields =>
      match py_int int_of_str
              (default (JNum 0) (fields_get (lit "minutes") fields)) with
      | Ok z => Some z
      | Raise _ => None
      end
  | _ => None
  end.

Definition message_of (data : json) : json :=
  match data with
  | JObj fields => default (JStr []) (fields_get (lit "message") fields)
  | _ => JStr []
  end.

(** A short conversation: two messages of one speaker, one of another. *)
Definition sample_conversation : list ChatMessage :=
  [ {| speaker := lit "alice"; message := lit "maybe" |};
    {| speaker := lit "bob"; message := lit "I went to the store at noon" |};
    {| speaker := lit "alice"; message := lit "idk" |} ].

(** Two [/set-alarm] bodies and an empty state. *)
Definition tea_in_five : json :=
  JObj [(lit "minutes", JNum 5); (lit "message", JStr (lit "tea"))].

Definition tea_in_zero : json :=
  JObj [(lit "minutes", JNum 0); (lit "message", JStr (lit "tea"))].

Definition no_alarm : world := {| alarms := []; threads := [] |}.

(** The similarity score of a candidate [x] for the lowercased user text
    [word]. *)
Definition similarity (x word : list N) : Q := ratio x word (chain_b word).

(** The answer of the first entry whose question equals [m] without regard
    to case. *)
Definition first_answer (m : list N) (knowledge_base : list KnowledgeEntry)
  : option (list N) :=
  answer <$> head (List.filter
                     (fun e => bool_decide (lower (question e) = lower m))
                     knowledge_base).

(** Two candidates with the same similarity to "ab". *)
Definition tied_questions : list (list N) := [lit "abc"; lit "abd"].

(** A small knowledge base, with a question in mixed case. *)
Definition sample_base : list KnowledgeEntry :=
  [ {| question := lit "What is your name?"; answer := lit "RAVAA" |};
    {| question := lit "How old are you?"; answer := lit "Ageless" |} ].

(** A page without paragraphs, fetched with success. *)
Definition empty_page (url : list N) : Z * list (list N) := (200%Z, []).

(** An entry the lie detector can score: an object whose [message], if
    present, is a string and whose [speaker], if present, is hashable (not
    a list or an object). *)
Definition well_formed_entry (entry : json) : Prop :=
  match entry with
  | JObj fields =>
      (exists s,
          default (JStr []) (fields_get (lit "message") fields) = JStr s)
      /\ (exists k,
            hash_key (default JNull (fields_get (lit "speaker") fields))
            = Ok k)
  | _ => False
  end.

(** A [/lie-detector] body with two well-formed entries, one without
    speaker. *)
Definition two_entries_body : json :=
  JObj [(lit "messages",
         JList [JObj [(lit "speaker", JStr (lit "ann"));
                      (lit "message", JStr (lit "maybe later"))];
                JObj [(lit "message", JStr (lit "idk"))]])].






(** A conversation of one speaker whose scores are 1, 1 and 2. *)
Definition uneven_conversation : list ChatMessage :=
  [ {| speaker := lit "ann"; message := [] |};
    {| speaker := lit "ann"; message := [] |};
    {| speaker := lit "ann"; message := lit "maybe we could go there" |} ].


(** The phrases that [/chat] treats as commands, in the order of its tests,
    and the replies that do not depend on the knowledge base or on a draw. *)
Definition command_phrases : list (list N) :=
  [lit "play rps"; lit "rock paper scissors"; lit "lie detector";
   lit "search"; lit "dice roll"; lit "set alarm"].

Definition canned_replies : list (list N) :=
  [lit "To play, send POST to /play-rps with your choice (rock, paper, or scissors).";
   lit "Send conversation messages to /lie-detector as JSON to analyze.";
   lit "Send your search topic to /search as JSON to get Wikipedia intro.";
   lit "Send POST to /set-alarm with minutes and message in JSON.";
   lit "I don't understand."].

(** The generator after one draw. *)
Definition advance (g : rng) : rng :=
  {| source := source g; drawn := S (drawn g) |}.

(** A generator whose draws are all [n]. *)
Definition fixed_draw (n : nat) : rng := {| source := fun _ => n; drawn := 0 |}.

(** The [result] field of a round of rock paper scissors. *)
Definition rps_result (o : rps_outcome) : list N :=
  match o with
  | RpsPlayed _ _ result => result
  | RpsError _ => []
  end.

(** The speakers of a conversation in the order of their first message;
    [seen] holds the speakers met so far. *)
Fixpoint first_seen (seen speakers : list (list N)) : list (list N) :=
  match speakers with
  | [] => seen
  | s :: rest =>
      first_seen (if bool_decide (s ∈ seen) then seen else seen ++ [s]) rest
  end.

(** The verdicts from the mildest to the most severe. *)
Definition verdict_rank (v : list N) : nat :=
  if bool_decide (v = lit "Highly Suspicious") then 2
  else if bool_decide (v = lit "Suspicious") then 1
  else 0.

(** A text in which every signal that adds to the score is present. *)
Definition loaded_text : list N := lit "yesnoneversometimesnot always idk".

(** A speaker who sends only empty messages, among others. *)
Definition silent_conversation : list ChatMessage :=
  [ {| speaker := lit "carol"; message := [] |};
    {| speaker := lit "bob"; message := lit "I went to the store at noon" |};
    {| speaker := lit "carol"; message := [] |} ].

(** A page of one paragraph, fetched with success. *)
Definition moon_page (url : list N) : Z * list (list N) :=
  (200%Z, [lit "The Moon is Earth's only natural satellite."]).

(** A [/set-alarm] body whose message is a list. *)
Definition list_message_body : json :=
  JObj [(lit "minutes", JNum 5); (lit "message", JList [JStr (lit "tea")])].

(** A [/set-alarm] body with a fractional number of minutes. *)
Definition tea_in_two_and_a_half : json :=
  JObj [(lit "minutes", JNum (5 # 2)); (lit "message", JStr (lit "tea"))].

End Spec.

(** ** Notions used to reason about [SequenceMatcher] *)

Module Invariants.

Import Py Difflib.

(** [l[lo:hi]]. *)
Definition slice (l : list N) (lo hi : nat) : list N :=
  take (hi - lo) (drop lo l).

(** The indices of [b] that hold [c], [b] starting at index [i]. *)
Fixpoint positions (c : N) (i : nat) (b : list N) : list nat :=
  match b with
  | [] => []
  | x :: b' => (if N.eqb x c then [i] else []) ++ positions c (S i) b'
  end.

(** Every index listed under an element holds that element. *)
Definition b2j_sound (b : list N) (b2j : gmap N (list nat)) : Prop :=
  forall c js j, b2j !! c = Some js -> j ∈ js -> b !! j = Some c.

(** [a[i:i+k] == b[j:j+k]], index by index. *)
Definition matched (a b : list N) (i j k : nat) : Prop :=
  forall d, d < k -> same_at a b (i + d) (j + d) = true.

(** A block that lies in the region [a[alo:ahi]], [b[blo:bhi]] and matches. *)
Definition good (a b : list N) (alo ahi blo bhi : nat)
    (m : nat * nat * nat) : Prop :=
  alo <= m.1.1 /\ m.1.1 + m.2 <= ahi
  /\ blo <= m.1.2 /\ m.1.2 + m.2 <= bhi
  /\ matched a b m.1.1 m.1.2 m.2.

(** What [j2len] holds when row [i] is about to be scanned: the lengths of
    the matches that end at row [i - 1]. *)
Definition row_ok (a b : list N) (alo blo bhi i : nat)
    (j2len : gmap nat nat) : Prop :=
  forall j v, j2len !! j = Some v ->
    1 <= v /\ v <= i - alo /\ v <= j + 1 - blo /\ blo <= j /\ j < bhi
    /\ matched a b (i - v) (j + 1 - v) v.

(** The length of the run of indexed elements of [x] that ends just before
    index [n]: what the diagonal of [j2len] holds when a string is matched
    against itself. *)
Fixpoint diag_run (b2j : gmap N (list nat)) (x : list N) (n : nat) : nat :=
  match n with
  | O => 0
  | S n' =>
      match x !! n' with
      | Some c =>
          match b2j !! c with
          | Some _ => S (diag_run b2j x n')
          | None => 0
          end
      | None => 0
      end
  end.

(** [j2lenget(j-1, 0)]. *)
Definition prev_len (j2len : gmap nat nat) (j : nat) : nat :=
  match j with
  | O => 0
  | S j' => default 0 (j2len !! j')
  end.

(** Matching [x] against itself, when row [i] is about to be scanned: no
    entry of [j2len] exceeds the diagonal run, and the diagonal entry is the
    run. *)
Definition self_row (b2j : gmap N (list nat)) (x : list N) (i : nat)
    (j2len : gmap nat nat) : Prop :=
  (forall j v, j2len !! j = Some v -> v <= diag_run b2j x (Nat.min i (S j)))
  /\ prev_len j2len i = diag_run b2j x i.

(** The best block is on the diagonal and at least as long as every
    diagonal run met so far. *)
Definition self_best (b2j : gmap N (list nat)) (x : list N) (i : nat)
    (best : nat * nat * nat) : Prop :=
  best.1.1 = best.1.2 /\ best.1.1 + best.2 <= i
  /\ forall n, n <= i -> diag_run b2j x n <= best.2.

(** A region of the queue, and what the queue still costs: every iteration
    of the loop lowers [queue_cost]. *)
Definition region_ok (la lb : nat) (r : nat * nat * nat * nat) : Prop :=
  let '(alo, ahi, blo, bhi) := r in alo <= ahi <= la /\ blo <= bhi <= lb.

Definition queue_cost (queue : list (nat * nat * nat * nat)) : nat :=
  sum_list_with (fun '(alo, ahi, _, _) => S (2 * (ahi - alo))) queue.

(** Size of the intersection of two strings seen as multisets. *)
Definition common (s t : list N) : nat :=
  size ((list_to_set_disj s : gmultiset N) ∩ list_to_set_disj t).

(** What the regions of the queue can still contribute to the matches. *)
Definition queue_common (a b : list N)
    (queue : list (nat * nat * nat * nat)) : nat :=
  sum_list_with
    (fun '(alo, ahi, blo, bhi) => common (slice a alo ahi) (slice b blo bhi))
    queue.

Definition block_sizes (blocks : list (nat * nat * nat)) : nat :=
  sum_list_with snd blocks.

(** The shorter side of every queued region, summed. *)
Definition queue_min (queue : list (nat * nat * nat * nat)) : nat :=
  sum_list_with
    (fun '(alo, ahi, blo, bhi) => Nat.min (ahi - alo) (bhi - blo)) queue.

(** A region with sides of equal length, and a region whose sides are equal
    strings. *)
Definition region_square (r : nat * nat * nat * nat) : Prop :=
  let '(alo, ahi, blo, bhi) := r in ahi - alo = bhi - blo.

Definition region_equal (a b : list N) (r : nat * nat * nat * nat) : Prop :=
  let '(alo, ahi, blo, bhi) := r in slice a alo ahi = slice b blo bhi.

End Invariants.

(** ** Properties of the built-ins *)

(** Case analysis on the tables of code points: split on every test and
    turn the outcomes into arithmetic facts. *)
Ltac split_tests :=
  repeat match goal with
         | |- context [if ?b then _ else _] => destruct b eqn:?
         end.

Ltac tests_to_facts :=
  repeat match goal with
         | H : andb _ _ = true |- _ => apply andb_true_iff in H; destruct H
         | H : andb _ _ = false |- _ => apply andb_false_iff in H; destruct H
         | H : negb _ = true |- _ => apply negb_true_iff in H
         | H : negb _ = false |- _ => apply negb_false_iff in H
         | H : (_ <=? _)%N = true |- _ => apply N.leb_le in H
         | H : (_ <=? _)%N = false |- _ => apply N.leb_gt in H
         | H : (_ =? _)%N = true |- _ => apply N.eqb_eq in H
         | H : (_ =? _)%N = false |- _ => apply N.eqb_neq in H
         end.

Section PyFacts.

Import Py.

(** The code points that [lower_table] changes. *)
Lemma in_block_members (c : N) (block : N * N * N * N) :
  in_block c block = true ->
  In c (map (fun k => block.1.1.1 + block.1.2 * N.of_nat k)%N
          (seq 0 (S (N.to_nat ((block.1.1.2 - block.1.1.1) / block.1.2))))).
Proof.
  destruct block as [[[first last] step] target]. cbn [in_block fst snd].
  intros H. apply andb_true_iff in H as [H Hmod].
  apply andb_true_iff in H as [Hlo Hhi].
  apply N.leb_le in Hlo, Hhi. apply N.eqb_eq in Hmod.
  destruct (N.eq_dec step 0%N) as [-> | Hstep].
  { rewrite N.mod_0_r in Hmod. apply in_map_iff. exists O.
    split; [lia | cbn; by left]. }
  apply in_map_iff. exists (N.to_nat ((c - first) / step)). split.
  - rewrite N2Nat.id. pose proof (N.div_mod (c - first) step Hstep). lia.
  - apply in_seq.
    assert ((c - first) / step <= (last - first) / step)%N
      by (apply N.Div0.div_le_mono; lia).
    revert H. generalize ((c - first) / step)%N, ((last - first) / step)%N.
    lia.
Qed.

(** A property of every code point that [lower_cp] changes can be checked
    on the members of the table. *)
Lemma lower_cp_cases (P : N -> Prop) (c : N) :
  P 304%N ->
  Forall (fun block =>
            Forall P
              (map (fun k => block.1.1.1 + block.1.2 * N.of_nat k)%N
                 (seq 0 (S (N.to_nat
                              ((block.1.1.2 - block.1.1.1) / block.1.2))))))
    lower_table ->
  (lower_cp c = [c] -> P c) ->
  P c.
Proof.
  intros H304 Htable Hsame. unfold lower_cp in Hsame.
  destruct (N.eqb_spec c 304) as [-> | _]; [done|].
  destruct (List.find (in_block c) lower_table) as [block|] eqn:E; [|auto].
  apply find_some in E as [Hin Hc]. rewrite List.Forall_forall in Htable.
  specialize (Htable block Hin). rewrite List.Forall_forall in Htable.
  apply Htable. by apply in_block_members.
Qed.

(** Every code point [lower_cp] produces is left alone by [lower_cp]. *)
Lemma lower_cp_fixed (c d : N) : In d (lower_cp c) -> lower_cp d = [d].
Proof.
  revert d. apply List.Forall_forall.
  apply (lower_cp_cases
           (fun c => Forall (fun d => lower_cp d = [d]) (lower_cp c))).
  - apply (bool_decide_unpack _). vm_compute. exact I.
  - apply (bool_decide_unpack _). vm_compute. exact I.
  - intros H. rewrite H. by repeat constructor.
Qed.

Lemma lower_cp_sigma : lower_cp 931 = [963%N].
Proof. vm_compute. reflexivity. Qed.

(** Apart from the capital sigma, [str.lower] works code point by code
    point. *)
Lemma lower_from_plain (t : list N) :
  ~ In 931%N t ->
  forall before, lower_from before t = concat (map lower_cp t).
Proof.
  induction t as [|c t IH]; intros Hno before; [done|].
  cbn [lower_from map concat].
  destruct (N.eqb_spec c 931) as [-> | _]; [exfalso; apply Hno; by left|].
  rewrite IH; [done|]. intros H. apply Hno. by right.
Qed.

Lemma lower_from_fixed (t : list N) :
  Forall (fun d => lower_cp d = [d]) t ->
  forall before, lower_from before t = t.
Proof.
  induction 1 as [|c t Hc _ IH]; intros before; [done|].
  cbn [lower_from]. destruct (N.eqb_spec c 931) as [-> | _].
  - by rewrite lower_cp_sigma in Hc.
  - by rewrite Hc, IH.
Qed.

Lemma lower_from_stable (t : list N) :
  forall before, Forall (fun d => lower_cp d = [d]) (lower_from before t).
Proof.
  induction t as [|c t IH]; intros before; [constructor|].
  cbn [lower_from]. apply Forall_app. split; [|apply IH].
  destruct (c =? 931)%N.
  - destruct (final_sigma before t); repeat constructor.
  - apply List.Forall_forall. intros d Hd. by apply (lower_cp_fixed c).
Qed.

(** [str.lower] is idempotent. *)
Lemma lower_idempotent (t : list N) : lower (lower t) = lower t.
Proof. unfold lower. apply lower_from_fixed, lower_from_stable. Qed.

(** On ASCII text, lowering the uppercased text gives the lowered text:
    checked on each of the 128 code points. *)
Lemma lower_upper_cp_ascii (c : N) :
  (c < 128)%N ->
  lower (upper_cp c) = lower_cp c /\ Forall (fun d => d < 128)%N (upper_cp c).
Proof.
  intros Hc.
  assert (Hall : Forall (fun n => lower (upper_cp (N.of_nat n))
                                  = lower_cp (N.of_nat n)
                                  /\ Forall (fun d => d < 128)%N
                                       (upper_cp (N.of_nat n)))
                   (seq 0 128)).
  { apply (bool_decide_unpack _). vm_compute. done. }
  rewrite Forall_forall in Hall.
  specialize (Hall (N.to_nat c)). rewrite N2Nat.id in Hall.
  apply Hall, elem_of_seq. lia.
Qed.

Lemma ascii_no_sigma (t : list N) : is_ascii t -> ~ In 931%N t.
Proof.
  intros Ht Hin. unfold is_ascii in Ht. rewrite List.Forall_forall in Ht.
  specialize (Ht _ Hin). lia.
Qed.

Lemma lower_upper_ascii (t : list N) :
  is_ascii t -> lower (upper t) = lower t.
Proof.
  intros Ht.
  assert (Hup : is_ascii (upper t)).
  { unfold upper. induction Ht as [|c t Hc _ IH]; [constructor|].
    cbn [map concat]. apply Forall_app. split; [|done].
    by apply lower_upper_cp_ascii. }
  unfold lower.
  rewrite !lower_from_plain by (by apply ascii_no_sigma).
  unfold upper. induction Ht as [|c t Hc Ht IH]; [done|].
  cbn [map concat]. rewrite map_app, concat_app.
  rewrite IH.
  2:{ cbn [upper map concat] in Hup. by apply Forall_app in Hup as [_ ?]. }
  f_equal. destruct (lower_upper_cp_ascii c Hc) as [<- Hsmall].
  unfold lower. symmetry. apply lower_from_plain. by apply ascii_no_sigma.
Qed.

Lemma startswith_singleton (c : N) (t : list N) :
  startswith [c] t = match t with [] => false | d :: _ => N.eqb c d end.
Proof. destruct t as [|d t]; cbn; [done|]. by rewrite andb_true_r. Qed.

(** [c in t] for a one-character string is membership. *)
Lemma str_in_singleton (c : N) (t : list N) :
  str_in [c] t = true <-> In c t.
Proof.
  induction t as [|d t IH]; cbn -[startswith]; [cbn; intuition discriminate|].
  rewrite startswith_singleton, orb_true_iff, IH, N.eqb_eq. intuition.
Qed.

Lemma question_mark_lower_cp (c : N) : In 63%N (lower_cp c) <-> c = 63%N.
Proof.
  rewrite <- list_elem_of_In.
  apply (lower_cp_cases (fun c => 63%N ∈ lower_cp c <-> c = 63%N)).
  - apply (bool_decide_unpack _). vm_compute. exact I.
  - apply (bool_decide_unpack _). vm_compute. exact I.
  - intros ->. rewrite list_elem_of_singleton. split; by intros ->.
Qed.

(** Lowering neither adds nor removes a question mark. *)
Lemma question_mark_lower (t : list N) :
  str_in (lit "?") (lower t) = str_in (lit "?") t.
Proof.
  apply eq_true_iff_eq. change (lit "?") with [63%N].
  rewrite !str_in_singleton. unfold lower. generalize (@nil N).
  induction t as [|c t IH]; intros before; [done|].
  cbn [lower_from]. rewrite in_app_iff, IH. cbn [In].
  destruct (N.eqb_spec c 931) as [-> | _].
  - destruct (final_sigma before t); cbn [In]; intuition discriminate.
  - rewrite question_mark_lower_cp. intuition.
Qed.

Lemma lower_cp_nonempty (c : N) : lower_cp c <> [].
Proof. unfold lower_cp. by repeat case_match. Qed.

Lemma lower_nil_inv (t : list N) : lower t = [] -> t = [].
Proof.
  destruct t as [|c t]; [done|]. unfold lower. cbn [lower_from].
  intros H. apply app_eq_nil in H as [H _].
  destruct (c =? 931)%N; [done|]. by apply lower_cp_nonempty in H.
Qed.

End PyFacts.

(** ** Rounding to binary64 *)

Ltac compare_facts :=
  repeat match goal with
         | H : Qcompare _ _ = Eq |- _ => apply Qeq_alt in H
         | H : Qcompare _ _ = Lt |- _ => apply Qlt_alt in H
         | H : Qcompare _ _ = Gt |- _ => apply Qgt_alt in H
         end.

Section Floats.

Import Float.

Local Open Scope Q_scope.

Lemma Qfloor_unique (q : Q) (n : Z) :
  inject_Z n <= q -> q < inject_Z (n + 1) -> Qfloor q = n.
Proof.
  intros Hlo Hhi.
  pose proof (Qfloor_le q) as H1. pose proof (Qlt_floor q) as H2.
  assert (inject_Z n < inject_Z (Qfloor q + 1)) as H3 by (eapply Qle_lt_trans; eassumption).
  assert (inject_Z (Qfloor q) < inject_Z (n + 1)) as H4 by (eapply Qle_lt_trans; eassumption).
  rewrite <- Zlt_Qlt in H3, H4. lia.
Qed.

Lemma round_half_even_Z (n : Z) : round_half_even (inject_Z n) = n.
Proof.
  unfold round_half_even. rewrite Qfloor_Z.
  assert (Qcompare (inject_Z n - inject_Z n) (1 # 2) = Lt) as ->; [|done].
  apply (proj1 (Qlt_alt _ _)). lra.
Qed.

#[global] Instance round_half_even_proper : Proper (Qeq ==> eq) round_half_even.
Proof.
  intros x y E. unfold round_half_even. rewrite (Qfloor_comp _ _ E).
  by rewrite E.
Qed.

Lemma round_half_even_near (q : Q) :
  inject_Z (round_half_even q) - (1 # 2) <= q
  /\ q <= inject_Z (round_half_even q) + (1 # 2).
Proof.
  unfold round_half_even.
  pose proof (Qfloor_le q) as H1. pose proof (Qlt_floor q) as H2.
  rewrite inject_Z_plus in H2. change (inject_Z 1) with 1 in H2.
  destruct (Qcompare (q - inject_Z (Qfloor q)) (1 # 2)) eqn:E.
  - compare_facts. destruct (Z.even _);
      rewrite ?inject_Z_plus; change (inject_Z 1) with 1; lra.
  - compare_facts. lra.
  - compare_facts. rewrite inject_Z_plus. change (inject_Z 1) with 1. lra.
Qed.

Lemma round_half_even_mono (x y : Q) :
  x <= y -> (round_half_even x <= round_half_even y)%Z.
Proof.
  intros Hxy. pose proof (Qfloor_resp_le _ _ Hxy) as Hfl.
  pose proof (Qfloor_le x) as Hx1. pose proof (Qlt_floor x) as Hx2.
  pose proof (Qfloor_le y) as Hy1. pose proof (Qlt_floor y) as Hy2.
  rewrite inject_Z_plus in Hx2, Hy2. change (inject_Z 1) with 1 in Hx2, Hy2.
  unfold round_half_even.
  destruct (Z.eq_dec (Qfloor x) (Qfloor y)) as [Heq | Hne].
  - rewrite <- Heq in *.
    destruct (Qcompare (x - inject_Z (Qfloor x)) (1 # 2)) eqn:Ex;
      destruct (Qcompare (y - inject_Z (Qfloor x)) (1 # 2)) eqn:Ey;
      compare_facts;
      try destruct (Z.even (Qfloor x)); try lia; exfalso; lra.
  - assert (Qfloor x + 1 <= Qfloor y)%Z by lia.
    destruct (Qcompare (x - inject_Z (Qfloor x)) (1 # 2));
      destruct (Qcompare (y - inject_Z (Qfloor y)) (1 # 2));
      repeat destruct (Z.even _); lia.
Qed.

(** Powers of two. *)
Lemma pow2_pos (e : Z) : 0 < 2 ^ e.
Proof. by apply Qpower_0_lt. Qed.

Lemma pow2_plus (a b : Z) : 2 ^ (a + b) == 2 ^ a * 2 ^ b.
Proof. by apply Qpower_plus. Qed.

Lemma pow2_le (a b : Z) : (a <= b)%Z -> 2 ^ a <= 2 ^ b.
Proof. intros H. by apply Qpower_le_compat_l. Qed.

Lemma pow2_lt (a b : Z) : (a < b)%Z -> 2 ^ a < 2 ^ b.
Proof. intros H. by apply Qpower_lt_compat_l. Qed.

Lemma pow2_lt_inv (a b : Z) : 2 ^ a < 2 ^ b -> (a < b)%Z.
Proof. intros H. by apply (Qpower_lt_compat_l_inv 2). Qed.

Lemma pow2_Z (k : Z) : (0 <= k)%Z -> inject_Z (2 ^ k) == 2 ^ k.
Proof. intros H. by rewrite Zpower_Qpower. Qed.

(** The exponent of a positive number. *)
Lemma exponent_spec (a : Q) :
  0 < a -> 2 ^ exponent a <= a /\ a < 2 ^ (exponent a + 1).
Proof.
  intros Ha. destruct a as [n d].
  assert (Hn : (0 < n)%Z).
  { unfold Qlt in Ha. cbn in Ha. lia. }
  unfold exponent. cbn [Qnum Qden].
  set (x := Z.log2 n). set (y := Z.log2 (Z.pos d)).
  destruct (Z.log2_spec n Hn) as [Hx1 Hx2]. fold x in Hx1, Hx2.
  destruct (Z.log2_spec (Z.pos d) eq_refl) as [Hy1 Hy2]. fold y in Hy1, Hy2.
  assert (Hx0 : (0 <= x)%Z) by apply Z.log2_nonneg.
  assert (Hy0 : (0 <= y)%Z) by apply Z.log2_nonneg.
  rewrite Zle_Qle in Hx1, Hy1. rewrite Zlt_Qlt in Hx2, Hy2.
  rewrite pow2_Z in Hx1, Hx2, Hy1, Hy2 by lia.
  assert (Hq : n # d == inject_Z n / inject_Z (Z.pos d)) by apply Qmake_Qdiv.
  assert (Hd : 0 < inject_Z (Z.pos d)) by reflexivity.
  pose proof (pow2_pos (x - y)) as Hp. pose proof (pow2_pos (x - y - 1)) as Hp'.
  pose proof (pow2_pos y) as Hpy.
  assert (Hhi : n # d < 2 ^ (x - y + 1)).
  { rewrite Hq. apply Qlt_shift_div_r; [done|].
    eapply Qlt_le_trans; [exact Hx2|].
    replace (Z.succ x) with ((x - y + 1) + y)%Z by lia.
    rewrite pow2_plus. pose proof (pow2_pos (x - y + 1)). nra. }
  assert (Hlo : 2 ^ (x - y - 1) < n # d).
  { rewrite Hq. apply Qlt_shift_div_l; [done|].
    eapply Qlt_le_trans; [|exact Hx1].
    replace x with ((x - y - 1) + Z.succ y)%Z at 2 by lia.
    rewrite pow2_plus. nra. }
  destruct (Qle_bool (2 ^ (x - y)) (n # d)) eqn:E.
  - apply Qle_bool_iff in E. done.
  - assert (Hlt : n # d < 2 ^ (x - y)).
    { apply Qnot_le_lt. intros H. apply Qle_bool_iff in H. congruence. }
    replace (x - y - 1 + 1)%Z with (x - y)%Z by lia.
    split; [by apply Qlt_le_weak | done].
Qed.

Lemma exponent_unique (a : Q) (e : Z) :
  2 ^ e <= a -> a < 2 ^ (e + 1) -> exponent a = e.
Proof.
  intros Hlo Hhi.
  assert (Ha : 0 < a) by (pose proof (pow2_pos e); lra).
  destruct (exponent_spec a Ha) as [Hlo' Hhi'].
  assert (H1 : (e < exponent a + 1)%Z)
    by (apply pow2_lt_inv; eapply Qle_lt_trans; eassumption).
  assert (H2 : (exponent a < e + 1)%Z)
    by (apply pow2_lt_inv; eapply Qle_lt_trans; eassumption).
  lia.
Qed.

Lemma exponent_proper (a b : Q) :
  0 < a -> a == b -> exponent a = exponent b.
Proof.
  intros Ha E. symmetry. destruct (exponent_spec a Ha) as [Hlo Hhi].
  apply exponent_unique; by rewrite <- E.
Qed.

Lemma exponent_mono (a b : Q) :
  0 < a -> a <= b -> (exponent a <= exponent b)%Z.
Proof.
  intros Ha Hab. assert (Hb : 0 < b) by lra.
  destruct (exponent_spec a Ha) as [Hlo _].
  destruct (exponent_spec b Hb) as [_ Hhi].
  assert (exponent a < exponent b + 1)%Z; [|lia].
  apply pow2_lt_inv. lra.
Qed.

Lemma ulp_proper (a b : Q) : 0 < a -> a == b -> ulp a = ulp b.
Proof. intros Ha E. unfold ulp. by rewrite (exponent_proper a b). Qed.

Lemma ulp_pos (a : Q) : 0 < ulp a.
Proof. apply pow2_pos. Qed.

Lemma pow2_52 : 2 ^ 52 == inject_Z (2 ^ 52).
Proof. reflexivity. Qed.

Lemma pow2_53 : 2 ^ 53 == inject_Z (2 ^ 53).
Proof. reflexivity. Qed.

(** The significand of the rounded number, and where the result lies. *)
Lemma nearest_bounds (a : Q) :
  0 < a ->
  let e := Z.max (exponent a) (-1022) in
  let m := round_half_even (a / ulp a) in
  (0 <= m <= 2 ^ 53)%Z
  /\ (e = exponent a -> (2 ^ 52 <= m)%Z)
  /\ (e <> exponent a -> (m <= 2 ^ 52)%Z)
  /\ 2 ^ e == 2 ^ 52 * ulp a.
Proof.
  intros Ha e m. destruct (exponent_spec a Ha) as [Hlo Hhi].
  pose proof (ulp_pos a) as Hu.
  assert (He : 2 ^ e == 2 ^ 52 * ulp a).
  { unfold ulp. fold e. rewrite <- pow2_plus. by replace (52 + (e - 52))%Z with e by lia. }
  assert (He' : 2 ^ (e + 1) == 2 ^ 53 * ulp a).
  { unfold ulp. fold e. rewrite <- pow2_plus.
    by replace (53 + (e - 52))%Z with (e + 1)%Z by lia. }
  assert (Hhi' : a < 2 ^ (e + 1)).
  { eapply Qlt_le_trans; [exact Hhi|]. apply pow2_le. lia. }
  assert (Hm53 : (m <= 2 ^ 53)%Z).
  { rewrite <- (round_half_even_Z (2 ^ 53)). apply round_half_even_mono.
    apply Qle_shift_div_r; [done|]. rewrite <- pow2_53, <- He'.
    by apply Qlt_le_weak. }
  assert (Hm0 : (0 <= m)%Z).
  { rewrite <- (round_half_even_Z 0). apply round_half_even_mono.
    apply Qle_shift_div_l; [done|]. change (inject_Z 0) with 0.
    rewrite Qmult_0_l. by apply Qlt_le_weak. }
  split; [done|]. split; [|split; [|done]].
  - intros E. rewrite <- (round_half_even_Z (2 ^ 52)).
    apply round_half_even_mono. apply Qle_shift_div_l; [done|].
    rewrite <- pow2_52, <- He, E. done.
  - intros E. rewrite <- (round_half_even_Z (2 ^ 52)).
    apply round_half_even_mono. apply Qle_shift_div_r; [done|].
    rewrite <- pow2_52, <- He. apply Qlt_le_weak.
    eapply Qlt_le_trans; [exact Hhi|]. apply pow2_le. lia.
Qed.

Lemma nearest_range (a : Q) :
  0 < a ->
  let e := Z.max (exponent a) (-1022) in
  0 <= nearest a /\ nearest a <= 2 ^ (e + 1)
  /\ (e = exponent a -> 2 ^ e <= nearest a)
  /\ (e <> exponent a -> nearest a <= 2 ^ e).
Proof.
  intros Ha e. destruct (nearest_bounds a Ha) as ([Hm0 Hm53] & Hm52 & Hsub & He).
  fold e in Hm52, Hsub, He. pose proof (ulp_pos a) as Hu. unfold nearest.
  assert (He' : 2 ^ (e + 1) == 2 ^ 53 * ulp a).
  { unfold ulp. fold e. rewrite <- pow2_plus.
    by replace (53 + (e - 52))%Z with (e + 1)%Z by lia. }
  rewrite Zle_Qle in Hm0, Hm53. rewrite <- pow2_53 in Hm53.
  change (inject_Z 0) with 0 in Hm0.
  split; [nra|]. split; [rewrite He'; nra|]. split.
  - intros E. specialize (Hm52 E). rewrite Zle_Qle, <- pow2_52 in Hm52.
    rewrite He. nra.
  - intros E. specialize (Hsub E). rewrite Zle_Qle, <- pow2_52 in Hsub.
    rewrite He. nra.
Qed.

Lemma nearest_proper (a b : Q) : 0 < a -> a == b -> nearest a == nearest b.
Proof.
  intros Ha E. unfold nearest. rewrite <- (ulp_proper a b Ha E).
  assert (round_half_even (a / ulp a) = round_half_even (b / ulp a)) as ->;
    [|reflexivity].
  apply round_half_even_proper. apply Qmult_comp; [done | reflexivity].
Qed.

Lemma nearest_mono (a b : Q) : 0 < a -> a <= b -> nearest a <= nearest b.
Proof.
  intros Ha Hab. assert (Hb : 0 < b) by lra.
  pose proof (exponent_mono a b Ha Hab) as He.
  destruct (nearest_range a Ha) as (_ & Hhi & _ & Hsub).
  destruct (nearest_range b Hb) as (_ & _ & Hlo & _).
  cbn zeta in Hhi, Hsub, Hlo.
  destruct (Z.eq_dec (Z.max (exponent a) (-1022)) (Z.max (exponent b) (-1022)))
    as [E | E].
  - unfold nearest, ulp. rewrite E. fold (ulp b).
    pose proof (ulp_pos b) as Hu.
    apply Qmult_le_compat_r; [|by apply Qlt_le_weak].
    rewrite <- Zle_Qle. apply round_half_even_mono.
    apply Qmult_le_compat_r; [done|]. apply Qinv_le_0_compat.
    by apply Qlt_le_weak.
  - assert (Hb' : Z.max (exponent b) (-1022) = exponent b) by lia.
    specialize (Hlo Hb'). rewrite Hb' in Hlo.
    eapply Qle_trans; [|exact Hlo].
    destruct (Z.eq_dec (Z.max (exponent a) (-1022)) (exponent a)) as [Ea | Ea].
    + eapply Qle_trans; [exact Hhi|]. apply pow2_le. lia.
    + eapply Qle_trans; [exact (Hsub Ea)|]. apply pow2_le. lia.
Qed.

Lemma nearest_idempotent (a : Q) :
  0 < a -> 0 < nearest a -> nearest (nearest a) == nearest a.
Proof.
  intros Ha Hv.
  destruct (nearest_bounds a Ha) as ([Hm0 Hm53] & Hm52 & Hsub & He).
  cbn zeta in Hm52, Hsub, He.
  set (e := Z.max (exponent a) (-1022)) in *.
  set (m := round_half_even (a / ulp a)) in *.
  pose proof (ulp_pos a) as Hu.
  assert (Hv' : nearest a == inject_Z m * ulp a) by reflexivity.
  assert (He' : 2 ^ (e + 1) == 2 ^ 53 * ulp a).
  { unfold ulp. fold e. rewrite <- pow2_plus.
    by replace (53 + (e - 52))%Z with (e + 1)%Z by lia. }
  assert (Hexact : forall e', Z.max (exponent (nearest a)) (-1022) = e' ->
            (e' = e \/ (e' = e + 1)%Z /\ Z.even m = true) ->
            nearest (nearest a) == nearest a).
  { intros e' He1 Hcase. unfold nearest at 1. unfold ulp at 1 2. rewrite He1.
    destruct Hcase as [-> | [-> Hev]].
    - assert (Hr : round_half_even (nearest a / 2 ^ (e - 52)) = m).
      { transitivity (round_half_even (inject_Z m));
          [|apply round_half_even_Z].
        apply round_half_even_proper. change (2 ^ (e - 52)) with (ulp a).
        rewrite Hv'. field. lra. }
      rewrite Hr. symmetry. exact Hv'.
    - assert (Hu2 : 2 ^ (e + 1 - 52) == 2 * ulp a).
      { unfold ulp. fold e. replace (e + 1 - 52)%Z with (1 + (e - 52))%Z by lia.
        by rewrite pow2_plus. }
      destruct (Z.even_spec m) as [[k Hk] _]; [done|].
      assert (Hr : round_half_even (nearest a / 2 ^ (e + 1 - 52)) = k).
      { transitivity (round_half_even (inject_Z k));
          [|apply round_half_even_Z].
        apply round_half_even_proper.
        rewrite Hu2, Hv', Hk, inject_Z_mult. change (inject_Z 2) with 2.
        field. lra. }
      rewrite Hr, Hu2, Hv', Hk, inject_Z_mult. change (inject_Z 2) with 2.
      ring. }
  assert (Hmpos : (0 < m)%Z).
  { destruct (Z.eq_dec m 0%Z) as [E | E]; [|lia].
    rewrite Hv', E in Hv. change (inject_Z 0) with 0 in Hv. lra. }
  rewrite Zle_Qle in Hm53. rewrite <- pow2_53 in Hm53.
  destruct (Z.eq_dec m (2 ^ 53)%Z) as [E53 | E53].
  - apply (Hexact (e + 1)%Z).
    + assert (exponent (nearest a) = (e + 1)%Z) as ->; [|lia].
      apply exponent_unique.
      * rewrite Hv', E53, <- pow2_53, He'. apply Qle_refl.
      * rewrite Hv', E53, <- pow2_53, <- He'. apply pow2_lt. lia.
    + right. split; [done|]. by rewrite E53.
  - assert (Hlt : inject_Z m < 2 ^ 53).
    { rewrite pow2_53, <- Zlt_Qlt. rewrite pow2_53, <- Zle_Qle in Hm53. lia. }
    destruct (Z.le_gt_cases (2 ^ 52)%Z m) as [H52 | H52].
    + apply (Hexact e); [|by left].
      assert (exponent (nearest a) = e) as ->; [|lia].
      rewrite Zle_Qle, <- pow2_52 in H52.
      apply exponent_unique; rewrite Hv'; [rewrite He | rewrite He']; nra.
    + assert (Ee : e = (-1022)%Z).
      { destruct (Z.eq_dec e (exponent a)) as [E | E]; [|lia].
        specialize (Hm52 E). lia. }
      apply (Hexact e); [|by left].
      assert (exponent (nearest a) < e)%Z; [|lia].
      destruct (exponent_spec _ Hv) as [Hlo _].
      apply pow2_lt_inv. eapply Qle_lt_trans; [exact Hlo|].
      rewrite Hv', He. rewrite Zlt_Qlt, <- pow2_52 in H52. nra.
Qed.

(** *** The rounding of Python's float division *)

#[global] Instance binary64_proper : Proper (Qeq ==> Qeq) binary64.
Proof.
  intros x y E. unfold binary64.
  assert (Qeq_bool y 0 = Qeq_bool x 0) as ->.
  { apply eq_true_iff_eq. rewrite !Qeq_bool_iff. by rewrite E. }
  destruct (Qeq_bool x 0) eqn:E0; [reflexivity|].
  assert (Hx : ~ x == 0) by (by apply Qeq_bool_neq).
  assert (Qle_bool 0 y = Qle_bool 0 x) as ->.
  { apply eq_true_iff_eq. rewrite !Qle_bool_iff. by rewrite E. }
  destruct (Qle_bool 0 x) eqn:E1.
  - apply Qle_bool_iff in E1. apply nearest_proper; [lra | done].
  - assert (x < 0).
    { apply Qnot_le_lt. intros H. apply Qle_bool_iff in H. congruence. }
    apply Qopp_comp. apply nearest_proper; [lra | by rewrite E].
Qed.

Lemma binary64_cases (q : Q) :
  (q == 0 /\ binary64 q == 0)
  \/ (0 < q /\ binary64 q == nearest q)
  \/ (q < 0 /\ binary64 q == - nearest (- q)).
Proof.
  unfold binary64. destruct (Qeq_bool q 0) eqn:E0.
  - left. split; [by apply Qeq_bool_iff | reflexivity].
  - assert (Hq : ~ q == 0) by (by apply Qeq_bool_neq).
    destruct (Qle_bool 0 q) eqn:E1.
    + apply Qle_bool_iff in E1. right. left. split; [|reflexivity].
      apply Qle_lteq in E1 as [? | E]; [done|]. exfalso. apply Hq. by rewrite E.
    + right. right. split; [|reflexivity].
      apply Qnot_le_lt. intros H. apply Qle_bool_iff in H. congruence.
Qed.

(** Rounding keeps the order. *)
Lemma binary64_mono (x y : Q) : x <= y -> binary64 x <= binary64 y.
Proof.
  intros Hxy.
  destruct (binary64_cases x) as [[Hx ->] | [[Hx ->] | [Hx ->]]];
    destruct (binary64_cases y) as [[Hy ->] | [[Hy ->] | [Hy ->]]];
    try (exfalso; lra).
  - apply Qle_refl.
  - by destruct (nearest_range y Hy) as (? & _).
  - by apply nearest_mono.
  - assert (0 < - x) as Hx' by lra.
    destruct (nearest_range _ Hx') as (? & _). lra.
  - assert (0 < - x) as Hx' by lra.
    destruct (nearest_range _ Hx') as (? & _).
    destruct (nearest_range y Hy) as (? & _). lra.
  - assert (0 < - y) as Hy' by lra.
    assert (nearest (- y) <= nearest (- x)) by (apply nearest_mono; lra).
    lra.
Qed.

(** A rounded number is a binary64 number: rounding leaves it as it is. *)
Lemma binary64_idempotent (q : Q) : binary64 (binary64 q) == binary64 q.
Proof.
  destruct (binary64_cases q) as [[Hq E] | [[Hq E] | [Hq E]]]; rewrite E.
  - reflexivity.
  - destruct (nearest_range q Hq) as (H0 & _).
    destruct (binary64_cases (nearest q)) as [[Hv ->] | [[Hv ->] | [Hv ->]]].
    + by rewrite Hv.
    + by apply nearest_idempotent.
    + exfalso. lra.
  - assert (Hq' : 0 < - q) by lra.
    destruct (nearest_range _ Hq') as (H0 & _).
    destruct (binary64_cases (- nearest (- q)))
      as [[Hv ->] | [[Hv ->] | [Hv ->]]].
    + by rewrite Hv.
    + exfalso. lra.
    + apply Qopp_comp.
      assert (Hv' : 0 < nearest (- q)) by lra.
      rewrite <- (nearest_idempotent _ Hq' Hv') at 2.
      apply nearest_proper; [lra | ring].
Qed.

(** Comparing a binary64 number with a literal that rounds downwards is
    comparing it with the number that the literal spells. *)
Lemma binary64_le_literal (x t : Q) :
  binary64 x == x -> binary64 t <= t -> (x <= binary64 t <-> x <= t).
Proof.
  intros Hx Ht. split; intros H.
  - by eapply Qle_trans.
  - rewrite <- Hx. by apply binary64_mono.
Qed.

End Floats.

(** ** The deception scorer *)

Section Scorer.

Import Py App Spec.

Local Open Scope Q_scope.

(** The score as a sum of seven terms, one for each test the function
    makes on the lowercased text. *)
Lemma analyze_message_terms (msg : list N) :
  let text := lower msg in
  analyze_message msg
  == (if existsb (fun hw => str_in hw text) hedge_words then 2 else 0)
     + (if (length (split_ws text) <? 4)%nat then 1 else 0)
     + (if str_in (lit "yes") text && str_in (lit "no") text then 2 else 0)
     + (if str_in (lit "never") text && str_in (lit "sometimes") text
        then 2 else 0)
     + (if str_in (lit "always") text && str_in (lit "not always") text
        then 2 else 0)
     + (if existsb (fun p => str_in p text) avoidance_phrases then 3 else 0)
     + (if str_in (lit "?") text then - (1 # 2) else 0).
Proof.
  unfold analyze_message. generalize (lower msg); intros text. cbn zeta.
  unfold contradiction_phrases. cbn [fold_left].
  destruct (existsb _ hedge_words), (length (split_ws text) <? 4)%nat,
    (str_in (lit "yes") text && str_in (lit "no") text),
    (str_in (lit "never") text && str_in (lit "sometimes") text),
    (str_in (lit "always") text && str_in (lit "not always") text),
    (existsb _ avoidance_phrases), (str_in (lit "?") text);
    vm_compute; reflexivity.
Qed.

(** C1.  For every message text, [analyze_message] lowercases the text and
    returns the sum of the five signals of the specification, computed on
    the lowercased text: +2 once if any hedge phrase occurs, +1 for fewer
    than 4 white-space separated tokens, +2 for each of the three
    contradiction pairs whose two phrases both occur, +3 if an avoidance
    phrase occurs, and -0.5 for a question mark. *)
Theorem analyze_message_five_signals (msg : list N) :
  analyze_message msg == five_signals (lower msg).
Proof.
  rewrite analyze_message_terms. cbn zeta.
  unfold five_signals, hedge_signal, short_signal, contradiction_signal,
    avoidance_signal, question_signal, complete_pairs, any_phrase.
  change [lit "idk"; lit "don't wanna say"; lit "prefer not to answer"]
    with avoidance_phrases.
  generalize (lower msg); intros text. cbn [List.filter].
  destruct (str_in (lit "yes") text && str_in (lit "no") text),
    (str_in (lit "never") text && str_in (lit "sometimes") text),
    (str_in (lit "always") text && str_in (lit "not always") text);
    cbn [length Z.of_nat]; unfold inject_Z; ring.
Qed.

(** The score is never below -0.5, and not below 0 without a question
    mark. *)
Lemma analyze_message_lower_bound (msg : list N) :
  - (1 # 2) <= analyze_message msg
  /\ (str_in (lit "?") (lower msg) = false -> 0 <= analyze_message msg).
Proof.
  rewrite analyze_message_terms. cbn zeta.
  split; [|intros ->];
    repeat match goal with
           | |- context [if ?b then _ else _] => destruct b
           end; vm_compute; discriminate.
Qed.

(** C8.  A text without a question mark does not score below -0.5 (it
    does not even score below 0), so the score can fall below -0.5 only
    when the text contains one; and a text in which none of the five signals
    is present scores exactly 0. *)
Theorem analyze_message_floor (T : list N) :
  (~ In 63%N T -> - (1 # 2) <= analyze_message T /\ 0 <= analyze_message T)
  /\ (no_signal (lower T) -> analyze_message T == 0).
Proof.
  split.
  - intros Hq. destruct (analyze_message_lower_bound T) as [Hlow Hzero].
    split; [exact Hlow|]. apply Hzero.
    rewrite question_mark_lower.
    destruct (str_in (lit "?") T) eqn:E; [|done].
    exfalso. apply Hq. by apply (str_in_singleton 63%N).
  - intros (Hh & Ht & Hc & Ha & Hq). rewrite analyze_message_terms. cbn zeta.
    unfold any_phrase in Hh, Ha. rewrite Hh, Ha, Hq.
    destruct (Nat.ltb_spec (length (split_ws (lower T))) 4); [lia|].
    unfold complete_pairs in Hc. cbn [List.filter] in Hc.
    destruct (str_in (lit "yes") (lower T) && str_in (lit "no") (lower T));
      [done|].
    destruct (str_in (lit "never") (lower T)
              && str_in (lit "sometimes") (lower T)); [done|].
    destruct (str_in (lit "always") (lower T)
              && str_in (lit "not always") (lower T)); [done|].
    vm_compute. reflexivity.
Qed.

Lemma analyze_message_floor_witness :
  (- (1 # 2) <= analyze_message (lit "the sky is clear today")
   /\ 0 <= analyze_message (lit "the sky is clear today"))
  /\ analyze_message (lit "the sky is clear today") == 0.
Proof.
  destruct (analyze_message_floor (lit "the sky is clear today")) as [H1 H2].
  split; [apply H1 | apply H2].
  - vm_compute. intuition discriminate.
  - vm_compute. repeat split; lia.
Defined.

(** The uppercase form of [sharp_s_word] contains the hedge word "possibly",
    the word itself does not. *)
Lemma analyze_message_upper_differs :
  ~ analyze_message (upper sharp_s_word) == analyze_message sharp_s_word.
Proof. vm_compute. discriminate. Qed.

(** C9, amended.  [analyze_message] depends on its input through the
    lowercased text only: two texts with the same lowercase form have the
    same score; the lowercased text scores as the text; and the uppercased
    text scores as the text when the text is ASCII. *)
Theorem analyze_message_case_insensitive (T T' : list N) :
  (lower T = lower T' -> analyze_message T = analyze_message T')
  /\ analyze_message (lower T) = analyze_message T
  /\ (is_ascii T -> analyze_message (upper T) = analyze_message T).
Proof.
  assert (Hdep : forall t t', lower t = lower t' ->
                              analyze_message t = analyze_message t').
  { intros t t' E. unfold analyze_message. by rewrite E. }
  split; [apply Hdep|]. split.
  - apply Hdep, lower_idempotent.
  - intros Ha. by apply Hdep, lower_upper_ascii.
Qed.

Lemma analyze_message_case_insensitive_witness :
  analyze_message (lit "MAYBE so") = analyze_message (lit "maybe SO")
  /\ analyze_message (upper (lit "Maybe so")) = analyze_message (lit "Maybe so").
Proof.
  destruct (analyze_message_case_insensitive (lit "MAYBE so") (lit "maybe SO"))
    as [H1 _].
  destruct (analyze_message_case_insensitive (lit "Maybe so") [])
    as (_ & _ & H3).
  split; [apply H1 | apply H3].
  - vm_compute. reflexivity.
  - unfold is_ascii. apply (bool_decide_unpack _). vm_compute. done.
Defined.

End Scorer.

(** ** Rock paper scissors *)

Section Minigame.

Import Py App Spec.

Lemma three_cases (n : nat) : (n mod 3 = 0 \/ n mod 3 = 1 \/ n mod 3 = 2)%nat.
Proof. pose proof (Nat.mod_upper_bound n 3). lia. Qed.

(** C6.  [rps_play] lowercases the choice.  Unless the lowered choice is
    one of "rock", "paper", "scissors" it returns the invalid-choice error
    and leaves the random generator as it was (no draw is made).  For a
    valid choice it makes one draw, and the result is "tie" exactly when
    the computer's move equals the player's, "win" exactly when the
    player's move beats the computer's under the cyclic rule, and "lose"
    exactly in the remaining cases. *)
Theorem rps_play_outcome (choice : list N) (g : rng) :
  let choices := [lit "rock"; lit "paper"; lit "scissors"] in
  (lower choice ∉ choices ->
   rps_play choice g
   = (RpsError (lit "Invalid choice. Choose rock, paper, or scissors."), g))
  /\ (lower choice ∈ choices ->
      exists comp result,
        comp ∈ choices
        /\ rps_play choice g
           = (RpsPlayed (lower choice) comp result,
              {| source := source g; drawn := S (drawn g) |})
        /\ (result = lit "tie" <-> comp = lower choice)
        /\ (result = lit "win" <-> beats (lower choice) comp)
        /\ (result = lit "lose" <->
            comp <> lower choice /\ ~ beats (lower choice) comp)).
Proof.
  intros choices. unfold rps_play. fold choices. split.
  - intros Hn. by rewrite bool_decide_eq_false_2.
  - intros Hin. rewrite bool_decide_eq_true_2 by done.
    unfold randbelow. cbn [negb length choices].
    set (n := (source g (drawn g) mod 3)%nat).
    assert (Hn : (n = 0 \/ n = 1 \/ n = 2)%nat) by apply three_cases.
    assert (Hp : lower choice = lit "rock" \/ lower choice = lit "paper"
                 \/ lower choice = lit "scissors").
    { unfold choices in Hin. rewrite !elem_of_cons, elem_of_nil in Hin.
      tauto. }
    clearbody n. clear Hin.
    exists (nth n choices []). eexists.
    split; [|split; [reflexivity|]].
    + unfold choices. rewrite !elem_of_cons.
      destruct Hn as [-> | [-> | ->]]; cbn [nth]; tauto.
    + unfold beats, iff, not.
      destruct Hn as [-> | [-> | ->]], Hp as [-> | [-> | ->]];
        apply (bool_decide_unpack _); vm_compute; exact I.
Qed.

Lemma rps_play_outcome_witness :
  rps_play (lit "banana") {| source := fun _ => 2%nat; drawn := 0 |}
  = (RpsError (lit "Invalid choice. Choose rock, paper, or scissors."),
     {| source := fun _ => 2%nat; drawn := 0 |})
  /\ exists comp result,
       rps_play (lit "Rock") {| source := fun _ => 2%nat; drawn := 0 |}
       = (RpsPlayed (lit "rock") comp result,
          {| source := fun _ => 2%nat; drawn := 1 |}).
Proof.
  destruct (rps_play_outcome (lit "banana")
              {| source := fun _ => 2%nat; drawn := 0 |}) as [H1 _].
  destruct (rps_play_outcome (lit "Rock")
              {| source := fun _ => 2%nat; drawn := 0 |}) as [_ H2].
  split.
  - apply H1. apply (bool_decide_unpack _). vm_compute. done.
  - destruct H2 as (comp & result & _ & E & _).
    + apply (bool_decide_unpack _). vm_compute. done.
    + exists comp, result. exact E.
Defined.

End Minigame.

(** ** Topic summarizer *)

Section Summarizer.

Import Py App Spec.

(** [str.split] with a separator never returns an empty list. *)
Lemma split_from_nonempty (sep : list N) (skip : nat) (cur t : list N) :
  split_from sep skip cur t <> [].
Proof.
  revert skip cur. induction t as [|c t IH]; intros skip cur; cbn; [done|].
  destruct skip; [|apply IH]. destruct (startswith sep (c :: t)); [done|].
  apply IH.
Qed.

(** On a successful fetch the summary is the first three segments of the
    joined paragraphs, rejoined and closed by a period; the branch that
    returns "No summary available." is never taken. *)
Lemma get_wiki_intro_success (fetch : list N -> Z * list (list N))
    (topic : list N) (paragraphs : list (list N)) :
  fetch (lit "https://simple.wikipedia.org/wiki/" ++ underscores topic)
  = (200%Z, paragraphs) ->
  get_wiki_intro fetch topic
  = join (lit ". ")
      (take 3 (split (lit ". ")
         (join (lit " ")
            (List.filter
               (fun p => match strip p with [] => false | _ :: _ => true end)
               paragraphs))))
    ++ lit ".".
Proof.
  intros E. unfold get_wiki_intro. rewrite E. cbn [Z.eqb Pos.eqb negb].
  destruct (split _ _) eqn:Es; [|done].
  by apply split_from_nonempty in Es.
Qed.

(** Whenever no paragraph of a page fetched with success has text, the
    summary is ".". *)
Lemma get_wiki_intro_no_text (fetch : list N -> Z * list (list N))
    (topic : list N) (paragraphs : list (list N)) :
  fetch (lit "https://simple.wikipedia.org/wiki/" ++ underscores topic)
  = (200%Z, paragraphs) ->
  Forall (fun p => strip p = []) paragraphs ->
  get_wiki_intro fetch topic = lit ".".
Proof.
  intros E Hblank. rewrite (get_wiki_intro_success _ _ _ E).
  replace (List.filter _ paragraphs) with (@nil (list N)); [reflexivity|].
  clear E. induction Hblank as [|p ps Hp _ IH]; [done|].
  cbn [List.filter]. rewrite Hp. exact IH.
Qed.

(** C5 (failing input).  For a page fetched with success in which no
    paragraph text is found, the joined text is empty and [get_wiki_intro]
    returns "." rather than "No summary available.". *)
Theorem get_wiki_intro_empty_page :
  get_wiki_intro empty_page (lit "Moon") = lit "."
  /\ get_wiki_intro empty_page (lit "Moon") <> lit "No summary available.".
Proof. split; [vm_compute; reflexivity | vm_compute; discriminate]. Qed.

End Summarizer.

(** ** The [/lie-detector] route *)

Section LieDetector.

Import Py Float App Spec.

Local Open Scope Q_scope.

(** A [messages] field that is not a list yields the invalid-input text. *)
Lemma lie_detector_non_list (fields : list (list N * json)) (v : json) :
  fields_get (lit "messages") fields = Some v ->
  (forall items, v <> JList items) ->
  lie_detector (JObj fields)
  = Ok (Text (lit "Invalid input. Send a list of messages with speaker and message.")).
Proof.
  intros E Hv. unfold lie_detector, dict_get. rewrite E.
  destruct v; try reflexivity. by destruct (Hv items).
Qed.

(** A body that is not a JSON object has no [get]: the handler raises. *)
Lemma lie_detector_non_object (data : json) :
  (forall fields, data <> JObj fields) ->
  lie_detector data = Raise AttributeError.
Proof. intros Hd. destruct data; try reflexivity. by destruct (Hd fields). Qed.


(** *** Dictionaries keyed by speaker *)

Lemma key_eqb_str (k : key) (s : list N) :
  key_eqb k (KStr s) = true <-> k = KStr s.
Proof.
  destruct k; cbn; try (split; [discriminate | congruence]).
  rewrite bool_decide_eq_true. split; congruence.
Qed.

Lemma items_get_app {V} (k : key) (l1 l2 : list (key * V)) :
  items_get k (l1 ++ l2)
  = match items_get k l1 with
    | Some v => Some v
    | None => items_get k l2
    end.
Proof.
  induction l1 as [|[k' v] l1 IH]; cbn; [done|].
  by destruct (key_eqb k' k).
Qed.

Lemma items_get_alter {V} (f : V -> V) (s s' : list N)
    (items : list (key * V)) :
  items_get (KStr s) (items_alter f (KStr s') items)
  = if bool_decide (s' = s) then f <$> items_get (KStr s) items
    else items_get (KStr s) items.
Proof.
  induction items as [|[k v] items IH]; cbn; [by case_bool_decide|].
  destruct (key_eqb k (KStr s')) eqn:E1.
  - apply key_eqb_str in E1 as ->. cbn [items_get key_eqb].
    by case_bool_decide.
  - cbn [items_get]. destruct (key_eqb k (KStr s)) eqn:E2.
    + apply key_eqb_str in E2 as ->. cbn in E1.
      apply bool_decide_eq_false in E1.
      rewrite bool_decide_eq_false_2 by congruence. done.
    + apply IH.
Qed.

Lemma items_alter_nonempty (x : Q) (k : key) (items : list (key * list Q)) :
  Forall (fun kv => kv.2 <> []) items ->
  Forall (fun kv => kv.2 <> [])
    (items_alter (fun vals => vals ++ [x]) k items).
Proof.
  induction 1 as [|[k' v] items Hv Hrest IH]; cbn; [constructor|].
  destruct (key_eqb k' k); constructor; cbn; try done.
  by destruct v.
Qed.

Lemma key_eqb_refl (k : key) : key_eqb k k = true.
Proof.
  destruct k; cbn; [done | apply Qeq_bool_refl | by apply bool_decide_eq_true_2].
Qed.

Lemma items_alter_fresh (x : Q) (k : key) (items : list (key * list Q)) :
  Forall (fun kv => kv.2 <> []) items ->
  items_get k items = None ->
  Forall (fun kv => kv.2 <> [])
    (items_alter (fun vals => vals ++ [x]) k (items ++ [(k, [])])).
Proof.
  induction 1 as [|[k' v] items Hv _ IH]; cbn.
  - intros _. rewrite key_eqb_refl. by repeat constructor.
  - destruct (key_eqb k' k); [done|]. intros E.
    constructor; [done|]. by apply IH.
Qed.

(** *** The first loop: grouping the scores by speaker *)

Lemma score_entry_typed (scores : list (key * list Q)) (m : ChatMessage) :
  score_entry scores (entry_of m)
  = Ok (items_alter (fun vals => vals ++ [analyze_message (message m)])
          (KStr (speaker m))
          match items_get (KStr (speaker m)) scores with
          | None => scores ++ [(KStr (speaker m), [])]
          | Some _ => scores
          end).
Proof. reflexivity. Qed.

Lemma more_scores_app (old : option (list Q)) (l1 l2 : list Q) :
  more_scores (more_scores old l1) l2 = more_scores old (l1 ++ l2).
Proof.
  destruct old as [l|], l1 as [|x l1], l2 as [|y l2]; cbn;
    rewrite ?app_nil_r, <- ?app_assoc; done.
Qed.

Lemma scores_of_cons (s : list N) (m : ChatMessage) (msgs : list ChatMessage) :
  scores_of s (m :: msgs)
  = (if bool_decide (speaker m = s) then [analyze_message (message m)] else [])
    ++ scores_of s msgs.
Proof.
  unfold scores_of, messages_of. cbn [List.filter].
  by case_bool_decide.
Qed.

Lemma score_entries_typed (msgs : list ChatMessage) :
  forall scores : list (key * list Q),
    Forall (fun kv => kv.2 <> []) scores ->
    exists scores',
      score_entries scores (map entry_of msgs) = Ok scores'
      /\ Forall (fun kv => kv.2 <> []) scores'
      /\ forall s, items_get (KStr s) scores'
                   = more_scores (items_get (KStr s) scores) (scores_of s msgs).
Proof.
  induction msgs as [|m msgs IH]; intros scores Hne.
  - exists scores. repeat split; [done|]. intros s.
    change (scores_of s []) with (@nil Q).
    destruct (items_get (KStr s) scores) as [l|]; cbn; by rewrite ?app_nil_r.
  - cbn [map score_entries]. rewrite score_entry_typed.
    set (x := analyze_message (message m)).
    set (scores1 := items_alter _ _ _).
    assert (Hne1 : Forall (fun kv => kv.2 <> []) scores1).
    { unfold scores1. destruct (items_get (KStr (speaker m)) scores) eqn:E.
      - by apply items_alter_nonempty.
      - by apply items_alter_fresh. }
    assert (Hget1 : forall s,
               items_get (KStr s) scores1
               = more_scores (items_get (KStr s) scores)
                   (if bool_decide (speaker m = s) then [x] else [])).
    { intros s. unfold scores1. rewrite items_get_alter.
      case_bool_decide as Es.
      - subst s. destruct (items_get (KStr (speaker m)) scores) eqn:E.
        + by rewrite E.
        + rewrite items_get_app, E. cbn.
          by rewrite bool_decide_eq_true_2.
      - destruct (items_get (KStr (speaker m)) scores) eqn:E.
        + destruct (items_get (KStr s) scores); cbn; by rewrite ?app_nil_r.
        + rewrite items_get_app. cbn.
          rewrite bool_decide_eq_false_2 by done.
          destruct (items_get (KStr s) scores); cbn; by rewrite ?app_nil_r. }
    destruct (IH scores1 Hne1) as (scores' & Hrun & Hne' & Hget').
    exists scores'. unfold mbind, result_bind.
    split; [exact Hrun|]. split; [done|].
    intros s. by rewrite Hget', Hget1, more_scores_app, scores_of_cons.
Qed.

(** *** The second loop: average and verdict *)

Lemma summarize_items_total (items : list (key * list Q)) :
  Forall (fun kv => kv.2 <> []) items ->
  exists summary,
    summarize_items items = Ok summary
    /\ forall k, items_get k summary = items_get k items ≫= summary_of.
Proof.
  induction 1 as [|[k' vals] items Hv _ (summary & Hrun & Hget)].
  - by exists [].
  - cbn in Hv. destruct vals as [|v vals]; [done|].
    eexists. cbn [summarize_items]. rewrite Hrun. cbn. split; [reflexivity|].
    intros k. cbn. destruct (key_eqb k' k); [done|]. apply Hget.
Qed.

Lemma py_sum_from (vals : list Q) (acc : Q) :
  fold_left Qplus vals acc == acc + foldr Qplus 0 vals.
Proof.
  revert acc. induction vals as [|v vals IH]; intros acc; cbn; [ring|].
  rewrite IH. ring.
Qed.

(** The average is the mean of the values, rounded to binary64. *)
Lemma summarize_average (vals : list Q) (e : speaker_summary) :
  summarize vals = Ok e -> average_score e == binary64 (mean vals).
Proof.
  destruct vals as [|v vals]; [done|]. intros [= <-]. cbn [average_score].
  apply binary64_proper. unfold mean, py_sum.
  by rewrite py_sum_from, Qplus_0_l.
Qed.

(** A score is a binary64 number: the 128 sums of the seven terms are. *)
Lemma analyze_message_binary64 (msg : list N) :
  binary64 (analyze_message msg) == analyze_message msg.
Proof.
  pose proof (analyze_message_terms msg) as H. cbn zeta in H. rewrite H.
  repeat match goal with
         | |- context [if ?b then _ else _] => destruct b
         end; vm_compute; reflexivity.
Qed.

Lemma summarize_verdict (vals : list Q) (e : speaker_summary) :
  summarize vals = Ok e ->
  (12 # 10 < average_score e -> verdict e = lit "Highly Suspicious")
  /\ (1 # 2 < average_score e /\ average_score e <= 12 # 10 ->
      verdict e = lit "Suspicious")
  /\ (average_score e <= 1 # 2 -> verdict e = lit "Likely Truthful").
Proof.
  destruct vals as [|v vals]; [done|]. intros [= <-].
  cbn [average_score verdict].
  set (avg := binary64 (py_sum (v :: vals) / _)).
  assert (Hfix : binary64 avg == avg) by apply binary64_idempotent.
  assert (H1 : avg <= binary64 (12 # 10) <-> avg <= 12 # 10).
  { apply binary64_le_literal; [done|]. vm_compute. discriminate. }
  assert (H2 : avg <= binary64 (1 # 2) <-> avg <= 1 # 2).
  { apply binary64_le_literal; [done|]. vm_compute. discriminate. }
  rewrite <- Qle_bool_iff in H1, H2.
  destruct (Qle_bool avg (binary64 (12 # 10)));
    destruct (Qle_bool avg (binary64 (1 # 2))); cbn [negb];
    try (assert (avg <= 12 # 10) by (by apply H1));
    try (assert (avg <= 1 # 2) by (by apply H2));
    try (assert (~ avg <= 12 # 10) by (rewrite <- H1; congruence));
    try (assert (~ avg <= 1 # 2) by (rewrite <- H2; congruence));
    repeat split; intros; try done; exfalso; lra.
Qed.

(** *** Entries of any well-formed shape *)

Lemma score_entry_well_formed (scores : list (key * list Q)) (entry : json) :
  well_formed_entry entry ->
  Forall (fun kv => kv.2 <> []) scores ->
  exists scores',
    score_entry scores entry = Ok scores'
    /\ Forall (fun kv => kv.2 <> []) scores'.
Proof.
  destruct entry as [| | | | |fields]; try done.
  intros [[s Hs] [k Hk]] Hne. unfold score_entry, dict_get.
  unfold mbind at 1 2, result_bind. rewrite Hs.
  unfold analyze_message_any, mbind at 1, result_bind. rewrite Hk.
  unfold mbind, result_bind. eexists. split; [reflexivity|].
  destruct (items_get k scores) eqn:E.
  - by apply items_alter_nonempty.
  - by apply items_alter_fresh.
Qed.


(** *** The sorted reply *)

Lemma items_alter_keys {V} (f : V -> V) (k : key) (items : list (key * V)) :
  map fst (items_alter f k items) = map fst items.
Proof.
  induction items as [|[k' v] items IH]; [done|]. cbn [items_alter].
  destruct (key_eqb k' k); cbn [map fst]; [done | by rewrite IH].
Qed.

Lemma summarize_items_keys (items : list (key * list Q))
    (summary : list (key * speaker_summary)) :
  summarize_items items = Ok summary -> map fst summary = map fst items.
Proof.
  revert summary. induction items as [|[k vals] items IH]; intros summary.
  - by intros [= <-].
  - cbn [summarize_items]. unfold mbind, result_bind.
    destruct (summarize vals); [|done].
    destruct (summarize_items items) as [rest|]; [|done].
    intros [= <-]. cbn [map fst]. by rewrite (IH rest).
Qed.








(** Speakers of two kinds: an entry without speaker next to one with a
    string.  The analysis succeeds, and [jsonify] raises [TypeError]. *)
Lemma lie_detector_mixed_speakers :
  lie_detector two_entries_body = Raise TypeError.
Proof. vm_compute. reflexivity. Qed.

(** The mean of the scores 1, 1 and 2 is 4/3, which is not a binary64
    number: the average is the binary64 number next to it. *)
Lemma average_score_rounded :
  exists summary e,
    lie_detector_analysis (map entry_of uneven_conversation) = Ok summary
    /\ items_get (KStr (lit "ann")) summary = Some e
    /\ mean (scores_of (lit "ann") uneven_conversation) == 4 # 3
    /\ average_score e == 6004799503160661 # 4503599627370496
    /\ ~ average_score e == mean (scores_of (lit "ann") uneven_conversation).
Proof.
  eexists _, _. split; [vm_compute; reflexivity|].
  split; [vm_compute; reflexivity|].
  split; [vm_compute; reflexivity|].
  split; [vm_compute; reflexivity|]. vm_compute. discriminate.
Qed.

(** C3, amended.  For every list of chat messages, [lie_detector_analysis]
    returns a summary (no exception) in which every speaker of the input
    has an entry; the entry's [average_score] is the arithmetic mean of the
    scores of that speaker's messages as the division of floats gives it,
    that is, rounded to the nearest binary64 number, and is the mean itself
    when the mean is such a number.  Its verdict follows the strict
    thresholds on the average: above 1.2 "Highly Suspicious", above 0.5 and
    at most 1.2 "Suspicious", at most 0.5 "Likely Truthful" -- so a mean of
    exactly 1.2 gives "Suspicious" and a mean of exactly 0.5 "Likely
    Truthful".  For a speaker with a single message the average is that
    message's score.  A speaker absent from the input has no entry. *)
Theorem lie_detector_analysis_summary (msgs : list ChatMessage) :
  exists summary,
    lie_detector_analysis (map entry_of msgs) = Ok summary
    /\ (forall s, s ∈ map speaker msgs ->
          exists e,
            items_get (KStr s) summary = Some e
            /\ average_score e == binary64 (mean (scores_of s msgs))
            /\ (binary64 (mean (scores_of s msgs)) == mean (scores_of s msgs)
                -> average_score e == mean (scores_of s msgs))
            /\ (12 # 10 < average_score e ->
                verdict e = lit "Highly Suspicious")
            /\ (1 # 2 < average_score e /\ average_score e <= 12 # 10 ->
                verdict e = lit "Suspicious")
            /\ (average_score e <= 1 # 2 -> verdict e = lit "Likely Truthful")
            /\ (mean (scores_of s msgs) == 12 # 10 ->
                verdict e = lit "Suspicious")
            /\ (mean (scores_of s msgs) == 1 # 2 ->
                verdict e = lit "Likely Truthful")
            /\ (forall m, messages_of s msgs = [m] ->
                          average_score e == analyze_message (message m)))
    /\ (forall s, s ∉ map speaker msgs -> items_get (KStr s) summary = None).
Proof.
  destruct (score_entries_typed msgs [] (List.Forall_nil _))
    as (scores & Hrun & Hne & Hget).
  destruct (summarize_items_total scores Hne) as (summary & Hsum & Hlook).
  exists summary. unfold lie_detector_analysis. rewrite Hrun. cbn.
  split; [exact Hsum|]. split.
  - intros s Hs.
    assert (Hvals : scores_of s msgs <> []).
    { apply list_elem_of_fmap in Hs as (m & -> & Hm).
      apply list_elem_of_In in Hm. unfold scores_of, messages_of.
      intros E. apply map_eq_nil in E.
      assert (Hin : In m (List.filter
                 (fun m0 => bool_decide (speaker m0 = speaker m)) msgs)).
      { apply filter_In. split; [done|]. by apply bool_decide_eq_true_2. }
      by rewrite E in Hin. }
    specialize (Hlook (KStr s)). rewrite Hget in Hlook. cbn in Hlook.
    destruct (scores_of s msgs) as [|v vals] eqn:Ev; [done|].
    cbn [more_scores default app mbind option_bind] in Hlook.
    unfold summary_of in Hlook.
    destruct (summarize (v :: vals)) as [e|] eqn:Ee; [|done].
    exists e. split; [done|].
    pose proof (summarize_average _ _ Ee) as Havg.
    pose proof (summarize_verdict _ _ Ee) as (Hh & Hm & Hl).
    split; [done|]. split; [by intros <-|].
    split; [done|]. split; [done|]. split; [done|].
    split; [|split].
    + intros E. apply Hm. rewrite Havg, E. vm_compute.
      repeat split; discriminate.
    + intros E. apply Hl. rewrite Havg, E. vm_compute. discriminate.
    + intros m Hm1. rewrite Havg. unfold scores_of in Ev.
      rewrite Hm1 in Ev. cbn in Ev. injection Ev as <- <-.
      rewrite <- (analyze_message_binary64 (message m)) at 2.
      apply binary64_proper. unfold mean. cbn. field.
  - intros s Hs. rewrite Hlook, Hget. cbn.
    assert (Hvals : scores_of s msgs = []).
    { unfold scores_of, messages_of.
      destruct (List.filter _ msgs) as [|m l] eqn:E; [done|].
      assert (Hin : In m (m :: l)) by (by left).
      rewrite <- E in Hin. apply filter_In in Hin as [Hin Hsp].
      apply bool_decide_eq_true in Hsp. exfalso. apply Hs.
      apply list_elem_of_fmap. exists m. split; [done|].
      by apply list_elem_of_In. }
    by rewrite Hvals.
Qed.

Lemma lie_detector_analysis_summary_witness :
  exists summary e,
    lie_detector_analysis (map entry_of sample_conversation) = Ok summary
    /\ items_get (KStr (lit "alice")) summary = Some e
    /\ average_score e == mean (scores_of (lit "alice") sample_conversation)
    /\ verdict e = lit "Highly Suspicious".
Proof.
  destruct (lie_detector_analysis_summary sample_conversation)
    as (summary & Hrun & Hin & _).
  destruct (Hin (lit "alice")) as (e & He & Havg & Hmean & Hh & _).
  { apply (bool_decide_unpack _). vm_compute. exact I. }
  exists summary, e. split; [exact Hrun|]. split; [exact He|]. split.
  - apply Hmean. vm_compute. reflexivity.
  - apply Hh. rewrite Havg. vm_compute. reflexivity.
Defined.

End LieDetector.

(** ** The [/set-alarm] route *)

Section AlarmRoute.

Import Py App Spec.

Variable int_of_str : list N -> option Z.
Variable str_of_value : json -> list N.

(** A string is false exactly when it is empty. *)
Lemma truthy_str (s : list N) : truthy (JStr s) = false <-> s = [].
Proof. by destruct s. Qed.

(** C7.  If [minutes] does not coerce to a positive integer or [message] is
    empty (false, for a value that is not a string), [alarm] returns the
    invalid-input text and leaves the state as it was: no alarm thread is
    started and [alarms] is unchanged.  Otherwise it returns the
    confirmation text at once, having started one alarm thread; [alarms] is
    still unchanged when it returns. *)
Theorem alarm_validation (data : json) (w : world) :
  ((forall z, minutes_of int_of_str data = Some z -> (z <= 0)%Z)
   \/ truthy (message_of data) = false ->
   alarm int_of_str str_of_value data w
   = (lit "Invalid input. Provide positive minutes and a message.", w))
  /\ (forall z,
        minutes_of int_of_str data = Some z -> (0 < z)%Z ->
        truthy (message_of data) = true ->
        alarm int_of_str str_of_value data w
        = (lit "Alarm set for " ++ str_of_int z
           ++ lit " minutes from now with message: '"
           ++ format_value str_of_value (message_of data) ++ lit "'",
           {| alarms := alarms w;
              threads := threads w ++ [(z, message_of data)] |})).
Proof.
  unfold alarm, alarm_inputs, minutes_of, message_of, dict_get.
  destruct data as [| | | | |fields];
    try (split; [reflexivity | intros z [=]]).
  unfold mbind, result_bind.
  destruct (py_int int_of_str _) as [z|e]; [|split; [reflexivity | by intros z [=]]].
  split.
  - intros [Hz | Hm].
    + specialize (Hz z eq_refl).
      destruct (Z.leb_spec z 0) as [_|Hgt]; [reflexivity | lia].
    + rewrite Hm, orb_true_r. reflexivity.
  - intros z' [= <-] Hz Hm. rewrite Hm.
    destruct (Z.leb_spec z 0) as [Hle|_]; [lia | reflexivity].
Qed.

End AlarmRoute.

Section AlarmExample.

Import Py App Spec.

Lemma alarm_validation_witness :
  alarm (fun _ => None) (fun _ => []) tea_in_zero no_alarm
  = (lit "Invalid input. Provide positive minutes and a message.", no_alarm)
  /\ alarm (fun _ => None) (fun _ => []) tea_in_five no_alarm
     = (lit "Alarm set for 5 minutes from now with message: 'tea'",
        {| alarms := []; threads := [(5%Z, JStr (lit "tea"))] |}).
Proof.
  destruct (alarm_validation (fun _ => None) (fun _ => []) tea_in_zero no_alarm)
    as [H1 _].
  destruct (alarm_validation (fun _ => None) (fun _ => []) tea_in_five no_alarm)
    as [_ H2].
  split.
  - apply H1. left. intros z [= <-]. done.
  - apply (H2 5%Z); [reflexivity | lia | reflexivity].
Defined.

End AlarmExample.



(** ** The sequence matcher *)

Section Matcher.

Import Py Difflib Invariants.

(** *** The index [b2j] *)

Lemma elem_of_positions (c : N) (b : list N) :
  forall i j, j ∈ positions c i b <-> i <= j /\ b !! (j - i) = Some c.
Proof.
  induction b as [|x b IH]; intros i j; cbn [positions].
  - rewrite elem_of_nil, lookup_nil. split; [done | by intros [_ [=]]].
  - rewrite elem_of_app, IH. destruct (N.eqb_spec x c) as [->|Hne].
    + rewrite list_elem_of_singleton. split.
      * intros [-> | [Hle Hj]]; [by rewrite Nat.sub_diag|].
        split; [lia|]. by replace (j - i) with (S (j - S i)) by lia.
      * intros [Hle Hj]. destruct (decide (j = i)) as [->|]; [by left|].
        right. split; [lia|].
        by replace (j - i) with (S (j - S i)) in Hj by lia.
    + rewrite elem_of_nil. split.
      * intros [[] | [Hle Hj]].
        split; [lia|]. by replace (j - i) with (S (j - S i)) by lia.
      * intros [Hle Hj]. right.
        destruct (decide (j = i)) as [->|].
        { rewrite Nat.sub_diag in Hj. cbn in Hj. congruence. }
        split; [lia|].
        by replace (j - i) with (S (j - S i)) in Hj by lia.
Qed.

Lemma index_elt_lookup (b2j : gmap N (list nat)) (i : nat) (x c : N) :
  index_elt b2j i x !! c
  = if N.eqb x c then Some (default [] (b2j !! c) ++ [i]) else b2j !! c.
Proof.
  unfold index_elt. destruct (N.eqb_spec x c) as [->|Hne].
  - by rewrite lookup_insert_eq.
  - by rewrite lookup_insert_ne.
Qed.

Lemma index_from_lookup (c : N) (b : list N) :
  forall (b2j : gmap N (list nat)) (i : nat),
    index_from b2j i b !! c
    = match positions c i b with
      | [] => b2j !! c
      | ps => Some (default [] (b2j !! c) ++ ps)
      end.
Proof.
  induction b as [|x b IH]; intros b2j i; cbn [index_from positions]; [done|].
  rewrite IH, index_elt_lookup.
  destruct (N.eqb x c); cbn [app].
  - destruct (positions c (S i) b); cbn; [done|].
    by rewrite <- app_assoc.
  - done.
Qed.

(** The index built by [__chain_b] lists, for every element it keeps, all
    the indices of [b] that hold the element, in increasing order. *)
Lemma chain_b_lookup (b : list N) (c : N) (js : list nat) :
  chain_b b !! c = Some js -> js = positions c 0 b /\ js <> [].
Proof.
  unfold chain_b.
  assert (H0 : forall js, index_from ∅ 0 b !! c = Some js ->
                          js = positions c 0 b /\ js <> []).
  { intros js'. rewrite index_from_lookup, lookup_empty.
    destruct (positions c 0 b); [done|]. by intros [= <-]. }
  destruct (200 <=? length b); [|apply H0].
  intros [Hl _]%map_lookup_filter_Some. by apply H0.
Qed.

Lemma chain_b_sound (b : list N) : b2j_sound b (chain_b b).
Proof.
  intros c js j [-> _]%chain_b_lookup [_ Hj]%elem_of_positions.
  by rewrite Nat.sub_0_r in Hj.
Qed.

(** *** [find_longest_match] returns a matching block of its region *)

Lemma same_at_hit (a b : list N) (i j : nat) (c : N) :
  a !! i = Some c -> b !! j = Some c -> same_at a b i j = true.
Proof. unfold same_at. intros -> ->. apply N.eqb_refl. Qed.

Lemma matched_nil (a b : list N) (i j : nat) : matched a b i j 0.
Proof. intros d Hd. lia. Qed.

Lemma matched_grow (a b : list N) (i j v : nat) :
  same_at a b (i + v) (j + v) = true ->
  matched a b i j v -> matched a b i j (S v).
Proof.
  intros Hlast Hm d Hd. destruct (decide (d = v)) as [->|]; [done|].
  apply Hm. lia.
Qed.

Lemma scan_row_good (a b : list N) (alo ahi blo bhi i : nat) (c : N)
    (j2len : gmap nat nat) (js : list nat) :
  alo <= i -> i < ahi -> a !! i = Some c ->
  Forall (fun j => b !! j = Some c) js ->
  row_ok a b alo blo bhi i j2len ->
  forall newj2len best,
    row_ok a b alo blo bhi (S i) newj2len ->
    good a b alo ahi blo bhi best ->
    row_ok a b alo blo bhi (S i)
      (scan_row blo bhi i j2len js newj2len best).1
    /\ good a b alo ahi blo bhi
         (scan_row blo bhi i j2len js newj2len best).2.
Proof.
  intros Hlo Hhi Hc Hjs Hprev.
  induction Hjs as [|j js Hj _ IH]; intros new best Hnew Hbest;
    cbn [scan_row]; [done|].
  destruct (Nat.ltb_spec j blo) as [|Hblo]; [by apply IH|].
  destruct (Nat.leb_spec bhi j) as [|Hbhi]; [done|].
  set (prev := match j with O => 0 | S j' => default 0 (j2len !! j') end).
  assert (Hk : prev <= i - alo /\ prev <= j - blo
               /\ matched a b (i - prev) (j - prev) prev).
  { unfold prev. destruct j as [|j'].
    { split; [lia|]. split; [lia | apply matched_nil]. }
    destruct (j2len !! j') as [v|] eqn:E; unfold default; cbn [from_option id].
    - destruct (Hprev _ _ E) as (? & ? & ? & ? & ? & Hm).
      split; [lia|]. split; [lia|].
      by replace (S j' - v) with (j' + 1 - v) by lia.
    - split; [lia|]. split; [lia | apply matched_nil]. }
  destruct Hk as (Hki & Hkj & Hm).
  assert (Hm' : matched a b (S i - S prev) (j + 1 - S prev) (S prev)).
  { replace (S i - S prev) with (i - prev) by lia.
    replace (j + 1 - S prev) with (j - prev) by lia.
    apply matched_grow; [|done].
    replace (i - prev + prev) with i by lia.
    replace (j - prev + prev) with j by lia.
    by apply (same_at_hit _ _ _ _ c). }
  apply IH.
  - intros j0 v. rewrite lookup_insert. case_decide as E.
    + subst j0. intros [= <-].
      split; [lia|]. split; [lia|]. split; [lia|]. split; [lia|].
      split; [lia | done].
    + apply Hnew.
  - destruct (Nat.ltb_spec best.2 (S prev)); [|done].
    unfold good. cbn [fst snd].
    replace (i + 1 - S prev) with (S i - S prev) by lia.
    split; [lia|]. split; [lia|]. split; [lia|]. split; [lia | done].
Qed.

Lemma row_ok_empty (a b : list N) (alo blo bhi i : nat) :
  row_ok a b alo blo bhi i ∅.
Proof. intros j v. by rewrite lookup_empty. Qed.

Lemma scan_rows_good (a b : list N) (b2j : gmap N (list nat))
    (alo ahi blo bhi : nat) :
  b2j_sound b b2j ->
  forall n i j2len best,
    alo <= i -> i + n <= ahi ->
    row_ok a b alo blo bhi i j2len ->
    good a b alo ahi blo bhi best ->
    good a b alo ahi blo bhi
      (scan_rows a b2j blo bhi (seq i n) j2len best).
Proof.
  intros Hsound. induction n as [|n IH]; intros i j2len best Hlo Hhi Hrow Hbest;
    cbn [seq scan_rows]; [done|].
  destruct (a !! i) as [c|] eqn:Ec.
  - assert (Hjs : Forall (fun j => b !! j = Some c) (default [] (b2j !! c))).
    { apply Forall_forall. intros j Hj.
      destruct (b2j !! c) as [js|] eqn:Ej; [|by apply elem_of_nil in Hj].
      by apply (Hsound c js). }
    assert (Hi : i < ahi) by lia.
    destruct (scan_row_good a b alo ahi blo bhi i c j2len _ Hlo Hi Ec Hjs Hrow
                ∅ best (row_ok_empty _ _ _ _ _ _) Hbest) as [Hnew Hbest'].
    destruct (scan_row _ _ _ _ _ _ _) as [new best'].
    apply IH; [lia | lia | exact Hnew | exact Hbest'].
  - cbn [scan_row]. apply IH; [lia | lia | apply row_ok_empty | done].
Qed.

Lemma same_at_lookup (a b : list N) (i j : nat) :
  same_at a b i j = true <-> exists c, a !! i = Some c /\ b !! j = Some c.
Proof.
  unfold same_at. destruct (a !! i) as [x|], (b !! j) as [y|];
    try (split; [discriminate | by intros (c & ? & ?)]).
  rewrite N.eqb_eq. split; [intros ->; eauto | by intros (c & [= ->] & [= ->])].
Qed.

Lemma extend_left_good (a b : list N) (alo ahi blo bhi : nat) :
  forall besti bestj bestsize,
    good a b alo ahi blo bhi (besti, bestj, bestsize) ->
    good a b alo ahi blo bhi (extend_left a b alo blo besti bestj bestsize).
Proof.
  induction besti as [|i' IH]; intros bestj bestsize Hg; [done|].
  cbn [extend_left]. destruct bestj as [|j']; [done|].
  destruct (Nat.ltb_spec alo (S i')) as [Hi|]; [|done].
  destruct (Nat.ltb_spec blo (S j')) as [Hj|]; [|done].
  destruct (same_at a b i' j') eqn:Es; [|done]. cbn [andb].
  destruct Hg as (? & ? & ? & ? & Hm). cbn [fst snd] in *.
  apply IH. unfold good. cbn [fst snd].
  split; [lia|]. split; [lia|]. split; [lia|]. split; [lia|].
  intros d Hd. destruct d as [|d]; [by rewrite !Nat.add_0_r|].
  replace (i' + S d) with (S i' + d) by lia.
  replace (j' + S d) with (S j' + d) by lia. apply Hm. lia.
Qed.

Lemma extend_right_good (a b : list N) (alo ahi blo bhi besti bestj : nat) :
  forall gap bestsize,
    gap = ahi - (besti + bestsize) ->
    good a b alo ahi blo bhi (besti, bestj, bestsize) ->
    good a b alo ahi blo bhi (extend_right a b bhi besti bestj bestsize gap).
Proof.
  induction gap as [|gap IH]; intros bestsize Hgap Hg; [done|].
  cbn [extend_right].
  destruct (Nat.ltb_spec (bestj + bestsize) bhi) as [Hj|]; [|done].
  destruct (same_at a b _ _) eqn:Es; [|done]. cbn [andb].
  destruct Hg as (? & ? & ? & ? & Hm). cbn [fst snd] in *.
  apply IH; [lia|]. unfold good. cbn [fst snd].
  split; [lia|]. split; [lia|]. split; [lia|]. split; [lia|].
  by apply matched_grow.
Qed.

Lemma find_longest_match_good (a b : list N) (b2j : gmap N (list nat))
    (alo ahi blo bhi : nat) :
  b2j_sound b b2j -> alo <= ahi -> blo <= bhi ->
  good a b alo ahi blo bhi (find_longest_match a b b2j alo ahi blo bhi).
Proof.
  intros Hsound Ha Hb. unfold find_longest_match.
  pose proof (scan_rows_good a b b2j alo ahi blo bhi Hsound (ahi - alo) alo ∅
                (alo, blo, 0)) as Hscan.
  destruct (scan_rows _ _ _ _ _ _ _) as [[bi bj] bs].
  assert (Hg : good a b alo ahi blo bhi (bi, bj, bs)).
  { apply Hscan; [lia | lia | apply row_ok_empty|].
    unfold good. cbn [fst snd].
    split; [lia|]. split; [lia|]. split; [lia|]. split; [lia|].
    apply matched_nil. }
  apply (extend_left_good a b alo ahi blo bhi) in Hg.
  destruct (extend_left _ _ _ _ _ _ _) as [[bi' bj'] bs'].
  by apply (extend_right_good a b alo ahi blo bhi).
Qed.

(** *** Slices and common elements *)

Lemma slice_split (l : list N) (lo mid hi : nat) :
  lo <= mid -> mid <= hi ->
  slice l lo hi = slice l lo mid ++ slice l mid hi.
Proof.
  intros H1 H2. unfold slice.
  replace (hi - lo) with ((mid - lo) + (hi - mid)) by lia.
  rewrite <- take_take_drop, drop_drop. do 3 f_equal. lia.
Qed.

Lemma slice_length (l : list N) (lo hi : nat) :
  hi <= length l -> length (slice l lo hi) = hi - lo.
Proof. intros H. unfold slice. rewrite length_take, length_drop. lia. Qed.

Lemma slice_all (l : list N) : slice l 0 (length l) = l.
Proof. unfold slice. by rewrite Nat.sub_0_r, drop_0, firstn_all. Qed.

Lemma matched_slice (a b : list N) (i j k : nat) :
  matched a b i j k -> slice a i (i + k) = slice b j (j + k).
Proof.
  intros Hm. unfold slice. apply list_eq. intros d.
  replace (i + k - i) with k by lia. replace (j + k - j) with k by lia.
  destruct (decide (d < k)) as [Hd|Hd].
  - rewrite !lookup_take_lt, !lookup_drop by done.
    pose proof (Hm d Hd) as Hd'.
    apply same_at_lookup in Hd' as (c & -> & ->). done.
  - by rewrite !lookup_take_ge by lia.
Qed.

Lemma size_list_to_set_disj (l : list N) :
  size (list_to_set_disj l : gmultiset N) = length l.
Proof.
  induction l as [|x l IH]; [done|].
  rewrite list_to_set_disj_cons, gmultiset_size_disj_union,
    gmultiset_size_singleton, IH. done.
Qed.

Lemma common_le (s t : list N) :
  common s t <= length s /\ common s t <= length t.
Proof.
  unfold common. rewrite <- (size_list_to_set_disj s), <- (size_list_to_set_disj t).
  split; apply gmultiset_subseteq_size; multiset_solver.
Qed.

Lemma common_self (s : list N) : common s s = length s.
Proof.
  unfold common. rewrite <- (size_list_to_set_disj s). f_equal. multiset_solver.
Qed.

(** Common elements add up over a cut of both strings around a shared
    middle part. *)
Lemma common_three (s1 s2 t1 t2 m : list N) :
  common s1 t1 + length m + common s2 t2
  <= common (s1 ++ m ++ s2) (t1 ++ m ++ t2).
Proof.
  unfold common. rewrite <- (size_list_to_set_disj m).
  rewrite <- !gmultiset_size_disj_union, !list_to_set_disj_app.
  apply gmultiset_subseteq_size. multiset_solver.
Qed.

(** *** The loop of [get_matching_blocks] *)

Lemma queue_cost_cons (r : nat * nat * nat * nat)
    (queue : list (nat * nat * nat * nat)) :
  queue_cost (r :: queue) = S (2 * (r.1.1.2 - r.1.1.1)) + queue_cost queue.
Proof. by destruct r as [[[alo ahi] blo] bhi]. Qed.

Lemma queue_common_cons (a b : list N) (r : nat * nat * nat * nat)
    (queue : list (nat * nat * nat * nat)) :
  queue_common a b (r :: queue)
  = common (slice a r.1.1.1 r.1.1.2) (slice b r.1.2 r.2)
    + queue_common a b queue.
Proof. by destruct r as [[[alo ahi] blo] bhi]. Qed.

Lemma block_sizes_snoc (blocks : list (nat * nat * nat)) (m : nat * nat * nat) :
  block_sizes (blocks ++ [m]) = block_sizes blocks + m.2.
Proof.
  unfold block_sizes. rewrite sum_list_with_app. cbn. lia.
Qed.

(** What a block leaves of its region: the two regions around it hold
    together at most what the region held, less the block. *)
Lemma common_around (a b : list N) (alo ahi blo bhi i j k : nat) :
  ahi <= length a -> bhi <= length b ->
  good a b alo ahi blo bhi (i, j, k) ->
  common (slice a alo i) (slice b blo j) + k
  + common (slice a (i + k) ahi) (slice b (j + k) bhi)
  <= common (slice a alo ahi) (slice b blo bhi).
Proof.
  intros Ha Hb (Hi & Hik & Hj & Hjk & Hm). cbn [fst snd] in *.
  rewrite (slice_split a alo i ahi), (slice_split a i (i + k) ahi) by lia.
  rewrite (slice_split b blo j bhi), (slice_split b j (j + k) bhi) by lia.
  rewrite <- (matched_slice a b i j k Hm).
  replace k with (length (slice a i (i + k))) at 1
    by (rewrite slice_length; lia).
  apply common_three.
Qed.

(** The loop ends within its fuel, and what it adds to the blocks is bounded
    by the elements the queued regions have in common. *)
Lemma blocks_loop_spec (a b : list N) (b2j : gmap N (list nat)) :
  b2j_sound b b2j ->
  forall fuel queue acc,
    Forall (region_ok (length a) (length b)) queue ->
    queue_cost queue <= fuel ->
    exists blocks,
      blocks_loop fuel a b b2j queue acc = Some blocks
      /\ block_sizes blocks <= block_sizes acc + queue_common a b queue.
Proof.
  intros Hsound. induction fuel as [|fuel IH]; intros queue acc Hq Hcost.
  - destruct queue as [|r queue]; [exists acc; split; [done | lia]|].
    rewrite queue_cost_cons in Hcost. lia.
  - destruct queue as [|[[[alo ahi] blo] bhi] queue];
      [exists acc; split; [done | lia]|].
    apply Forall_cons in Hq as [[[Ha1 Ha2] [Hb1 Hb2]] Hq].
    rewrite queue_cost_cons in Hcost. cbn [fst snd] in Hcost.
    rewrite queue_common_cons. cbn [fst snd blocks_loop].
    pose proof (find_longest_match_good a b b2j alo ahi blo bhi Hsound Ha1 Hb1)
      as Hgood.
    destruct (find_longest_match a b b2j alo ahi blo bhi) as [[i j] k].
    pose proof (common_around a b alo ahi blo bhi i j k Ha2 Hb2 Hgood) as Hc.
    destruct Hgood as (Hi & Hik & Hj & Hjk & _). cbn [fst snd] in *.
    destruct k as [|k].
    { destruct (IH queue acc Hq ltac:(lia)) as (blocks & -> & Hle).
      exists blocks. split; [done | lia]. }
    set (lpush := (alo <? i) && (blo <? j)).
    set (rpush := (i + S k <? ahi) && (j + S k <? bhi)).
    set (q1 := if lpush then (alo, i, blo, j) :: queue else queue).
    set (q2 := if rpush then (i + S k, ahi, j + S k, bhi) :: q1 else q1).
    assert (Hq2 : Forall (region_ok (length a) (length b)) q2).
    { unfold q2, q1.
      destruct lpush, rpush; repeat (constructor; [cbn; lia|]); done. }
    assert (Hcost2 : queue_cost q2 <= fuel).
    { unfold q2, q1. destruct lpush, rpush;
        rewrite ?queue_cost_cons; cbn [fst snd]; lia. }
    assert (Hcommon2 : queue_common a b q2
                       <= common (slice a alo i) (slice b blo j)
                          + common (slice a (i + S k) ahi) (slice b (j + S k) bhi)
                          + queue_common a b queue).
    { unfold q2, q1. destruct lpush, rpush;
        rewrite ?queue_common_cons; cbn [fst snd]; lia. }
    destruct (IH q2 (acc ++ [(i, j, S k)]) Hq2 Hcost2) as (blocks & -> & Hle).
    exists blocks. split; [done|].
    rewrite block_sizes_snoc in Hle. cbn [snd] in Hle. lia.
Qed.

Lemma queue_initial (a b : list N) :
  Forall (region_ok (length a) (length b)) [(0, length a, 0, length b)]
  /\ queue_cost [(0, length a, 0, length b)] <= S (2 * length a)
  /\ queue_common a b [(0, length a, 0, length b)] = common a b.
Proof.
  split; [repeat constructor; lia|]. split; [cbn; lia|].
  rewrite queue_common_cons. cbn [fst snd queue_common sum_list_with].
  rewrite !slice_all. lia.
Qed.

(** [2 * len(a) + 1] iterations are enough for the loop. *)
Lemma blocks_loop_total (a b : list N) :
  is_Some (blocks_loop (S (2 * length a)) a b (chain_b b)
             [(0, length a, 0, length b)] []).
Proof.
  destruct (queue_initial a b) as (Hq & Hcost & _).
  destruct (blocks_loop_spec a b (chain_b b) (chain_b_sound b) _ _ [] Hq Hcost)
    as (blocks & -> & _).
  by eexists.
Qed.

(** *** Sorting and merging keep the total size of the blocks *)

Lemma insert_block_sizes (x : nat * nat * nat) (l : list (nat * nat * nat)) :
  block_sizes (insert_block x l) = x.2 + block_sizes l.
Proof.
  induction l as [|y l IH]; [done|]. cbn [insert_block].
  destruct (block_leb x y); [done|].
  unfold block_sizes in *. cbn [sum_list_with] in *. rewrite IH. lia.
Qed.

Lemma sort_blocks_sizes (l : list (nat * nat * nat)) :
  block_sizes (sort_blocks l) = block_sizes l.
Proof.
  induction l as [|x l IH]; [done|]. unfold sort_blocks in *. cbn [foldr].
  rewrite insert_block_sizes, IH. done.
Qed.

Lemma collapse_sizes (blocks : list (nat * nat * nat)) :
  forall i1 j1 k1,
    block_sizes (collapse i1 j1 k1 blocks) = k1 + block_sizes blocks.
Proof.
  induction blocks as [|[[i2 j2] k2] blocks IH]; intros i1 j1 k1;
    cbn [collapse].
  - destruct k1; cbn; lia.
  - unfold block_sizes in *. destruct (_ && _).
    + rewrite IH. cbn. lia.
    + rewrite sum_list_with_app, IH. destruct k1; cbn; lia.
Qed.

(** The matches of [ratio()] are the sizes of the blocks the loop finds. *)
Lemma matches_loop (a b : list N) (b2j : gmap N (list nat))
    (blocks : list (nat * nat * nat)) :
  blocks_loop (S (2 * length a)) a b b2j [(0, length a, 0, length b)] []
  = Some blocks ->
  matches a b b2j = block_sizes blocks.
Proof.
  intros E. unfold matches, get_matching_blocks. rewrite E.
  change (block_sizes (collapse 0 0 0 (sort_blocks blocks)
                       ++ [(length a, length b, 0)]) = block_sizes blocks).
  rewrite block_sizes_snoc, collapse_sizes, sort_blocks_sizes. cbn. lia.
Qed.

(** The matches are bounded by the elements the two strings have in common,
    hence by the length of each. *)
Lemma matches_le_common (a b : list N) :
  matches a b (chain_b b) <= common a b.
Proof.
  destruct (queue_initial a b) as (Hq & Hcost & Hcommon).
  destruct (blocks_loop_spec a b (chain_b b) (chain_b_sound b) _ _ [] Hq Hcost)
    as (blocks & E & Hle).
  rewrite (matches_loop _ _ _ _ E), Hcommon in *. cbn in Hle. lia.
Qed.

(** *** [quick_ratio] counts the common elements *)

Lemma fullbcount_from (c : N) (b : list N) :
  forall m : gmap N Z,
    default 0%Z
      (fold_left (fun m elt => <[elt := (default 0 (m !! elt) + 1)%Z]> m) b m
       !! c)
    = (default 0 (m !! c)
       + Z.of_nat (multiplicity c (list_to_set_disj b : gmultiset N)))%Z.
Proof.
  induction b as [|x b IH]; intros m; cbn [fold_left].
  - rewrite list_to_set_disj_nil, multiplicity_empty. lia.
  - rewrite IH, list_to_set_disj_cons, multiplicity_disj_union.
    destruct (decide (x = c)) as [->|Hne].
    + rewrite lookup_insert_eq, multiplicity_singleton_eq. cbn. lia.
    + rewrite lookup_insert_ne, multiplicity_singleton_ne by done. lia.
Qed.

Lemma fullbcount_lookup (c : N) (b : list N) :
  default 0%Z (fullbcount b !! c)
  = Z.of_nat (multiplicity c (list_to_set_disj b : gmultiset N)).
Proof. unfold fullbcount. by rewrite fullbcount_from, lookup_empty. Qed.

Lemma quick_fold (b : list N) (a : list N) :
  forall (P : gmultiset N) (avail : gmap N Z) (m : nat),
    (forall c,
        match avail !! c with
        | Some n => n
        | None => default 0%Z (fullbcount b !! c)
        end
        = (Z.of_nat (multiplicity c (list_to_set_disj b : gmultiset N))
           - Z.of_nat (multiplicity c P))%Z) ->
    m = size (P ∩ list_to_set_disj b) ->
    (fold_left (quick_step (fullbcount b)) a (avail, m)).2
    = size ((P ⊎ list_to_set_disj a) ∩ list_to_set_disj b).
Proof.
  set (B := list_to_set_disj b : gmultiset N).
  induction a as [|elt a IH]; intros P avail m Hav Hm; cbn [fold_left].
  - rewrite list_to_set_disj_nil. cbn. rewrite Hm. f_equal. multiset_solver.
  - unfold quick_step at 2. rewrite (Hav elt).
    set (numb := (Z.of_nat (multiplicity elt B) - Z.of_nat (multiplicity elt P))%Z).
    rewrite (IH (P ⊎ {[+ elt +]})).
    + f_equal. rewrite list_to_set_disj_cons. multiset_solver.
    + intros c. destruct (decide (elt = c)) as [->|Hne].
      * rewrite lookup_insert_eq, multiplicity_disj_union,
          multiplicity_singleton_eq. unfold numb. lia.
      * rewrite lookup_insert_ne, multiplicity_disj_union,
          multiplicity_singleton_ne by done. rewrite Hav. lia.
    + destruct (Z.ltb_spec 0 numb) as [Hpos|Hneg]; unfold numb in *.
      * assert (E : (P ⊎ {[+ elt +]}) ∩ B = (P ∩ B) ⊎ {[+ elt +]}).
        { apply gmultiset_eq. intros x.
          rewrite !multiplicity_intersection, !multiplicity_disj_union,
            !multiplicity_intersection, multiplicity_singleton.
          case_decide; [subst x|]; lia. }
        rewrite E, gmultiset_size_disj_union, gmultiset_size_singleton. lia.
      * rewrite Hm. f_equal. apply gmultiset_eq. intros x.
        rewrite !multiplicity_intersection, !multiplicity_disj_union,
          multiplicity_singleton.
        case_decide; [subst x|]; lia.
Qed.

Lemma quick_matches_common (a b : list N) : quick_matches a b = common a b.
Proof.
  unfold quick_matches, common.
  rewrite (quick_fold b a ∅ ∅ 0).
  - f_equal. multiset_solver.
  - intros c. rewrite lookup_empty, fullbcount_lookup, multiplicity_empty. lia.
  - symmetry. apply gmultiset_size_empty_iff. multiset_solver.
Qed.

(** *** The three ratios *)

Local Open Scope Q_scope.

Lemma calculate_ratio_mono (m1 m2 len : nat) :
  (m1 <= m2)%nat -> calculate_ratio m1 len <= calculate_ratio m2 len.
Proof.
  intros H. unfold calculate_ratio. destruct len; [apply Qle_refl|].
  unfold Qle. cbn [Qnum Qden]. nia.
Qed.

Lemma calculate_ratio_range (m len : nat) :
  (2 * m <= len)%nat -> 0 <= calculate_ratio m len <= 1.
Proof.
  intros H. unfold calculate_ratio. destruct len as [|len]; [done|].
  unfold Qle. cbn [Qnum Qden]. split; [lia|].
  rewrite Z.mul_1_r, Z.mul_1_l.
  replace (Z.pos (Pos.of_nat (S len))) with (Z.of_nat (S len)); [lia|].
  by rewrite <- Pos.of_nat_succ, Zpos_P_of_succ_nat, Nat2Z.inj_succ.
Qed.

(** [quick_ratio] and [real_quick_ratio] are upper bounds of [ratio], as
    their docstrings say. *)
Lemma ratio_le_quick_ratio (a b : list N) :
  ratio a b (chain_b b) <= quick_ratio a b.
Proof.
  apply calculate_ratio_mono. rewrite quick_matches_common.
  apply matches_le_common.
Qed.

Lemma quick_ratio_le_real (a b : list N) :
  quick_ratio a b <= real_quick_ratio a b.
Proof.
  apply calculate_ratio_mono. rewrite quick_matches_common.
  pose proof (common_le a b). lia.
Qed.

(** A ratio is a number between 0 and 1. *)
Lemma ratio_range (a b : list N) : 0 <= ratio a b (chain_b b) <= 1.
Proof.
  apply calculate_ratio_range.
  pose proof (matches_le_common a b). pose proof (common_le a b). lia.
Qed.

(** The test of [get_close_matches] is the test on [ratio] alone. *)
Lemma close_enough_ratio (word x : list N) (cutoff : Q) :
  close_enough word (chain_b word) cutoff x
  = Qle_bool cutoff (ratio x word (chain_b word)).
Proof.
  unfold close_enough.
  destruct (Qle_bool cutoff (ratio x word (chain_b word))) eqn:E;
    [|by rewrite andb_false_r].
  apply Qle_bool_iff in E.
  assert (E2 : cutoff <= quick_ratio x word)
    by (eapply Qle_trans; [exact E | apply ratio_le_quick_ratio]).
  assert (E3 : cutoff <= real_quick_ratio x word)
    by (eapply Qle_trans; [exact E2 | apply quick_ratio_le_real]).
  apply Qle_bool_iff in E2, E3. by rewrite E2, E3.
Qed.

Local Close Scope Q_scope.

(** *** A string matched against itself

    With [autojunk] the popular elements of a long string are missing from
    the index, and the first loop of [find_longest_match] may find only a
    part of the string; the block it finds is on the diagonal all the same,
    and the second and third loop extend it to the whole string. *)

Lemma positions_above (c : N) (b : list N) (i : nat) :
  Forall (fun j => i <= j) (positions c i b).
Proof. apply Forall_forall. by intros j [? _]%elem_of_positions. Qed.

Lemma positions_sorted (c : N) (b : list N) :
  forall i, StronglySorted lt (positions c i b).
Proof.
  induction b as [|x b IH]; intros i; cbn [positions]; [constructor|].
  destruct (N.eqb x c); cbn [app]; [|apply IH].
  constructor; [apply IH|].
  eapply Forall_impl; [apply (positions_above c b (S i))|]. cbn. lia.
Qed.

Lemma diag_run_le (b2j : gmap N (list nat)) (x : list N) (n : nat) :
  diag_run b2j x n <= n.
Proof.
  induction n as [|n IH]; cbn; [done|].
  destruct (x !! n) as [c|]; [|lia]. destruct (b2j !! c); lia.
Qed.

Lemma diag_run_step (b2j : gmap N (list nat)) (x : list N) (n : nat)
    (c : N) (js : list nat) :
  x !! n = Some c -> b2j !! c = Some js ->
  diag_run b2j x (S n) = S (diag_run b2j x n).
Proof. intros Hc Hjs. cbn. by rewrite Hc, Hjs. Qed.

Lemma prev_len_bound (b2j : gmap N (list nat)) (x : list N) (i j : nat)
    (j2len : gmap nat nat) :
  self_row b2j x i j2len ->
  prev_len j2len j <= diag_run b2j x (Nat.min i j).
Proof.
  intros [Hle _]. destruct j as [|j']; cbn; [lia|].
  destruct (j2len !! j') as [v|] eqn:E; cbn; [|lia]. by apply Hle.
Qed.

(** One row of the first loop. *)
Lemma scan_row_self (b2j : gmap N (list nat)) (x : list N) (i : nat) (c : N)
    (all : list nat) (j2len : gmap nat nat) :
  x !! i = Some c -> b2j !! c = Some all ->
  self_row b2j x i j2len ->
  forall js newj2len best,
    StronglySorted lt js ->
    Forall (fun j => x !! j = Some c) js ->
    (forall j v, newj2len !! j = Some v ->
                 v <= diag_run b2j x (Nat.min (S i) (S j))) ->
    best.1.1 = best.1.2 -> best.1.1 + best.2 <= S i ->
    (forall n, n <= i -> diag_run b2j x n <= best.2) ->
    (i ∈ js /\ newj2len !! i = None
     \/ Forall (fun j => i < j) js
        /\ newj2len !! i = Some (diag_run b2j x (S i))
        /\ diag_run b2j x (S i) <= best.2) ->
    self_row b2j x (S i)
      (scan_row 0 (length x) i j2len js newj2len best).1
    /\ self_best b2j x (S i)
         (scan_row 0 (length x) i j2len js newj2len best).2.
Proof.
  intros Hc Hall Hrow.
  assert (Hdi : diag_run b2j x (S i) = S (diag_run b2j x i))
    by (by eapply diag_run_step).
  induction js as [|j js IH];
    intros new best Hsorted Hjs Hnew Hdiag Hend Hruns Hphase; cbn [scan_row].
  - destruct Hphase as [[Hin _]|(_ & Hi & Hle)];
      [by apply elem_of_nil in Hin|].
    cbn [fst snd].
    split; [split; [done | by cbn; rewrite Hi]|].
    split; [done|]. split; [done|].
    intros n Hn. destruct (decide (n = S i)) as [->|]; [done|].
    apply Hruns. lia.
  - apply StronglySorted_inv in Hsorted as [Hsorted Hrest].
    apply Forall_cons in Hjs as [Hj Hjs].
    assert (Hjn : j < length x) by (by eapply lookup_lt_Some).
    destruct (Nat.ltb_spec j 0) as [|_]; [lia|].
    destruct (Nat.leb_spec (length x) j) as [|_]; [lia|].
    fold (prev_len j2len j).
    pose proof (prev_len_bound b2j x i j j2len Hrow) as Hprev.
    assert (Hdj : diag_run b2j x (S j) = S (diag_run b2j x j))
      by (by eapply diag_run_step).
    destruct (Nat.lt_trichotomy j i) as [Hlt | [-> | Hgt]].
    + (* before the diagonal: nothing longer than a run already met *)
      assert (Hk : S (prev_len j2len j) <= best.2).
      { specialize (Hruns (S j) ltac:(lia)).
        rewrite Nat.min_r in Hprev by lia. lia. }
      destruct (Nat.ltb_spec best.2 (S (prev_len j2len j))); [lia|].
      apply IH; try done.
      * intros j0 v. rewrite lookup_insert. case_decide as E; [|apply Hnew].
        subst j0. intros [= <-]. rewrite Nat.min_r, Hdj by lia.
        rewrite Nat.min_r in Hprev by lia. lia.
      * destruct Hphase as [[Hin Hnone]|(Hall' & _)].
        -- left. split; [|by rewrite lookup_insert_ne by lia].
           apply elem_of_cons in Hin as [->|Hin]; [lia | done].
        -- apply Forall_cons in Hall' as [? _]. lia.
    + (* on the diagonal *)
      destruct Hrow as [_ Hprevi]. rewrite Hprevi, <- Hdi.
      pose proof (diag_run_le b2j x (S i)) as Hle.
      assert (Hfresh : Forall (fun j => i < j) js) by done.
      apply IH; try done.
      * intros j0 v. rewrite lookup_insert. case_decide as E; [|apply Hnew].
        subst j0. intros [= <-]. by rewrite Nat.min_id.
      * by destruct (Nat.ltb_spec best.2 (diag_run b2j x (S i))).
      * destruct (Nat.ltb_spec best.2 (diag_run b2j x (S i)));
          cbn [fst snd]; lia.
      * intros n Hn. specialize (Hruns n Hn).
        destruct (Nat.ltb_spec best.2 (diag_run b2j x (S i)));
          cbn [fst snd]; lia.
      * right. split; [done|]. split; [by rewrite lookup_insert_eq|].
        destruct (Nat.ltb_spec best.2 (diag_run b2j x (S i))); cbn [fst snd];
          lia.
    + (* past the diagonal: the diagonal entry has been set *)
      destruct Hphase as [[Hin _]|(Hall' & Hi & Hle)].
      { apply elem_of_cons in Hin as [->|Hin]; [lia|].
        rewrite Forall_forall in Hrest. specialize (Hrest i Hin). lia. }
      assert (Hk : S (prev_len j2len j) <= best.2).
      { rewrite Nat.min_l in Hprev by lia. lia. }
      destruct (Nat.ltb_spec best.2 (S (prev_len j2len j))); [lia|].
      apply IH; try done.
      * intros j0 v. rewrite lookup_insert. case_decide as E; [|apply Hnew].
        subst j0. intros [= <-]. rewrite Nat.min_l by lia.
        rewrite Nat.min_l in Hprev by lia. lia.
      * right. split; [by apply Forall_cons in Hall' as [_ ?]|].
        split; [by rewrite lookup_insert_ne by lia | done].
Qed.


Lemma self_row_skip (b2j : gmap N (list nat)) (x : list N) (i : nat) (c : N) :
  x !! i = Some c -> b2j !! c = None -> self_row b2j x (S i) ∅.
Proof.
  intros Hc Hnone. split; [intros j v; by rewrite lookup_empty|].
  cbn. by rewrite Hc, Hnone, lookup_empty.
Qed.

(** The first loop, on a string matched against itself. *)
Lemma scan_rows_self (b2j : gmap N (list nat)) (x : list N) :
  (forall c js, b2j !! c = Some js -> js = positions c 0 x) ->
  forall m i j2len best,
    i + m = length x ->
    self_row b2j x i j2len ->
    self_best b2j x i best ->
    self_best b2j x (length x)
      (scan_rows x b2j 0 (length x) (seq i m) j2len best).
Proof.
  intros Hexact. induction m as [|m IH]; intros i j2len best Hlen Hrow Hbest;
    cbn [seq scan_rows].
  { by replace (length x) with i by lia. }
  destruct (lookup_lt_is_Some_2 x i ltac:(lia)) as [c Hc]. rewrite Hc.
  destruct Hbest as (Hdiag & Hend & Hruns).
  destruct (b2j !! c) as [js|] eqn:Ejs; cbn [default from_option id].
  - pose proof (Hexact c js Ejs) as ->.
    destruct (scan_row_self b2j x i c _ j2len Hc Ejs Hrow
                (positions c 0 x) ∅ best) as [Hrow' Hbest']; try done.
    + apply positions_sorted.
    + apply Forall_forall. intros j [_ Hj]%elem_of_positions.
      by rewrite Nat.sub_0_r in Hj.
    + lia.
    + left. split; [|done]. apply elem_of_positions.
      split; [lia|]. by rewrite Nat.sub_0_r.
    + destruct (scan_row _ _ _ _ _ _ _) as [new best'].
      apply IH; [lia | done | done].
  - unfold default. cbn [from_option scan_row]. apply IH; [lia | |].
    + by eapply self_row_skip.
    + split; [done|]. split; [lia|]. intros n Hn.
      destruct (decide (n = S i)) as [->|]; [|apply Hruns; lia].
      cbn. rewrite Hc, Ejs. lia.
Qed.

Lemma same_at_self (x : list N) (i : nat) :
  i < length x -> same_at x x i i = true.
Proof.
  intros Hi. destruct (lookup_lt_is_Some_2 x i Hi) as [c Hc].
  by apply (same_at_hit _ _ _ _ c).
Qed.

Lemma extend_left_self (x : list N) :
  forall bi bs,
    bi + bs <= length x -> extend_left x x 0 0 bi bi bs = (0, 0, bi + bs).
Proof.
  induction bi as [|bi IH]; intros bs Hle; [done|].
  cbn [extend_left]. rewrite same_at_self by lia. cbn [Nat.ltb Nat.leb andb].
  rewrite IH by lia. f_equal. lia.
Qed.

Lemma extend_right_self (x : list N) :
  forall gap bs,
    bs + gap = length x ->
    extend_right x x (length x) 0 0 bs gap = (0, 0, length x).
Proof.
  induction gap as [|gap IH]; intros bs Hlen; cbn [extend_right].
  - f_equal. lia.
  - rewrite same_at_self by (cbn; lia).
    destruct (Nat.ltb_spec (0 + bs) (length x)); [|cbn in *; lia].
    cbn [andb]. apply IH. lia.
Qed.

(** On a string and itself, the longest match is the whole string. *)
Lemma find_longest_match_self (x : list N) :
  find_longest_match x x (chain_b x) 0 (length x) 0 (length x)
  = (0, 0, length x).
Proof.
  unfold find_longest_match. rewrite Nat.sub_0_r.
  pose proof (scan_rows_self (chain_b x) x) as Hscan.
  destruct (Hscan (fun c js E => proj1 (chain_b_lookup x c js E))
              (length x) 0 ∅ (0, 0, 0)) as (Hdiag & Hend & _).
  - done.
  - split; [intros j v; by rewrite lookup_empty | done].
  - split; [done|]. split; [done|]. intros n Hn. by replace n with 0 by lia.
  - destruct (scan_rows _ _ _ _ _ _ _) as [[bi bj] bs]. cbn [fst snd] in *.
    subst bj. rewrite extend_left_self by done.
    apply extend_right_self. lia.
Qed.

Lemma blocks_loop_nil (fuel : nat) (a b : list N) (b2j : gmap N (list nat))
    (acc : list (nat * nat * nat)) :
  blocks_loop fuel a b b2j [] acc = Some acc.
Proof. by destruct fuel. Qed.

Lemma blocks_loop_self (x : list N) :
  blocks_loop (S (2 * length x)) x x (chain_b x)
    [(0, length x, 0, length x)] []
  = Some match length x with
         | O => []
         | S _ => [(0, 0, length x)]
         end.
Proof.
  cbn [blocks_loop]. rewrite find_longest_match_self.
  destruct (length x) as [|n]; [apply blocks_loop_nil|].
  cbn [Nat.add app]. rewrite !Nat.ltb_irrefl. cbn [andb].
  apply blocks_loop_nil.
Qed.

Lemma matches_self (x : list N) : matches x x (chain_b x) = length x.
Proof.
  rewrite (matches_loop _ _ _ _ (blocks_loop_self x)).
  destruct (length x); cbn; lia.
Qed.

(** A string has ratio 1 with itself, whatever [autojunk] removes from the
    index, and so have the two quick ratios. *)
Lemma calculate_ratio_self (n : nat) : (calculate_ratio n (n + n) == 1)%Q.
Proof.
  unfold calculate_ratio. destruct (n + n) as [|m] eqn:E; [done|].
  unfold Qeq. cbn [Qnum Qden]. rewrite Z.mul_1_r, Z.mul_1_l.
  rewrite <- Pos.of_nat_succ, Zpos_P_of_succ_nat. lia.
Qed.

Lemma ratio_self (x : list N) : (ratio x x (chain_b x) == 1)%Q.
Proof. unfold ratio. rewrite matches_self. apply calculate_ratio_self. Qed.

(** A string passes the test of [get_close_matches] against itself for
    every cutoff up to 1. *)
Lemma close_enough_self (x : list N) (cutoff : Q) :
  (cutoff <= 1)%Q -> close_enough x (chain_b x) cutoff x = true.
Proof.
  intros Hc. rewrite close_enough_ratio. apply Qle_bool_iff.
  by rewrite ratio_self.
Qed.

(** *** The order of strings and of scored candidates *)

Lemma str_gt_irrefl (a : list N) : str_gt a a = false.
Proof.
  induction a as [|x a IH]; [done|]. cbn.
  by rewrite N.ltb_irrefl, N.eqb_refl, IH.
Qed.

Lemma str_gt_cons (x y : N) (a b : list N) :
  str_gt (x :: a) (y :: b) = true
  <-> (y < x)%N \/ (x = y /\ str_gt a b = true).
Proof.
  cbn. rewrite orb_true_iff, andb_true_iff, N.ltb_lt, N.eqb_eq. done.
Qed.

Lemma str_gt_cons_false (x y : N) (a b : list N) :
  str_gt (x :: a) (y :: b) = false
  <-> (x < y)%N \/ (x = y /\ str_gt a b = false).
Proof.
  cbn. rewrite orb_false_iff, andb_false_iff, N.ltb_ge, N.eqb_neq.
  split.
  - intros [Hle [Hne | Hgt]]; [left; lia|].
    destruct (decide (x = y)); [right; done | left; lia].
  - intros [Hlt | [-> Hgt]]; (split; [lia|]); [left; lia | by right].
Qed.

(** Not greater is a total order: transitive, and two strings neither of
    which is greater than the other are equal. *)
Lemma str_le_trans (a b c : list N) :
  str_gt a b = false -> str_gt b c = false -> str_gt a c = false.
Proof.
  revert b c. induction a as [|x a IH]; intros b c Hab Hbc; [done|].
  destruct b as [|y b]; [done|]. destruct c as [|z c]; [done|].
  apply str_gt_cons_false in Hab, Hbc. apply str_gt_cons_false.
  destruct Hab as [? | [-> Hab]], Hbc as [? | [-> Hbc]];
    try (left; lia). right. split; [done|]. by eapply IH.
Qed.

Lemma str_le_antisym (a b : list N) :
  str_gt a b = false -> str_gt b a = false -> a = b.
Proof.
  revert b. induction a as [|x a IH]; intros [|y b] Hab Hba; try done.
  apply str_gt_cons_false in Hab, Hba.
  destruct Hab as [? | [E1 Hab]], Hba as [? | [E2 Hba]]; try lia.
  subst y. f_equal. by apply IH.
Qed.

Lemma str_gt_asym (a b : list N) : str_gt a b = true -> str_gt b a = false.
Proof.
  revert b. induction a as [|x a IH]; intros [|y b] Hab; try done.
  apply str_gt_cons in Hab. apply str_gt_cons_false.
  destruct Hab as [? | [-> Hab]]; [left; lia | right; split; [done|]].
  by apply IH.
Qed.

Local Open Scope Q_scope.

Lemma scored_le (x y : Q * list N) :
  scored_gt x y = false
  <-> x.1 < y.1 \/ (x.1 == y.1 /\ str_gt x.2 y.2 = false).
Proof.
  unfold scored_gt. destruct (Qeq_bool x.1 y.1) eqn:E.
  - apply Qeq_bool_iff in E. split; [by right|].
    intros [Hlt | [_ ?]]; [|done]. rewrite E in Hlt.
    by apply Qlt_irrefl in Hlt.
  - apply Qeq_bool_neq in E. rewrite negb_false_iff, Qle_bool_iff. split.
    + intros Hle. left. apply Qle_lteq in Hle as [?|?]; done.
    + intros [Hlt | [? _]]; [by apply Qlt_le_weak | done].
Qed.

Lemma scored_le_trans (x y z : Q * list N) :
  scored_gt x y = false -> scored_gt y z = false -> scored_gt x z = false.
Proof.
  rewrite !scored_le.
  intros [Hxy | [Hxy Sxy]] [Hyz | [Hyz Syz]].
  - left. by eapply Qlt_trans.
  - left. by rewrite <- Hyz.
  - left. by rewrite Hxy.
  - right. split; [by rewrite Hxy | by eapply str_le_trans].
Qed.

Lemma scored_gt_asym (x y : Q * list N) :
  scored_gt x y = true -> scored_gt y x = false.
Proof.
  intros Hgt. apply scored_le. unfold scored_gt in Hgt.
  destruct (Qeq_bool x.1 y.1) eqn:E.
  - apply Qeq_bool_iff in E. right. split; [done | by apply str_gt_asym].
  - apply negb_true_iff in Hgt.
    left. apply Qnot_le_lt. by rewrite <- Qle_bool_iff, Hgt.
Qed.

(** [max] returns an item of the list that no item is greater than. *)
Lemma py_max_fold (items : list (Q * list N)) :
  forall m,
    let r := fold_left (fun m item => if scored_gt item m then item else m)
               items m in
    (r = m \/ r ∈ items)
    /\ scored_gt m r = false
    /\ forall x, x ∈ items -> scored_gt x r = false.
Proof.
  induction items as [|item items IH]; intros m; cbn [fold_left].
  - split; [by left|]. split; [|by intros x Hx%elem_of_nil].
    apply scored_le. right. split; [done | apply str_gt_irrefl].
  - destruct (scored_gt item m) eqn:E.
    + destruct (IH item) as (Hin & Hm & Hall). cbn zeta in *.
      split; [right; destruct Hin as [-> | ?]; [left | by right]|].
      split; [eapply scored_le_trans; [by apply scored_gt_asym | done]|].
      intros x [-> | Hx]%elem_of_cons; [done | by apply Hall].
    + destruct (IH m) as (Hin & Hm & Hall). cbn zeta in *.
      split; [destruct Hin as [-> | ?]; [by left | by right; right]|].
      split; [done|].
      intros x [-> | Hx]%elem_of_cons; [|by apply Hall].
      by eapply scored_le_trans.
Qed.

Lemma nlargest1_spec (result : list (Q * list N)) :
  match nlargest1 result with
  | [] => result = []
  | [r] => r ∈ result /\ forall x, x ∈ result -> scored_gt x r = false
  | _ => False
  end.
Proof.
  unfold nlargest1, py_max. destruct result as [|m items]; [done|].
  destruct (py_max_fold items m) as (Hin & Hm & Hall). cbn zeta in *.
  split.
  - destruct Hin as [-> | ?]; [left | by right].
  - intros x [-> | Hx]%elem_of_cons; [done | by apply Hall].
Qed.

Local Close Scope Q_scope.

(** *** Ratio 1 means equal strings *)

Lemma queue_min_cons (r : nat * nat * nat * nat)
    (queue : list (nat * nat * nat * nat)) :
  queue_min (r :: queue)
  = Nat.min (r.1.1.2 - r.1.1.1) (r.2 - r.1.2) + queue_min queue.
Proof. by destruct r as [[[alo ahi] blo] bhi]. Qed.

Lemma slice_empty (l : list N) (lo : nat) : slice l lo lo = [].
Proof. unfold slice. by rewrite Nat.sub_diag. Qed.

(** The blocks the loop adds are bounded by the shorter sides of the queued
    regions; when the bound is reached on regions with sides of equal
    length, the two sides of every region are equal strings. *)
Lemma blocks_loop_full (a b : list N) (b2j : gmap N (list nat)) :
  b2j_sound b b2j ->
  forall fuel queue acc blocks,
    Forall (region_ok (length a) (length b)) queue ->
    blocks_loop fuel a b b2j queue acc = Some blocks ->
    block_sizes blocks <= block_sizes acc + queue_min queue
    /\ (Forall region_square queue ->
        block_sizes blocks = block_sizes acc + queue_min queue ->
        Forall (region_equal a b) queue).
Proof.
  intros Hsound. induction fuel as [|fuel IH]; intros queue acc blocks Hq Hrun.
  { destruct queue as [|[[[alo ahi] blo] bhi] queue]; [|done].
    injection Hrun as <-. split; [cbn; lia | done]. }
  destruct queue as [|[[[alo ahi] blo] bhi] queue].
  { injection Hrun as <-. split; [cbn; lia | done]. }
  apply Forall_cons in Hq as [[[Ha1 Ha2] [Hb1 Hb2]] Hq].
  rewrite queue_min_cons. cbn [fst snd blocks_loop] in *.
  pose proof (find_longest_match_good a b b2j alo ahi blo bhi Hsound Ha1 Hb1)
    as Hgood.
  destruct (find_longest_match a b b2j alo ahi blo bhi) as [[i j] k].
  destruct Hgood as (Hi & Hik & Hj & Hjk & Hm). cbn [fst snd] in *.
  destruct k as [|k].
  { destruct (IH queue acc blocks Hq Hrun) as [Hle Heq].
    split; [lia|]. intros [Hsq Hsqs]%Forall_cons Hfull.
    unfold region_square in Hsq.
    constructor; [|apply Heq; [done | lia]].
    unfold region_equal. replace ahi with alo by lia.
    replace bhi with blo by lia. by rewrite !slice_empty. }
  set (lpush := (alo <? i) && (blo <? j)) in *.
  set (rpush := (i + S k <? ahi) && (j + S k <? bhi)) in *.
  set (q1 := if lpush then (alo, i, blo, j) :: queue else queue) in *.
  set (q2 := if rpush then (i + S k, ahi, j + S k, bhi) :: q1 else q1) in *.
  assert (Hq2 : Forall (region_ok (length a) (length b)) q2).
  { unfold q2, q1.
    destruct lpush, rpush; repeat (constructor; [cbn; lia|]); done. }
  assert (Hmin2 : queue_min q2
                  = (if lpush then Nat.min (i - alo) (j - blo) else 0)
                    + (if rpush
                       then Nat.min (ahi - (i + S k)) (bhi - (j + S k))
                       else 0)
                    + queue_min queue).
  { unfold q2, q1. destruct lpush, rpush;
      rewrite ?queue_min_cons; cbn [fst snd]; lia. }
  destruct (IH q2 (acc ++ [(i, j, S k)]) blocks Hq2 Hrun) as [Hle Heq].
  rewrite block_sizes_snoc in Hle, Heq. cbn [snd] in Hle, Heq.
  assert (Hl : (if lpush then Nat.min (i - alo) (j - blo) else 0)
               <= Nat.min (i - alo) (j - blo)) by (destruct lpush; lia).
  assert (Hr : (if rpush then Nat.min (ahi - (i + S k)) (bhi - (j + S k))
                else 0)
               <= Nat.min (ahi - (i + S k)) (bhi - (j + S k)))
    by (destruct rpush; lia).
  split; [lia|].
  intros [Hsq Hsqs]%Forall_cons Hfull. unfold region_square in Hsq.
  assert (Hpq : i - alo = j - blo) by lia.
  assert (Hall : Forall (region_equal a b) q2).
  { apply Heq; [|lia]. unfold q2, q1.
    destruct lpush, rpush; repeat (constructor; [cbn; lia|]); done. }
  assert (Hleft : slice a alo i = slice b blo j).
  { destruct lpush eqn:El.
    - unfold q2, q1 in Hall. destruct rpush.
      + by apply Forall_cons in Hall as [_ [? _]%Forall_cons].
      + by apply Forall_cons in Hall as [? _].
    - apply andb_false_iff in El.
      replace i with alo by (destruct El as [?%Nat.ltb_ge | ?%Nat.ltb_ge]; lia).
      replace j with blo by (destruct El as [?%Nat.ltb_ge | ?%Nat.ltb_ge]; lia).
      by rewrite !slice_empty. }
  assert (Hright : slice a (i + S k) ahi = slice b (j + S k) bhi).
  { destruct rpush eqn:Er.
    - unfold q2 in Hall. by apply Forall_cons in Hall as [? _].
    - apply andb_false_iff in Er.
      replace ahi with (i + S k)
        by (destruct Er as [?%Nat.ltb_ge | ?%Nat.ltb_ge]; lia).
      replace bhi with (j + S k)
        by (destruct Er as [?%Nat.ltb_ge | ?%Nat.ltb_ge]; lia).
      by rewrite !slice_empty. }
  constructor.
  - unfold region_equal.
    rewrite (slice_split a alo i ahi), (slice_split a i (i + S k) ahi) by lia.
    rewrite (slice_split b blo j bhi), (slice_split b j (j + S k) bhi) by lia.
    by rewrite Hleft, Hright, (matched_slice a b i j (S k) Hm).
  - unfold q2, q1 in Hall. destruct lpush, rpush; try done.
    + by apply Forall_cons in Hall as [_ [_ ?]%Forall_cons].
    + by apply Forall_cons in Hall as [_ ?].
    + by apply Forall_cons in Hall as [_ ?].
Qed.

Lemma matches_full (a b : list N) :
  length a = length b -> matches a b (chain_b b) = length a -> a = b.
Proof.
  intros Hlen Hfull.
  destruct (blocks_loop_total a b) as [blocks Hrun].
  rewrite (matches_loop _ _ _ _ Hrun) in Hfull.
  destruct (queue_initial a b) as (Hq & _ & _).
  destruct (blocks_loop_full a b (chain_b b) (chain_b_sound b) _ _ _ _ Hq Hrun)
    as [_ Heq].
  assert (Hall : Forall (region_equal a b) [(0, length a, 0, length b)]).
  { apply Heq; [repeat constructor; cbn; lia|].
    rewrite queue_min_cons. cbn. lia. }
  apply Forall_cons in Hall as [Hall _]. unfold region_equal in Hall.
  by rewrite !slice_all in Hall.
Qed.

(** Two strings with ratio 1 are equal. *)
Lemma ratio_one (a b : list N) :
  (ratio a b (chain_b b) == 1)%Q -> a = b.
Proof.
  unfold ratio, calculate_ratio.
  pose proof (matches_le_common a b) as Hm. pose proof (common_le a b) as Hc.
  destruct (length a + length b) as [|n] eqn:En.
  - intros _. destruct a, b; done.
  - unfold Qeq. cbn [Qnum Qden]. rewrite Z.mul_1_r, Z.mul_1_l.
    rewrite <- Pos.of_nat_succ, Zpos_P_of_succ_nat. intros E.
    apply matches_full; lia.
Qed.

End Matcher.

(** ** Fuzzy matching and lookup *)

Section Matching.

Import Py Difflib App Spec Invariants.

Local Open Scope Q_scope.

(** What [find_best_match] returns, in terms of the candidates that pass the
    test of [get_close_matches]. *)
Lemma find_best_match_cases (user_question : list N)
    (questions : list (list N)) :
  let word := lower user_question in
  let close := List.filter (close_enough word (chain_b word) (13 # 20))
                 (map lower questions) in
  match find_best_match user_question questions with
  | None => close = []
  | Some m =>
      m ∈ close
      /\ forall x, x ∈ close ->
           scored_gt (similarity x word, x) (similarity m word, m) = false
  end.
Proof.
  intros word close. unfold find_best_match, get_close_matches.
  fold word. fold close.
  pose proof (nlargest1_spec
                (map (fun x => (ratio x word (chain_b word), x)) close))
    as Hmax.
  destruct (nlargest1 _) as [|[score m] [|]]; cbn [map]; [| |done].
  - by apply map_eq_nil in Hmax.
  - destruct Hmax as [Hin Hall].
    apply list_elem_of_fmap in Hin as (m' & [= -> <-] & Hm).
    split; [done|]. intros x Hx. apply Hall.
    apply list_elem_of_fmap. by exists x.
Qed.

Lemma elem_of_close (word x : list N) (cands : list (list N)) :
  x ∈ List.filter (close_enough word (chain_b word) (13 # 20)) cands
  <-> x ∈ cands /\ 13 # 20 <= similarity x word.
Proof.
  rewrite !list_elem_of_In, filter_In, close_enough_ratio, Qle_bool_iff. done.
Qed.

(** A match is a candidate at or above the cutoff that no candidate beats:
    every candidate is below the cutoff or not greater as a scored pair. *)
Lemma best_match_some (user_text : list N) (questions : list (list N))
    (m : list N) :
  find_best_match user_text questions = Some m ->
  m ∈ map lower questions
  /\ 13 # 20 <= similarity m (lower user_text)
  /\ forall x, x ∈ map lower questions ->
       similarity x (lower user_text) < 13 # 20
       \/ scored_gt (similarity x (lower user_text), x)
            (similarity m (lower user_text), m) = false.
Proof.
  intros E. pose proof (find_best_match_cases user_text questions) as Hcases.
  cbn zeta in Hcases. rewrite E in Hcases. destruct Hcases as [Hm Hall].
  apply elem_of_close in Hm as [Hm Hcut]. split; [done|]. split; [done|].
  intros x Hx.
  destruct (Qlt_le_dec (similarity x (lower user_text)) (13 # 20))
    as [Hlow | Hhigh]; [by left | right].
  apply Hall. by apply elem_of_close.
Qed.

Lemma best_match_none (user_text : list N) (questions : list (list N)) :
  find_best_match user_text questions = None ->
  forall x, x ∈ map lower questions ->
            similarity x (lower user_text) < 13 # 20.
Proof.
  intros E x Hx.
  pose proof (find_best_match_cases user_text questions) as Hcases.
  cbn zeta in Hcases. rewrite E in Hcases.
  apply Qnot_le_lt. intros Hcut.
  assert (Hx' : x ∈ List.filter
                       (close_enough (lower user_text)
                          (chain_b (lower user_text)) (13 # 20))
                       (map lower questions))
    by (by apply elem_of_close).
  rewrite Hcases in Hx'. by apply elem_of_nil in Hx'.
Qed.

(** The two candidates of [tied_questions] tie at 0.8, above the cutoff,
    and the second one in input order is returned. *)
Lemma find_best_match_tie_not_first :
  similarity (lit "abc") (lit "ab") == 8 # 10
  /\ similarity (lit "abd") (lit "ab") == 8 # 10
  /\ find_best_match (lit "ab") tied_questions = Some (lit "abd")
  /\ find_best_match (lit "ab") tied_questions <> Some (lit "abc").
Proof. vm_compute. repeat split; discriminate. Qed.

(** C2, amended.  [find_best_match] lowercases the user text and every
    candidate and scores each candidate by a ratio between 0 and 1.  It
    returns [None] exactly when every candidate scores below 0.65;
    otherwise it returns a candidate of the highest score, which is then at
    least 0.65, and among the candidates tied at that score the one that is
    greatest in the order of strings (not the first in input order).  The
    function is total: it raises nothing, and the matching loop ends within
    its bound for every candidate. *)
Theorem find_best_match_spec (user_text : list N) (questions : list (list N)) :
  let word := lower user_text in
  let cands := map lower questions in
  (forall x, 0 <= similarity x word <= 1)
  /\ (forall x, is_Some (blocks_loop (S (2 * length x)) x word (chain_b word)
                           [(0, length x, 0, length word)%nat] []))
  /\ (find_best_match user_text questions = None
      <-> forall x, x ∈ cands -> similarity x word < 13 # 20)
  /\ (forall m, find_best_match user_text questions = Some m ->
        m ∈ cands
        /\ 13 # 20 <= similarity m word
        /\ forall x, x ∈ cands ->
             similarity x word <= similarity m word
             /\ (similarity x word == similarity m word ->
                 x = m \/ str_gt m x = true)).
Proof.
  intros word cands.
  split; [intros x; apply ratio_range|].
  split; [intros x; apply blocks_loop_total|].
  split.
  - split; [apply best_match_none|].
    intros Hlow. destruct (find_best_match user_text questions) as [m|] eqn:E;
      [|done].
    apply best_match_some in E as (Hm & Hcut & _).
    specialize (Hlow m Hm). exfalso. by apply (Qlt_not_le _ _ Hlow).
  - intros m E. apply best_match_some in E as (Hm & Hcut & Hall).
    split; [done|]. split; [done|]. intros x Hx.
    destruct (Hall x Hx) as [Hlow | Hle].
    + split; [apply Qlt_le_weak; by eapply Qlt_le_trans|].
      intros E. fold word in Hlow. rewrite E in Hlow.
      exfalso. by apply (Qlt_not_le _ _ Hlow).
    + apply scored_le in Hle. cbn [fst snd] in Hle. fold word in Hle.
      destruct Hle as [Hlt | [Heq Hstr]].
      * split; [by apply Qlt_le_weak|]. intros E. rewrite E in Hlt.
        exfalso. by apply (Qlt_irrefl _ Hlt).
      * split; [by rewrite Heq; apply Qle_refl|]. intros _.
        destruct (str_gt m x) eqn:Emx; [by right|]. left.
        by apply str_le_antisym.
Qed.

Lemma find_best_match_spec_witness :
  find_best_match (lit "what is your name")
    [lit "What is your name?"; lit "How old are you?"]
  = Some (lit "what is your name?")
  /\ 13 # 20 <= similarity (lit "what is your name?") (lit "what is your name").
Proof.
  destruct (find_best_match_spec (lit "what is your name")
              [lit "What is your name?"; lit "How old are you?"])
    as (_ & _ & _ & Hsome).
  destruct (Hsome (lit "what is your name?")) as (_ & Hcut & _).
  - vm_compute. reflexivity.
  - split; [vm_compute; reflexivity | exact Hcut].
Defined.

Lemma cutoff_below_one : ~ 1 < 13 # 20.
Proof. intros H. vm_compute in H. discriminate. Qed.

(** [get_answer_for_question] returns the answer of the first entry whose
    question equals the asked one without regard to case. *)
Lemma get_answer_first (asked : list N) (knowledge_base : list KnowledgeEntry) :
  get_answer_for_question asked knowledge_base
  = first_answer asked knowledge_base.
Proof.
  unfold first_answer.
  induction knowledge_base as [|e kb IH]; cbn [get_answer_for_question List.filter];
    [done|].
  by destruct (bool_decide (lower (question e) = lower asked)).
Qed.

Lemma get_answer_found (asked : list N) (knowledge_base : list KnowledgeEntry)
    (e : KnowledgeEntry) :
  e ∈ knowledge_base -> lower (question e) = lower asked ->
  is_Some (get_answer_for_question asked knowledge_base).
Proof.
  intros Hin He.
  induction knowledge_base as [|e' kb IH]; [by apply elem_of_nil in Hin|].
  cbn [get_answer_for_question]. case_bool_decide; [by eexists|].
  apply elem_of_cons in Hin as [-> | Hin]; [done | by apply IH].
Qed.

(** A match is the lowercased text of a question of the base, so looking it
    up succeeds. *)
Lemma lookup_of_match (knowledge_base : list KnowledgeEntry)
    (user_input m : list N) :
  find_best_match user_input (map question knowledge_base) = Some m ->
  is_Some (get_answer_for_question m knowledge_base).
Proof.
  intros Hm. apply best_match_some in Hm as [Hm _].
  apply list_elem_of_fmap in Hm as (q & -> & Hq).
  apply list_elem_of_fmap in Hq as (e & -> & He).
  apply (get_answer_found _ _ e He). by rewrite lower_idempotent.
Qed.

(** C10.  For a question text [q] of the knowledge base, [find_best_match]
    returns a match, the lowercased text of [q] (the only candidate with
    similarity 1); [get_answer_for_question] on that match and the same
    base returns an answer, the answer of the first entry whose question
    equals the match without regard to case.  More generally a match of any
    user text is found by the lookup, so [/chat] never answers [None]. *)
Theorem match_then_lookup (knowledge_base : list KnowledgeEntry) (q : list N) :
  q ∈ map question knowledge_base ->
  find_best_match q (map question knowledge_base) = Some (lower q)
  /\ (exists ans,
        get_answer_for_question (lower q) knowledge_base = Some ans
        /\ first_answer (lower q) knowledge_base = Some ans)
  /\ (forall user_input m,
        find_best_match user_input (map question knowledge_base) = Some m ->
        is_Some (get_answer_for_question m knowledge_base))
  /\ (forall message g, (chat knowledge_base message g).1 <> None).
Proof.
  intros Hq.
  assert (Hcand : lower q ∈ map lower (map question knowledge_base))
    by (apply list_elem_of_fmap; by exists q).
  assert (Hself : similarity (lower q) (lower q) == 1) by apply ratio_self.
  assert (Hmatch : find_best_match q (map question knowledge_base)
                   = Some (lower q)).
  { destruct (find_best_match q (map question knowledge_base)) as [m|] eqn:E.
    - apply best_match_some in E as (_ & _ & Hmax).
      f_equal. apply ratio_one. fold (similarity m (lower q)).
      apply Qle_antisym; [apply ratio_range|].
      destruct (Hmax (lower q) Hcand) as [Hlow | Hle].
      + rewrite Hself in Hlow. by apply cutoff_below_one in Hlow.
      + apply scored_le in Hle. cbn [fst snd] in Hle. rewrite Hself in Hle.
        destruct Hle as [Hlt | [Heq _]];
          [by apply Qlt_le_weak | by rewrite <- Heq; apply Qle_refl].
    - exfalso. pose proof (best_match_none _ _ E (lower q) Hcand) as Hlow.
      rewrite Hself in Hlow. by apply cutoff_below_one in Hlow. }
  split; [done|]. split; [|split].
  - destruct (lookup_of_match knowledge_base q (lower q) Hmatch) as [ans Hans].
    exists ans. split; [done|]. by rewrite <- get_answer_first.
  - apply lookup_of_match.
  - intros message g. unfold chat.
    destruct (existsb _ _); [done|].
    destruct (str_in (lit "lie detector") _); [done|].
    destruct (str_in (lit "search") _); [done|].
    destruct (str_in (lit "dice roll") _); [by destruct (roll_dice g)|].
    destruct (str_in (lit "set alarm") _); [done|]. cbn [fst].
    destruct (find_best_match (strip message) _) as [[|c m]|] eqn:E;
      try done.
    by destruct (lookup_of_match _ _ _ E) as [ans ->].
Qed.

Lemma match_then_lookup_witness :
  find_best_match (lit "What is your name?") (map question sample_base)
  = Some (lit "what is your name?")
  /\ exists ans,
       get_answer_for_question (lit "what is your name?") sample_base
       = Some ans.
Proof.
  destruct (match_then_lookup sample_base (lit "What is your name?"))
    as (Hmatch & (ans & Hans & _) & _).
  - apply (bool_decide_unpack _). vm_compute. exact I.
  - split; [exact Hmatch | exists ans; exact Hans].
Defined.

End Matching.

(** ** The examples of the specification *)

Section Examples.

Import Py Difflib App Spec.

Local Open Scope Q_scope.

Example best_match_name :
  find_best_match (lit "what is your name")
    [lit "What is your name?"; lit "How old are you?"]
  = Some (lit "what is your name?").
Proof. vm_compute. reflexivity. Qed.

Example best_match_nothing :
  find_best_match (lit "zzz qqq")
    [lit "What is your name?"; lit "How old are you?"]
  = None.
Proof. vm_compute. reflexivity. Qed.

(** The draws 0, 1, 2 select "rock", "paper", "scissors". *)
Example rock_against_scissors :
  (rps_play (lit "rock") {| source := fun _ => 2%nat; drawn := 0 |}).1
  = RpsPlayed (lit "rock") (lit "scissors") (lit "win").
Proof. vm_compute. reflexivity. Qed.

Example rock_against_paper :
  (rps_play (lit "rock") {| source := fun _ => 1%nat; drawn := 0 |}).1
  = RpsPlayed (lit "rock") (lit "paper") (lit "lose").
Proof. vm_compute. reflexivity. Qed.

Example rock_against_rock :
  (rps_play (lit "rock") {| source := fun _ => 0%nat; drawn := 0 |}).1
  = RpsPlayed (lit "rock") (lit "rock") (lit "tie").
Proof. vm_compute. reflexivity. Qed.

Example average_at_upper_threshold :
  verdict <$> summary_of [1; 1; 1; 1; 2] = Some (lit "Suspicious").
Proof. vm_compute. reflexivity. Qed.

Example average_at_lower_threshold :
  verdict <$> summary_of [0; 1] = Some (lit "Likely Truthful").
Proof. vm_compute. reflexivity. Qed.

Example score_of_evasive_question :
  analyze_message (lit "I don't wanna say, maybe?") == 9 # 2.
Proof. vm_compute. reflexivity. Qed.

Example score_of_plain_question :
  analyze_message (lit "are you there right now?") == - (1 # 2).
Proof. vm_compute. reflexivity. Qed.

(** [roll_dice] returns a number from 1 to 6. *)
Lemma roll_dice_range (g : rng) : (1 <= (roll_dice g).1 <= 6)%Z.
Proof.
  unfold roll_dice, randbelow. cbn [fst].
  pose proof (Nat.mod_upper_bound (source g (drawn g)) 6). lia.
Qed.

End Examples.

(** ** More on the string built-ins *)

Section Strings.

Import Py.

Lemma startswith_app (p post : list N) : startswith p (p ++ post) = true.
Proof.
  induction p as [|c p IH]; [done|].
  cbn [app startswith]. by rewrite N.eqb_refl, IH.
Qed.

Lemma startswith_inv (p t : list N) :
  startswith p t = true -> exists post, t = p ++ post.
Proof.
  revert t. induction p as [|c p IH]; intros t H; [by exists t|].
  destruct t as [|d t]; [done|]. cbn [startswith] in H.
  apply andb_true_iff in H as [Hc Hp]. apply N.eqb_eq in Hc as ->.
  destruct (IH t Hp) as [post ->]. by exists post.
Qed.

(** [sub in t] holds exactly when [t] is [sub] between two strings. *)
Lemma str_in_occurs (sub t : list N) :
  str_in sub t = true <-> exists pre post, t = pre ++ sub ++ post.
Proof.
  split.
  - induction t as [|c t IH]; cbn [str_in]; intros H.
    + rewrite orb_false_r in H. apply startswith_inv in H as [post ->].
      by exists [], post.
    + apply orb_true_iff in H as [H | H].
      * apply startswith_inv in H as [post ->]. by exists [], post.
      * destruct (IH H) as (pre & post & ->). by exists (c :: pre), post.
  - intros (pre & post & ->).
    induction pre as [|c pre IH].
    + cbn [app]. destruct (sub ++ post) eqn:E; cbn [str_in];
        rewrite <- E, startswith_app; done.
    + cbn [app str_in]. by rewrite IH, orb_true_r.
Qed.

Lemma str_in_trans (a b t : list N) :
  str_in a b = true -> str_in b t = true -> str_in a t = true.
Proof.
  rewrite !str_in_occurs. intros (p1 & q1 & ->) (p2 & q2 & ->).
  exists (p2 ++ p1), (q1 ++ q2). by rewrite <- !app_assoc.
Qed.

Lemma join_cons (sep p : list N) (rest : list (list N)) :
  rest <> [] -> join sep (p :: rest) = p ++ sep ++ join sep rest.
Proof. by destruct rest. Qed.

(** [sep.join(t.split(sep))] gives [t] back. *)
Lemma join_split_from (sep : list N) :
  sep <> [] ->
  forall (t : list N) (skip : nat) (cur : list N),
    skip <= length t ->
    join sep (split_from sep skip cur t) = cur ++ drop skip t.
Proof.
  intros Hsep t. induction t as [|c t IH]; intros skip cur Hskip.
  - cbn in Hskip. assert (skip = 0) as -> by lia.
    cbn [split_from join drop]. by rewrite app_nil_r.
  - cbn [split_from]. destruct skip as [|k].
    + destruct (startswith sep (c :: t)) eqn:E.
      * rewrite join_cons by apply split_from_nonempty.
        destruct sep as [|d sep]; [done|]. cbn [startswith] in E.
        apply andb_true_iff in E as [Hd E]. apply N.eqb_eq in Hd as ->.
        apply startswith_inv in E as [post ->].
        cbn [length Nat.pred]. rewrite IH by (rewrite length_app; lia).
        by rewrite drop_app_length.
      * rewrite IH by lia. by rewrite <- app_assoc.
    + cbn [drop length] in *. apply IH. lia.
Qed.

Lemma join_split (sep t : list N) : sep <> [] -> join sep (split sep t) = t.
Proof.
  intros Hsep. unfold split. rewrite join_split_from by (done || lia). done.
Qed.

(** Joining the first [n] parts gives what comes before the [n]-th
    separator. *)
Lemma join_take_drop (sep : list N) (parts : list (list N)) (n : nat) :
  0 < n < length parts ->
  join sep parts = join sep (take n parts) ++ sep ++ join sep (drop n parts).
Proof.
  revert n. induction parts as [|p parts IH]; intros n Hn; [cbn in Hn; lia|].
  destruct n as [|n]; [lia|]. cbn [length] in Hn. cbn [take drop].
  destruct parts as [|p' parts]; [cbn in Hn; lia|].
  destruct n as [|n]; [done|].
  rewrite (join_cons _ p) by done.
  rewrite (join_cons _ p (take _ _)) by done.
  rewrite (IH (S n)) by (cbn [length] in *; lia).
  by rewrite <- !app_assoc.
Qed.

Lemma lstrip_spaces (t : list N) :
  Forall (fun c => isspace c = true) t -> lstrip t = [].
Proof. induction 1 as [|c t Hc _ IH]; [done|]. cbn [lstrip]. by rewrite Hc. Qed.

Lemma strip_spaces (t : list N) :
  Forall (fun c => isspace c = true) t -> strip t = [].
Proof. intros H. unfold strip. by rewrite (lstrip_spaces t H). Qed.

End Strings.

(** ** Range of the scores *)

Section ScoreRange.

Import Py App Spec.

Local Open Scope Q_scope.

Lemma analyze_message_upper_bound (msg : list N) : analyze_message msg <= 12.
Proof.
  pose proof (analyze_message_terms msg) as H. cbn zeta in H. rewrite H.
  repeat match goal with
         | |- context [if ?b then _ else _] => destruct b
         end; lra.
Qed.

(** X1.  Every score lies between -0.5 and 12, both of which some message has,
    and is a multiple of 0.5. *)
Theorem analyze_message_range (msg : list N) :
  - (1 # 2) <= analyze_message msg <= 12
  /\ (exists n : Z, analyze_message msg == inject_Z n / 2)
  /\ (exists low high,
         analyze_message low == - (1 # 2) /\ analyze_message high == 12).
Proof.
  split; [|split].
  - split; [apply analyze_message_lower_bound | apply analyze_message_upper_bound].
  - pose proof (analyze_message_terms msg) as H. cbn zeta in H.
    revert H.
    set (b1 := existsb _ hedge_words). set (b2 := (_ <? 4)%nat).
    set (b3 := str_in (lit "yes") _ && _).
    set (b4 := str_in (lit "never") _ && _).
    set (b5 := str_in (lit "always") _ && _).
    set (b6 := existsb _ avoidance_phrases).
    set (b7 := str_in (lit "?") _).
    intros H.
    exists ((if b1 then 4 else 0) + (if b2 then 2 else 0)
            + (if b3 then 4 else 0) + (if b4 then 4 else 0)
            + (if b5 then 4 else 0) + (if b6 then 6 else 0)
            + (if b7 then -1 else 0))%Z.
    rewrite H.
    destruct b1, b2, b3, b4, b5, b6, b7; vm_compute; reflexivity.
  - exists (lit "are you there right now?"), loaded_text.
    split; vm_compute; reflexivity.
Qed.

(** X2.  Two phrases of the tables contain another one: "not always" contains
    "always", its partner in a contradiction pair, and "sometimes" contains
    the hedge word "sometime".  So "not always" alone counts as a
    contradiction, "sometimes" alone as a hedge, and a message with "never"
    and "sometimes" scores at least 3.5. *)
Theorem analyze_message_nested_phrases (msg : list N) :
  (str_in (lit "not always") (lower msg) = true ->
   3 # 2 <= analyze_message msg)
  /\ (str_in (lit "sometimes") (lower msg) = true ->
      3 # 2 <= analyze_message msg)
  /\ (str_in (lit "never") (lower msg) = true ->
      str_in (lit "sometimes") (lower msg) = true ->
      7 # 2 <= analyze_message msg).
Proof.
  pose proof (analyze_message_terms msg) as H. cbn zeta in H.
  assert (Hhedge : str_in (lit "sometimes") (lower msg) = true ->
                   existsb (fun hw => str_in hw (lower msg)) hedge_words
                   = true).
  { intros Hs. apply existsb_exists. exists (lit "sometime"). split.
    - apply list_elem_of_In, (bool_decide_unpack _). vm_compute. exact I.
    - by apply (str_in_trans _ (lit "sometimes")). }
  split; [|split].
  - intros Hna.
    assert (Ha : str_in (lit "always") (lower msg) = true)
      by (by apply (str_in_trans _ (lit "not always"))).
    rewrite Ha, Hna in H. cbn [andb] in H. rewrite H.
    repeat match goal with
           | |- context [if ?b then _ else _] => destruct b
           end; lra.
  - intros Hs. rewrite (Hhedge Hs) in H. rewrite H.
    repeat match goal with
           | |- context [if ?b then _ else _] => destruct b
           end; lra.
  - intros Hn Hs. rewrite (Hhedge Hs), Hn, Hs in H. cbn [andb] in H.
    rewrite H.
    repeat match goal with
           | |- context [if ?b then _ else _] => destruct b
           end; lra.
Qed.

Lemma analyze_message_nested_phrases_witness :
  3 # 2 <= analyze_message (lit "Not always")
  /\ 7 # 2 <= analyze_message (lit "I never go there but sometimes I do").
Proof.
  split.
  - destruct (analyze_message_nested_phrases (lit "Not always")) as [H _].
    apply H. reflexivity.
  - destruct (analyze_message_nested_phrases
                (lit "I never go there but sometimes I do")) as (_ & _ & H).
    apply H; reflexivity.
Defined.

End ScoreRange.

(** ** More on the lie detector *)

Section Conversations.

Import Py Float App Spec.

Local Open Scope Q_scope.

(** *** Errors *)

Lemma score_entry_ok (scores scores' : list (key * list Q)) (entry : json) :
  score_entry scores entry = Ok scores' -> well_formed_entry entry.
Proof.
  unfold score_entry, well_formed_entry, dict_get.
  destruct entry as [| | | | |fields]; try done.
  unfold mbind, result_bind.
  destruct (default (JStr []) (fields_get (lit "message") fields))
    as [| | |s| |]; try done.
  cbn [analyze_message_any].
  destruct (hash_key _) as [k|e] eqn:Ek; [|done].
  intros _. split; [by exists s | by exists k].
Qed.

Lemma score_entry_raise (scores : list (key * list Q)) (entry : json)
    (e : exn) :
  score_entry scores entry = Raise e -> e = AttributeError \/ e = TypeError.
Proof.
  unfold score_entry, dict_get.
  destruct entry as [| | | | |fields]; try (intros [= <-]; by left).
  unfold mbind, result_bind.
  destruct (default (JStr []) (fields_get (lit "message") fields))
    as [| | |s| |]; try (intros [= <-]; by left).
  cbn [analyze_message_any].
  destruct (default JNull (fields_get (lit "speaker") fields));
    cbn [hash_key]; try done; intros [= <-]; by right.
Qed.

Lemma score_entries_cases (messages : list json) :
  forall scores : list (key * list Q),
    Forall (fun kv => kv.2 <> []) scores ->
    match score_entries scores messages with
    | Ok scores' =>
        Forall well_formed_entry messages
        /\ Forall (fun kv => kv.2 <> []) scores'
    | Raise e =>
        ~ Forall well_formed_entry messages
        /\ (e = AttributeError \/ e = TypeError)
    end.
Proof.
  induction messages as [|entry rest IH]; intros scores Hne; [done|].
  cbn [score_entries]. unfold mbind at 1, result_bind at 1.
  destruct (score_entry scores entry) as [scores1|e] eqn:E.
  - pose proof (score_entry_ok _ _ _ E) as Hwf.
    destruct (score_entry_well_formed scores entry Hwf Hne)
      as (scores2 & E2 & Hne2).
    rewrite E in E2. injection E2 as <-.
    specialize (IH scores1 Hne2).
    destruct (score_entries scores1 rest) as [scores'|e].
    + destruct IH as [Hall Hne']. by split; [constructor|].
    + destruct IH as [Hall He]. split; [|done].
      intros H. apply Hall. by inversion H.
  - split; [|by eapply score_entry_raise].
    intros H. inversion H as [|? ? Hwf _]; subst.
    destruct (score_entry_well_formed scores entry Hwf Hne) as (? & E2 & _).
    by rewrite E in E2.
Qed.

(** X3.  [lie_detector_analysis] returns a summary exactly when every entry is
    well formed; otherwise it raises [AttributeError] or [TypeError], never
    [ZeroDivisionError]: no speaker is left with an empty list of scores. *)
Theorem lie_detector_analysis_errors (messages : list json) :
  match lie_detector_analysis messages with
  | Ok _ => Forall well_formed_entry messages
  | Raise e =>
      ~ Forall well_formed_entry messages
      /\ (e = AttributeError \/ e = TypeError)
  end.
Proof.
  unfold lie_detector_analysis.
  pose proof (score_entries_cases messages [] (List.Forall_nil _)) as H.
  unfold mbind, result_bind.
  destruct (score_entries [] messages) as [scores|e]; [|done].
  destruct H as [Hall Hne].
  destruct (summarize_items_total scores Hne) as (summary & -> & _). done.
Qed.

(** *** Averages *)

Lemma sum_between (lo hi : Q) (vals : list Q) :
  Forall (fun v => lo <= v <= hi) vals ->
  inject_Z (Z.of_nat (length vals)) * lo <= foldr Qplus 0 vals
  /\ foldr Qplus 0 vals <= inject_Z (Z.of_nat (length vals)) * hi.
Proof.
  induction 1 as [|v vals [Hlo Hhi] _ [IHlo IHhi]].
  - cbn [length foldr]. change (inject_Z (Z.of_nat 0)) with 0. lra.
  - cbn [length foldr]. rewrite Nat2Z.inj_succ, <- Z.add_1_r, inject_Z_plus.
    change (inject_Z 1) with 1. split; lra.
Qed.

(** A mean lies between a lower and an upper bound of the values. *)
Lemma mean_between (lo hi : Q) (vals : list Q) :
  vals <> [] -> Forall (fun v => lo <= v <= hi) vals ->
  lo <= mean vals <= hi.
Proof.
  intros Hne Hall. destruct (sum_between lo hi vals Hall) as [Hlo Hhi].
  assert (Hlen : 0 < inject_Z (Z.of_nat (length vals))).
  { change 0 with (inject_Z 0). rewrite <- Zlt_Qlt.
    destruct vals; [done|]. cbn [length]. lia. }
  unfold mean. split.
  - apply Qle_shift_div_l; [done|]. lra.
  - apply Qle_shift_div_r; [done|]. lra.
Qed.

Lemma extremes (vals : list Q) :
  vals <> [] ->
  exists a b, a ∈ vals /\ b ∈ vals /\ Forall (fun v => a <= v <= b) vals.
Proof.
  induction vals as [|v vals IH]; [done|]. intros _.
  destruct vals as [|w vals].
  { exists v, v. repeat split; try (by left).
    repeat constructor; apply Qle_refl. }
  destruct IH as (a & b & Ha & Hb & Hall); [done|].
  exists (if Qlt_le_dec v a then v else a), (if Qlt_le_dec b v then v else b).
  split; [destruct (Qlt_le_dec v a); [by left | by right]|].
  split; [destruct (Qlt_le_dec b v); [by left | by right]|].
  assert (Hab : a <= b).
  { rewrite Forall_forall in Hall. destruct (Hall a Ha). done. }
  constructor.
  - destruct (Qlt_le_dec v a), (Qlt_le_dec b v); split; lra.
  - eapply Forall_impl; [exact Hall|]. intros x [H1 H2]. cbn beta.
    destruct (Qlt_le_dec v a), (Qlt_le_dec b v); split; lra.
Qed.

(** The rounded mean of binary64 numbers lies between bounds of the
    numbers. *)
Lemma binary64_mean_between (lo hi : Q) (vals : list Q) :
  vals <> [] ->
  Forall (fun v => binary64 v == v) vals ->
  Forall (fun v => lo <= v <= hi) vals ->
  lo <= binary64 (mean vals) <= hi.
Proof.
  intros Hne Hfix Hall.
  destruct (extremes vals Hne) as (a & b & Ha & Hb & Hab).
  destruct (mean_between a b vals Hne Hab) as [H1 H2].
  rewrite Forall_forall in Hfix, Hall.
  destruct (Hall a Ha) as [Hlo _]. destruct (Hall b Hb) as [_ Hhi].
  pose proof (binary64_mono _ _ H1) as H1'.
  pose proof (binary64_mono _ _ H2) as H2'.
  rewrite (Hfix a Ha) in H1'. rewrite (Hfix b Hb) in H2'. split; lra.
Qed.

Lemma scores_binary64 (s : list N) (msgs : list ChatMessage) :
  Forall (fun v => binary64 v == v) (scores_of s msgs).
Proof.
  unfold scores_of. apply Forall_fmap, Forall_forall. intros m _.
  apply analyze_message_binary64.
Qed.

(** The summary of a typed conversation, speaker by speaker. *)
Lemma typed_summary (msgs : list ChatMessage) :
  exists summary,
    lie_detector_analysis (map entry_of msgs) = Ok summary
    /\ forall s, s ∈ map speaker msgs ->
         scores_of s msgs <> []
         /\ exists e, items_get (KStr s) summary = Some e
                      /\ summarize (scores_of s msgs) = Ok e.
Proof.
  destruct (score_entries_typed msgs [] (List.Forall_nil _))
    as (scores & Hrun & Hne & Hget).
  destruct (summarize_items_total scores Hne) as (summary & Hsum & Hlook).
  exists summary. unfold lie_detector_analysis. rewrite Hrun. cbn.
  split; [exact Hsum|]. intros s Hs.
  assert (Hvals : scores_of s msgs <> []).
  { apply list_elem_of_fmap in Hs as (m & -> & Hm).
    apply list_elem_of_In in Hm. unfold scores_of, messages_of.
    intros E. apply map_eq_nil in E.
    assert (Hin : In m (List.filter
               (fun m0 => bool_decide (speaker m0 = speaker m)) msgs)).
    { apply filter_In. split; [done|]. by apply bool_decide_eq_true_2. }
    by rewrite E in Hin. }
  split; [done|].
  specialize (Hlook (KStr s)). rewrite Hget in Hlook. cbn in Hlook.
  destruct (scores_of s msgs) as [|v vals] eqn:Ev; [done|].
  cbn [more_scores default app mbind option_bind] in Hlook.
  unfold summary_of in Hlook.
  destruct (summarize (v :: vals)) as [e|] eqn:Ee; [|done].
  by exists e.
Qed.

(** X4.  The average of a speaker lies between any two bounds of that speaker's
    scores; whatever the messages are, it lies between -0.5 and 12. *)
Theorem average_score_between (msgs : list ChatMessage) (s : list N)
    (lo hi : Q) :
  s ∈ map speaker msgs ->
  (forall m, m ∈ messages_of s msgs ->
             lo <= analyze_message (message m) <= hi) ->
  exists summary e,
    lie_detector_analysis (map entry_of msgs) = Ok summary
    /\ items_get (KStr s) summary = Some e
    /\ lo <= average_score e <= hi
    /\ - (1 # 2) <= average_score e <= 12.
Proof.
  intros Hs Hall.
  destruct (typed_summary msgs) as (summary & Hrun & Hsp).
  destruct (Hsp s Hs) as (Hne & e & Hget & He).
  exists summary, e. split; [done|]. split; [done|].
  rewrite (summarize_average _ _ He). split.
  - apply binary64_mean_between; [done | apply scores_binary64 |].
    unfold scores_of.
    apply Forall_fmap, Forall_forall. intros m Hm. by apply Hall.
  - apply binary64_mean_between; [done | apply scores_binary64 |].
    unfold scores_of.
    apply Forall_fmap, Forall_forall. intros m _. cbn. split.
    + apply analyze_message_lower_bound.
    + apply analyze_message_upper_bound.
Qed.

Lemma average_score_between_witness :
  exists summary e,
    lie_detector_analysis (map entry_of sample_conversation) = Ok summary
    /\ items_get (KStr (lit "alice")) summary = Some e
    /\ 3 <= average_score e <= 4
    /\ - (1 # 2) <= average_score e <= 12.
Proof.
  apply (average_score_between sample_conversation (lit "alice") 3 4).
  - apply (bool_decide_unpack _). vm_compute. exact I.
  - intros m Hm.
    apply list_elem_of_In in Hm. cbn in Hm.
    destruct Hm as [<- | [<- | []]]; vm_compute; split; discriminate.
Defined.

(** X5.  A speaker all of whose messages are empty texts has the average 1, the
    score of a short message, and the verdict "Suspicious". *)
Theorem silent_speaker_suspicious (msgs : list ChatMessage) (s : list N) :
  s ∈ map speaker msgs ->
  (forall m, m ∈ messages_of s msgs -> message m = []) ->
  exists summary e,
    lie_detector_analysis (map entry_of msgs) = Ok summary
    /\ items_get (KStr s) summary = Some e
    /\ average_score e == 1
    /\ verdict e = lit "Suspicious".
Proof.
  intros Hs Hall.
  destruct (typed_summary msgs) as (summary & Hrun & Hsp).
  destruct (Hsp s Hs) as (Hne & e & Hget & He).
  exists summary, e. split; [done|]. split; [done|].
  assert (Havg : average_score e == 1).
  { rewrite (summarize_average _ _ He). apply Qle_antisym.
    - apply (binary64_mean_between 1 1); [done | apply scores_binary64 |].
      unfold scores_of.
      apply Forall_fmap, Forall_forall. intros m Hm. cbn.
      rewrite (Hall m Hm). vm_compute. split; discriminate.
    - apply (binary64_mean_between 1 1); [done | apply scores_binary64 |].
      unfold scores_of.
      apply Forall_fmap, Forall_forall. intros m Hm. cbn.
      rewrite (Hall m Hm). vm_compute. split; discriminate. }
  split; [done|].
  destruct (summarize_verdict _ _ He) as (_ & Hm & _). apply Hm.
  rewrite Havg. split; [reflexivity | discriminate].
Qed.

Lemma silent_speaker_suspicious_witness :
  exists summary e,
    lie_detector_analysis (map entry_of silent_conversation) = Ok summary
    /\ items_get (KStr (lit "carol")) summary = Some e
    /\ average_score e == 1
    /\ verdict e = lit "Suspicious".
Proof.
  apply (silent_speaker_suspicious silent_conversation (lit "carol")).
  - apply (bool_decide_unpack _). vm_compute. exact I.
  - intros m Hm.
    apply list_elem_of_In in Hm. cbn in Hm.
    destruct Hm as [<- | [<- | []]]; reflexivity.
Defined.

(** X6.  A higher average never gives a milder verdict. *)
Theorem verdict_monotone (vals1 vals2 : list Q) (e1 e2 : speaker_summary) :
  summarize vals1 = Ok e1 -> summarize vals2 = Ok e2 ->
  average_score e1 <= average_score e2 ->
  (verdict_rank (verdict e1) <= verdict_rank (verdict e2))%nat.
Proof.
  intros H1 H2 Hle.
  destruct (summarize_verdict _ _ H1) as (Hh1 & Hm1 & Hl1).
  destruct (summarize_verdict _ _ H2) as (Hh2 & Hm2 & Hl2).
  destruct (Qlt_le_dec (12 # 10) (average_score e1)) as [Ha|Ha];
    [rewrite Hh1 by done
    |destruct (Qlt_le_dec (1 # 2) (average_score e1)) as [Hb|Hb];
     [rewrite Hm1 by done | rewrite Hl1 by done]];
  (destruct (Qlt_le_dec (12 # 10) (average_score e2)) as [Hc|Hc];
    [rewrite Hh2 by done
    |destruct (Qlt_le_dec (1 # 2) (average_score e2)) as [Hd|Hd];
     [rewrite Hm2 by done | rewrite Hl2 by done]]);
  vm_compute; try lia; exfalso; lra.
Qed.

Lemma verdict_monotone_witness :
  exists e1 e2,
    summarize [0; 1] = Ok e1 /\ summarize [1; 1; 1; 1; 2] = Ok e2
    /\ (verdict_rank (verdict e1) <= verdict_rank (verdict e2))%nat.
Proof.
  eexists _, _. split; [reflexivity|]. split; [reflexivity|].
  apply (verdict_monotone [0; 1] [1; 1; 1; 1; 2]); [reflexivity..|].
  vm_compute. discriminate.
Defined.

End Conversations.

(** *** Order of the speakers *)

Section Speakers.

Import Py App Spec.

Local Open Scope Q_scope.

Lemma items_get_seen {V} (s : list N) (items : list (key * V)) :
  forall seen : list (list N),
    map fst items = map KStr seen ->
    (is_Some (items_get (KStr s) items) <-> s ∈ seen).
Proof.
  induction items as [|[k v] items IH]; intros [|s' seen] E; try done.
  - cbn. split; [by intros [? [=]] | by intros ?%elem_of_nil].
  - cbn [map fst] in E. injection E as -> E. cbn [items_get key_eqb].
    rewrite elem_of_cons. case_bool_decide as Hs.
    + subst. split; [by left | by eexists].
    + rewrite (IH seen E). split; [by right | by intros [-> | ?]].
Qed.

Lemma score_entries_keys (msgs : list ChatMessage) :
  forall (scores scores' : list (key * list Q)) (seen : list (list N)),
    map fst scores = map KStr seen ->
    score_entries scores (map entry_of msgs) = Ok scores' ->
    map fst scores' = map KStr (first_seen seen (map speaker msgs)).
Proof.
  induction msgs as [|m msgs IH]; intros scores scores' seen Hkeys.
  - cbn. by intros [= <-].
  - cbn [map score_entries first_seen]. rewrite score_entry_typed.
    unfold mbind at 1, result_bind at 1. apply IH.
    rewrite items_alter_keys.
    pose proof (items_get_seen (speaker m) scores seen Hkeys) as Hseen.
    destruct (items_get (KStr (speaker m)) scores) as [vals|].
    + rewrite bool_decide_eq_true_2; [done|]. apply Hseen. by eexists.
    + rewrite bool_decide_eq_false_2.
      * by rewrite !map_app, Hkeys.
      * intros Hin. apply Hseen in Hin. by destruct Hin.
Qed.

Lemma first_seen_spec (speakers : list (list N)) :
  forall seen : list (list N),
    NoDup seen ->
    NoDup (first_seen seen speakers)
    /\ (forall s, s ∈ first_seen seen speakers <-> s ∈ seen \/ s ∈ speakers)
    /\ (length (first_seen seen speakers)
        <= length seen + length speakers)%nat.
Proof.
  induction speakers as [|s speakers IH]; intros seen Hnd.
  - cbn [first_seen length]. split; [done|]. split; [|lia].
    intros s. rewrite elem_of_nil. tauto.
  - cbn [first_seen length]. case_bool_decide as Hs.
    + destruct (IH seen Hnd) as (H1 & H2 & H3). split; [done|].
      split; [|lia]. intros s'. rewrite H2, elem_of_cons.
      split; [tauto|]. intros [?|[->|?]]; tauto.
    + assert (Hnd' : NoDup (seen ++ [s])).
      { apply NoDup_app. split; [done|]. split; [|apply NoDup_singleton].
        intros x Hx ->%list_elem_of_singleton. done. }
      destruct (IH _ Hnd') as (H1 & H2 & H3). split; [done|].
      split; [|rewrite length_app in H3; cbn [length] in H3; lia].
      intros s'. rewrite H2, elem_of_app, list_elem_of_singleton, elem_of_cons.
      tauto.
Qed.

(** X7.  The summary of a conversation has one entry for each speaker, in the
    order in which the speakers first appear. *)
Theorem lie_detector_analysis_speakers (msgs : list ChatMessage) :
  exists summary,
    lie_detector_analysis (map entry_of msgs) = Ok summary
    /\ map fst summary = map KStr (first_seen [] (map speaker msgs))
    /\ NoDup (map fst summary)
    /\ (forall s, KStr s ∈ map fst summary <-> s ∈ map speaker msgs)
    /\ (length summary <= length msgs)%nat.
Proof.
  destruct (typed_summary msgs) as (summary & Hrun & _).
  exists summary. split; [done|].
  unfold lie_detector_analysis in Hrun. unfold mbind, result_bind in Hrun.
  destruct (score_entries [] (map entry_of msgs)) as [scores|] eqn:E; [|done].
  pose proof (score_entries_keys msgs [] scores [] eq_refl E) as Hkeys.
  apply summarize_items_keys in Hrun. rewrite Hkeys in Hrun.
  destruct (first_seen_spec (map speaker msgs) [] (NoDup_nil_2))
    as (Hnd & Hin & Hlen).
  split; [done|]. rewrite Hrun. split; [|split].
  - apply NoDup_fmap_2; [|done]. by intros ?? [=].
  - intros s. split.
    + intros (s' & [= ->] & Hs)%list_elem_of_fmap.
      apply Hin in Hs as [Hs%elem_of_nil | Hs]; done.
    + intros Hs. apply list_elem_of_fmap. exists s. split; [done|].
      apply Hin. by right.
  - apply (f_equal length) in Hrun. rewrite !length_map in Hrun.
    rewrite length_map in Hlen. cbn [length] in Hlen. lia.
Qed.

End Speakers.

(** ** More on matching and lookup *)

Section Lookup.

Import Py Difflib App Spec Invariants.

Local Open Scope Q_scope.

(** A user text that equals a question without regard to case matches it. *)
Lemma best_match_exact (user_text : list N) (questions : list (list N)) :
  lower user_text ∈ map lower questions ->
  find_best_match user_text questions = Some (lower user_text).
Proof.
  intros Hcand. set (w := lower user_text) in *.
  assert (Hself : similarity w w == 1) by apply ratio_self.
  destruct (find_best_match user_text questions) as [m|] eqn:E.
  - apply best_match_some in E as (_ & _ & Hmax). fold w in Hmax.
    f_equal. apply ratio_one. fold (similarity m w).
    apply Qle_antisym; [apply ratio_range|].
    destruct (Hmax w Hcand) as [Hlow | Hle].
    + rewrite Hself in Hlow. by apply cutoff_below_one in Hlow.
    + apply scored_le in Hle. cbn [fst snd] in Hle. rewrite Hself in Hle.
      destruct Hle as [Hlt | [Heq _]];
        [by apply Qlt_le_weak | by rewrite <- Heq; apply Qle_refl].
  - exfalso. pose proof (best_match_none _ _ E w Hcand) as Hlow.
    fold w in Hlow. rewrite Hself in Hlow. by apply cutoff_below_one in Hlow.
Qed.

(** X8.  An exact match wins against every other candidate, whatever the case of
    the letters; and a returned match, asked again, is its own match. *)
Theorem find_best_match_exact (user_text : list N)
    (questions : list (list N)) :
  (lower user_text ∈ map lower questions ->
   find_best_match user_text questions = Some (lower user_text))
  /\ (forall m, find_best_match user_text questions = Some m ->
                find_best_match m questions = Some m).
Proof.
  split; [apply best_match_exact|].
  intros m Hm. apply best_match_some in Hm as (Hm & _).
  assert (Hlow : lower m = m).
  { apply list_elem_of_fmap in Hm as (q & -> & _). apply lower_idempotent. }
  rewrite <- Hlow at 2. apply best_match_exact. by rewrite Hlow.
Qed.

Lemma find_best_match_exact_witness :
  find_best_match (lit "HOW OLD ARE YOU?") (map question sample_base)
  = Some (lit "how old are you?").
Proof.
  destruct (find_best_match_exact (lit "HOW OLD ARE YOU?")
              (map question sample_base)) as [H _].
  apply H. apply (bool_decide_unpack _). vm_compute. exact I.
Defined.

Lemma calculate_ratio_cutoff (m len : nat) :
  13 # 20 <= calculate_ratio m len -> (13 * len <= 40 * m)%nat.
Proof.
  unfold calculate_ratio. destruct len as [|len]; [lia|].
  unfold Qle. cbn [Qnum Qden].
  replace (Z.pos (Pos.of_nat (S len))) with (Z.of_nat (S len)); [lia|].
  by rewrite <- Pos.of_nat_succ, Zpos_P_of_succ_nat, Nat2Z.inj_succ.
Qed.

(** A match shares at least 13/40 of the code points of the two texts
    together with the lowercased user text. *)
Lemma best_match_common (user_text : list N) (questions : list (list N))
    (m : list N) :
  find_best_match user_text questions = Some m ->
  (13 * (length m + length (lower user_text))
   <= 40 * common m (lower user_text))%nat.
Proof.
  intros Hm. apply best_match_some in Hm as (_ & Hcut & _).
  apply calculate_ratio_cutoff. rewrite <- quick_matches_common.
  eapply Qle_trans; [exact Hcut|]. apply ratio_le_quick_ratio.
Qed.

Lemma best_match_of_nil (user_text : list N) (questions : list (list N))
    (m : list N) :
  lower user_text = [] ->
  find_best_match user_text questions = Some m -> m = [].
Proof.
  intros E Hm. apply best_match_common in Hm.
  destruct (common_le m (lower user_text)) as [_ H2].
  rewrite E in Hm, H2. cbn [length] in Hm, H2.
  apply length_zero_iff_nil. lia.
Qed.

(** X9.  The length of a match is between 13/27 of the length of the lowercased
    user text [w] and 27/13 of it: a short text does not match a long
    question, nor a long text a short question.  Only an empty question
    matches an empty text. *)
Theorem find_best_match_lengths (user_text : list N)
    (questions : list (list N)) (m : list N) :
  find_best_match user_text questions = Some m ->
  let w := lower user_text in
  (13 * length m <= 27 * length w)%nat
  /\ (13 * length w <= 27 * length m)%nat
  /\ (w = [] <-> m = []).
Proof.
  intros Hm w. pose proof (best_match_common _ _ _ Hm) as H. fold w in H.
  destruct (common_le m w) as [H1 H2].
  split; [lia|]. split; [lia|].
  split; intros E.
  - by apply (best_match_of_nil user_text questions).
  - apply length_zero_iff_nil. rewrite E in H, H1. cbn [length] in H, H1. lia.
Qed.

Lemma find_best_match_lengths_witness :
  (13 * length (lit "what is your name?")
   <= 27 * length (lower (lit "what is your name")))%nat.
Proof.
  destruct (find_best_match_lengths (lit "what is your name")
              (map question sample_base) (lit "what is your name?"))
    as (H & _).
  - vm_compute. reflexivity.
  - exact H.
Defined.

(** X10.  The match does not depend on the order of the questions, nor on
    repeated questions: two lists with the same lowercased questions give
    the same result. *)
Theorem find_best_match_order_independent (user_text : list N)
    (questions questions' : list (list N)) :
  (forall x, x ∈ map lower questions <-> x ∈ map lower questions') ->
  find_best_match user_text questions = find_best_match user_text questions'.
Proof.
  intros Hsame. set (w := lower user_text).
  destruct (find_best_match user_text questions) as [m|] eqn:E;
    destruct (find_best_match user_text questions') as [m'|] eqn:E'.
  - apply best_match_some in E as (Hm & Hcut & Hmax).
    apply best_match_some in E' as (Hm' & Hcut' & Hmax').
    fold w in Hcut, Hcut', Hmax, Hmax'.
    destruct (Hmax m' (proj2 (Hsame m') Hm')) as [Hlow | Hle];
      [exfalso; by apply (Qlt_not_le _ _ Hlow)|].
    destruct (Hmax' m (proj1 (Hsame m) Hm)) as [Hlow | Hle'];
      [exfalso; by apply (Qlt_not_le _ _ Hlow)|].
    apply scored_le in Hle, Hle'. cbn [fst snd] in Hle, Hle'.
    f_equal. apply str_le_antisym.
    + destruct Hle' as [Hlt | [_ H]]; [|done]. exfalso.
      destruct Hle as [Hlt' | [Heq _]]; [lra|]. rewrite Heq in Hlt.
      by apply (Qlt_irrefl _ Hlt).
    + destruct Hle as [Hlt | [_ H]]; [|done]. exfalso.
      destruct Hle' as [Hlt' | [Heq _]]; [lra|]. rewrite Heq in Hlt.
      by apply (Qlt_irrefl _ Hlt).
  - exfalso. apply best_match_some in E as (Hm & Hcut & _).
    pose proof (best_match_none _ _ E' m (proj1 (Hsame m) Hm)) as Hlow.
    by apply (Qlt_not_le _ _ Hlow).
  - exfalso. apply best_match_some in E' as (Hm & Hcut & _).
    pose proof (best_match_none _ _ E m' (proj2 (Hsame m') Hm)) as Hlow.
    by apply (Qlt_not_le _ _ Hlow).
  - done.
Qed.

Lemma find_best_match_order_independent_witness :
  find_best_match (lit "ab") [lit "abc"; lit "abd"]
  = find_best_match (lit "ab") [lit "abd"; lit "abc"; lit "ABD"].
Proof.
  apply (find_best_match_order_independent (lit "ab")).
  intros x. change (lower (lit "ABD")) with (lower (lit "abd")).
  cbn [map]. rewrite !elem_of_cons, elem_of_nil. tauto.
Defined.

(** X11.  Adding questions never loses a match: the new match is at least as
    similar to the user text as the old one. *)
Theorem find_best_match_more_questions (user_text : list N)
    (questions more : list (list N)) (m : list N) :
  find_best_match user_text questions = Some m ->
  exists m',
    find_best_match user_text (questions ++ more) = Some m'
    /\ similarity m (lower user_text) <= similarity m' (lower user_text).
Proof.
  intros Hm. apply best_match_some in Hm as (Hm & Hcut & _).
  assert (Hin : m ∈ map lower (questions ++ more))
    by (rewrite map_app, elem_of_app; by left).
  destruct (find_best_match user_text (questions ++ more)) as [m'|] eqn:E.
  - exists m'. split; [done|].
    apply best_match_some in E as (_ & _ & Hmax).
    destruct (Hmax m Hin) as [Hlow | Hle];
      [exfalso; by apply (Qlt_not_le _ _ Hlow)|].
    apply scored_le in Hle. cbn [fst snd] in Hle.
    destruct Hle as [Hlt | [Heq _]];
      [by apply Qlt_le_weak | rewrite Heq; apply Qle_refl].
  - exfalso. pose proof (best_match_none _ _ E m Hin) as Hlow.
    by apply (Qlt_not_le _ _ Hlow).
Qed.

Lemma find_best_match_more_questions_witness :
  exists m',
    find_best_match (lit "ab") ([lit "abc"] ++ [lit "ab"]) = Some m'
    /\ similarity (lit "abc") (lower (lit "ab"))
       <= similarity m' (lower (lit "ab")).
Proof.
  apply (find_best_match_more_questions (lit "ab") [lit "abc"] [lit "ab"]).
  vm_compute. reflexivity.
Defined.

(** X12.  [get_answer_for_question] finds nothing exactly when no question of the
    base equals the asked text without regard to case; otherwise it returns
    the answer of the first such entry, also when later entries repeat the
    question. *)
Theorem get_answer_for_question_lookup (asked : list N)
    (knowledge_base : list KnowledgeEntry) :
  match get_answer_for_question asked knowledge_base with
  | None =>
      forall e, e ∈ knowledge_base -> lower (question e) <> lower asked
  | Some a =>
      exists before e after,
        knowledge_base = before ++ e :: after
        /\ (forall e', e' ∈ before -> lower (question e') <> lower asked)
        /\ lower (question e) = lower asked
        /\ a = answer e
  end.
Proof.
  induction knowledge_base as [|e kb IH]; cbn [get_answer_for_question].
  - by intros e ?%elem_of_nil.
  - case_bool_decide as He.
    + exists [], e, kb. split; [done|]. split; [|done].
      by intros e' ?%elem_of_nil.
    + destruct (get_answer_for_question asked kb) as [a|].
      * destruct IH as (before & e0 & after & -> & Hb & He0 & ->).
        exists (e :: before), e0, after. split; [done|]. split; [|done].
        intros e' [-> | Hin]%elem_of_cons; [done | by apply Hb].
      * intros e' [-> | Hin]%elem_of_cons; [done | by apply IH].
Qed.

End Lookup.

(** ** The [/chat] route *)

Section Chat.

Import Py Difflib App Spec.

Lemma get_answer_lower (asked : list N) (knowledge_base : list KnowledgeEntry) :
  get_answer_for_question (lower asked) knowledge_base
  = get_answer_for_question asked knowledge_base.
Proof.
  induction knowledge_base as [|e kb IH]; cbn [get_answer_for_question];
    [done|].
  by rewrite lower_idempotent, IH.
Qed.

Lemma get_answer_entry (asked a : list N)
    (knowledge_base : list KnowledgeEntry) :
  get_answer_for_question asked knowledge_base = Some a ->
  exists e, e ∈ knowledge_base /\ a = answer e.
Proof.
  induction knowledge_base as [|e kb IH]; cbn [get_answer_for_question];
    [done|].
  case_bool_decide.
  - intros [= <-]. exists e. split; [apply elem_of_cons; by left | done].
  - intros (e' & He' & ->)%IH. exists e'.
    split; [apply elem_of_cons; by right | done].
Qed.

(** Without a command phrase the message goes to the knowledge base. *)
Lemma chat_no_command (knowledge_base : list KnowledgeEntry)
    (message : list N) (g : rng) :
  Forall (fun cmd => str_in cmd (lower (strip message)) = false)
    command_phrases ->
  chat knowledge_base message g
  = (match find_best_match (strip message) (map question knowledge_base) with
     | Some ((_ :: _) as m) => get_answer_for_question m knowledge_base
     | _ => Some (lit "I don't understand.")
     end, g).
Proof.
  intros H. unfold command_phrases in H.
  repeat match goal with
         | H : Forall _ (_ :: _) |- _ =>
             apply Forall_cons in H as [? H]
         end.
  unfold chat. cbn [existsb].
  repeat match goal with
         | E : str_in ?c ?t = false |- _ => rewrite E; clear E
         end.
  done.
Qed.

(** X13.  A question of the base, asked in any case and with white space around
    it, is answered by the answer of the first entry with that question,
    provided that it is not empty and contains no command phrase. *)
Theorem chat_known_question (knowledge_base : list KnowledgeEntry)
    (message q : list N) (g : rng) :
  q ∈ map question knowledge_base -> q <> [] ->
  lower (strip message) = lower q ->
  Forall (fun cmd => str_in cmd (lower q) = false) command_phrases ->
  chat knowledge_base message g = (get_answer_for_question q knowledge_base, g)
  /\ is_Some (get_answer_for_question q knowledge_base).
Proof.
  intros Hq Hne Hlow Hplain. rewrite <- Hlow in Hplain.
  rewrite (chat_no_command _ _ _ Hplain).
  assert (Hmatch : find_best_match (strip message)
                     (map question knowledge_base)
                   = Some (lower q)).
  { rewrite <- Hlow. apply best_match_exact. rewrite Hlow.
    apply list_elem_of_fmap. by exists q. }
  rewrite Hmatch.
  destruct (lower q) as [|c t] eqn:E; [by apply lower_nil_inv in E|].
  rewrite <- E, get_answer_lower. split; [done|].
  apply list_elem_of_fmap in Hq as (e & -> & He).
  by apply (get_answer_found _ _ e).
Qed.

Lemma chat_known_question_witness :
  chat sample_base (lit "  what is YOUR name? ") (fixed_draw 0)
  = (Some (lit "RAVAA"), fixed_draw 0).
Proof.
  destruct (chat_known_question sample_base (lit "  what is YOUR name? ")
              (lit "What is your name?") (fixed_draw 0)) as [H _].
  - apply (bool_decide_unpack _). vm_compute. exact I.
  - discriminate.
  - vm_compute. reflexivity.
  - unfold command_phrases. repeat (constructor; [vm_compute; reflexivity|]).
    constructor.
  - exact H.
Defined.

(** X14.  A message of white space only, or an empty one, is not understood,
    whatever the knowledge base holds. *)
Theorem chat_blank_message (knowledge_base : list KnowledgeEntry)
    (message : list N) (g : rng) :
  Forall (fun c => isspace c = true) message ->
  chat knowledge_base message g = (Some (lit "I don't understand."), g).
Proof.
  intros Hsp. rewrite chat_no_command.
  - destruct (find_best_match _ _) as [m|] eqn:E; [|done].
    apply best_match_of_nil in E as ->; [done|].
    by rewrite (strip_spaces _ Hsp).
  - rewrite (strip_spaces _ Hsp). unfold command_phrases.
    repeat (constructor; [vm_compute; reflexivity|]). constructor.
Qed.

Lemma chat_blank_message_witness :
  chat sample_base (lit "   ") (fixed_draw 0)
  = (Some (lit "I don't understand."), fixed_draw 0).
Proof.
  apply (chat_blank_message sample_base (lit "   ") (fixed_draw 0)).
  repeat (constructor; [reflexivity|]). constructor.
Defined.

(** X15.  What [/chat] can reply.  Apart from a dice roll, the reply is one of five
    fixed texts or the answer of an entry of the knowledge base, and the
    random generator is left alone.  A dice roll makes one draw and reports
    a number from 1 to 6.  The reply is never [None]. *)
Theorem chat_reply_kinds (knowledge_base : list KnowledgeEntry)
    (message : list N) (g : rng) :
  let reply := (chat knowledge_base message g).1 in
  let g' := (chat knowledge_base message g).2 in
  (g' = g
   /\ ((exists r, r ∈ canned_replies /\ reply = Some r)
       \/ exists e, e ∈ knowledge_base /\ reply = Some (answer e)))
  \/ (str_in (lit "dice roll") (lower (strip message)) = true
      /\ g' = advance g
      /\ exists d : Z,
           (1 <= d <= 6)%Z
           /\ reply = Some ([127922%N] ++ lit " You rolled a "
                            ++ str_of_int d ++ lit ".")).
Proof.
  cbn zeta. unfold chat.
  destruct (existsb _ _).
  { left. split; [done|]. left. eexists. split; [|done].
    apply (bool_decide_unpack _). vm_compute. exact I. }
  destruct (str_in (lit "lie detector") _).
  { left. split; [done|]. left. eexists. split; [|done].
    apply (bool_decide_unpack _). vm_compute. exact I. }
  destruct (str_in (lit "search") _).
  { left. split; [done|]. left. eexists. split; [|done].
    apply (bool_decide_unpack _). vm_compute. exact I. }
  destruct (str_in (lit "dice roll") _).
  { right. split; [done|]. unfold roll_dice, randbelow. cbn [fst snd].
    split; [done|]. eexists. split; [|done].
    pose proof (Nat.mod_upper_bound (source g (drawn g)) 6). lia. }
  destruct (str_in (lit "set alarm") _).
  { left. split; [done|]. left. eexists. split; [|done].
    apply (bool_decide_unpack _). vm_compute. exact I. }
  left. cbn [fst snd]. split; [done|].
  destruct (find_best_match _ _) as [[|c m]|] eqn:E.
  - left. eexists. split; [|done].
    apply (bool_decide_unpack _). vm_compute. exact I.
  - right. destruct (lookup_of_match _ _ _ E) as [a Ha].
    rewrite Ha. destruct (get_answer_entry _ _ _ Ha) as (e & He & ->).
    by exists e.
  - left. eexists. split; [|done].
    apply (bool_decide_unpack _). vm_compute. exact I.
Qed.

(** X16.  A message with a command phrase never reaches the knowledge base: the
    reply is the same for every base, also when the message is one of its
    questions. *)
Theorem chat_command_ignores_base
    (knowledge_base knowledge_base' : list KnowledgeEntry)
    (message : list N) (g : rng) :
  Exists (fun cmd => str_in cmd (lower (strip message)) = true)
    command_phrases ->
  chat knowledge_base message g = chat knowledge_base' message g.
Proof.
  intros H. unfold chat. cbn [existsb].
  destruct (str_in (lit "play rps") _) eqn:E1; [done|].
  destruct (str_in (lit "rock paper scissors") _) eqn:E2; [done|].
  destruct (str_in (lit "lie detector") _) eqn:E3; [done|].
  destruct (str_in (lit "search") _) eqn:E4; [done|].
  destruct (str_in (lit "dice roll") _) eqn:E5; [done|].
  destruct (str_in (lit "set alarm") _) eqn:E6; [done|].
  exfalso. unfold command_phrases in H.
  repeat (apply Exists_cons in H as [H|H]; [congruence|]).
  by apply Exists_nil in H.
Qed.

Lemma chat_command_ignores_base_witness :
  chat [ {| question := lit "How do I search the web?";
            answer := lit "With a browser." |} ]
    (lit "How do I search the web?") (fixed_draw 0)
  = chat [] (lit "How do I search the web?") (fixed_draw 0).
Proof.
  apply chat_command_ignores_base.
  unfold command_phrases. do 3 apply Exists_cons_tl. apply Exists_cons_hd.
  vm_compute. reflexivity.
Defined.

End Chat.

(** ** The games *)

Section Games.

Import Py App Spec.

(** A round with a valid choice: one draw, a computer move among the three,
    and one of the three results. *)
Lemma rps_play_valid (choice : list N) (g : rng) :
  lower choice ∈ [lit "rock"; lit "paper"; lit "scissors"] ->
  exists comp result,
    comp ∈ [lit "rock"; lit "paper"; lit "scissors"]
    /\ result ∈ [lit "tie"; lit "win"; lit "lose"]
    /\ rps_play choice g = (RpsPlayed (lower choice) comp result, advance g).
Proof.
  intros Hc. unfold rps_play, randbelow, advance.
  rewrite bool_decide_eq_true_2 by done. cbn [negb length].
  destruct (three_cases (source g (drawn g))) as [-> | [-> | ->]];
    cbn [nth];
    repeat (apply elem_of_cons in Hc as [-> | Hc]);
    try (by apply elem_of_nil in Hc);
    eexists _, _; (split; [|split; [|reflexivity]]);
    apply (bool_decide_unpack _); vm_compute; exact I.
Qed.

(** X17.  The game is balanced: for each valid choice, the three moves of the
    computer give one tie, one win and one loss. *)
Theorem rps_play_balanced (choice : list N) :
  lower choice ∈ [lit "rock"; lit "paper"; lit "scissors"] ->
  map (fun n => rps_result (rps_play choice (fixed_draw n)).1) [0; 1; 2]%nat
  ≡ₚ [lit "tie"; lit "win"; lit "lose"].
Proof.
  intros Hc. unfold rps_play.
  rewrite bool_decide_eq_true_2 by done. cbn [negb length].
  repeat (apply elem_of_cons in Hc as [-> | Hc]);
    try (by apply elem_of_nil in Hc);
    apply (bool_decide_unpack _); vm_compute; exact I.
Qed.

Lemma rps_play_balanced_witness :
  map (fun n => rps_result (rps_play (lit "Paper") (fixed_draw n)).1)
    [0; 1; 2]%nat
  ≡ₚ [lit "tie"; lit "win"; lit "lose"].
Proof.
  apply (rps_play_balanced (lit "Paper")).
  apply (bool_decide_unpack _). vm_compute. exact I.
Defined.

(** X18.  A roll gives a number from 1 to 6 and makes one draw; each of the six
    faces comes up for some draw. *)
Theorem roll_dice_faces :
  (forall g, (1 <= (roll_dice g).1 <= 6)%Z /\ (roll_dice g).2 = advance g)
  /\ (forall d, (1 <= d <= 6)%Z -> exists g, (roll_dice g).1 = d).
Proof.
  split.
  - intros g. unfold roll_dice, randbelow, advance. cbn [fst snd].
    split; [|done].
    pose proof (Nat.mod_upper_bound (source g (drawn g)) 6). lia.
  - intros d Hd. exists (fixed_draw (Z.to_nat (d - 1))).
    unfold roll_dice, randbelow, fixed_draw. cbn [fst source drawn].
    rewrite Nat.mod_small by lia. lia.
Qed.

(** X19.  [POST /play-rps] on an object.  A choice that is not a string raises
    [AttributeError]; a missing choice, or a string other than the three
    moves, is answered by the error text without a draw; a valid choice is
    answered by the line that reports the round of [rps_play], with the
    result capitalized. *)
Theorem play_rps_reply (fields : list (list N * json)) (g : rng) :
  let choice := default (JStr []) (fields_get (lit "choice") fields) in
  let choices := [lit "rock"; lit "paper"; lit "scissors"] in
  ((forall s, choice <> JStr s) ->
   play_rps (JObj fields) g = Raise AttributeError)
  /\ (fields_get (lit "choice") fields = None ->
      play_rps (JObj fields) g
      = Ok (lit "Invalid choice. Choose rock, paper, or scissors.", g))
  /\ (forall s, choice = JStr s -> lower s ∉ choices ->
      play_rps (JObj fields) g
      = Ok (lit "Invalid choice. Choose rock, paper, or scissors.", g))
  /\ (forall s, choice = JStr s -> lower s ∈ choices ->
      exists comp result,
        rps_play s g = (RpsPlayed (lower s) comp result, advance g)
        /\ capitalize result ∈ [lit "Tie"; lit "Win"; lit "Lose"]
        /\ play_rps (JObj fields) g
           = Ok (lit "Your choice: " ++ lower s ++ lit ". Computer chose: "
                 ++ comp ++ lit ". Result: " ++ capitalize result ++ lit "!",
                 advance g)).
Proof.
  intros choice choices. unfold play_rps, dict_get, mbind, result_bind.
  fold choice.
  assert (Hbad : forall s, lower s ∉ choices ->
            rps_play s g
            = (RpsError (lit "Invalid choice. Choose rock, paper, or scissors."),
               g)).
  { intros s Hs. unfold rps_play. by rewrite bool_decide_eq_false_2. }
  split; [|split; [|split]].
  - intros Hs. destruct choice; try done. by destruct (Hs s).
  - intros Hnone. subst choice. rewrite Hnone. cbn [default from_option].
    unfold id, rps_play_any. rewrite Hbad; [done|].
    apply (bool_decide_unpack _). vm_compute. exact I.
  - intros s -> Hs. unfold rps_play_any. by rewrite Hbad.
  - intros s -> Hs. unfold rps_play_any.
    destruct (rps_play_valid s g Hs) as (comp & result & Hcomp & Hres & ->).
    exists comp, result. split; [done|]. split; [|done].
    repeat (apply elem_of_cons in Hres as [-> | Hres]);
      try (by apply elem_of_nil in Hres);
      apply (bool_decide_unpack _); vm_compute; exact I.
Qed.

Lemma play_rps_reply_witness :
  play_rps (JObj [(lit "choice", JStr (lit "Rock"))]) (fixed_draw 2)
  = Ok (lit "Your choice: rock. Computer chose: scissors. Result: Win!",
        advance (fixed_draw 2))
  /\ play_rps (JObj [(lit "choice", JNum 1)]) (fixed_draw 2)
     = Raise AttributeError
  /\ play_rps (JObj []) (fixed_draw 2)
     = Ok (lit "Invalid choice. Choose rock, paper, or scissors.",
           fixed_draw 2).
Proof.
  split; [|split].
  - destruct (play_rps_reply [(lit "choice", JStr (lit "Rock"))]
                (fixed_draw 2)) as (_ & _ & _ & H).
    destruct (H (lit "Rock")) as (comp & result & Hplay & _ & Hreply).
    + reflexivity.
    + apply (bool_decide_unpack _). vm_compute. exact I.
    + injection Hplay as <- <-. exact Hreply.
  - destruct (play_rps_reply [(lit "choice", JNum 1)] (fixed_draw 2))
      as (H & _).
    apply H. discriminate.
  - destruct (play_rps_reply [] (fixed_draw 2)) as (_ & H & _).
    apply H. reflexivity.
Defined.

End Games.

(** ** The [/search] route *)

Section Search.

Import Py App Spec.

(** X20.  The summary of a page.  A page that is not fetched with status 200 gives
    the apology.  Otherwise, with [text] the non-blank paragraphs joined by
    spaces, the summary is [text] up to its third ". ", that separator left
    out, followed by a period; it is all of [text] followed by a period
    when ". " occurs fewer than three times, also when [text] ends in a
    period already. *)
Theorem get_wiki_intro_sentences (fetch : list N -> Z * list (list N))
    (topic : list N) (status_code : Z) (paragraphs : list (list N)) :
  fetch (lit "https://simple.wikipedia.org/wiki/" ++ underscores topic)
  = (status_code, paragraphs) ->
  let text :=
    join (lit " ")
      (List.filter
         (fun p => match strip p with [] => false | _ :: _ => true end)
         paragraphs) in
  let lines := split (lit ". ") text in
  (status_code <> 200%Z ->
   get_wiki_intro fetch topic = lit "Sorry, I couldn't find that topic.")
  /\ (status_code = 200%Z -> (length lines <= 3)%nat ->
      get_wiki_intro fetch topic = text ++ lit ".")
  /\ (status_code = 200%Z -> (3 < length lines)%nat ->
      exists kept,
        text = kept ++ lit ". " ++ join (lit ". ") (drop 3 lines)
        /\ kept = join (lit ". ") (take 3 lines)
        /\ get_wiki_intro fetch topic = kept ++ lit ".").
Proof.
  intros Hfetch text lines.
  assert (Hjoin : join (lit ". ") lines = text)
    by (by apply join_split).
  split; [|split].
  - intros Hs. unfold get_wiki_intro. rewrite Hfetch.
    destruct (Z.eqb_spec status_code 200); done.
  - intros -> Hlen. rewrite (get_wiki_intro_success _ _ _ Hfetch).
    fold text. fold lines. by rewrite take_ge, Hjoin by lia.
  - intros -> Hlen. rewrite (get_wiki_intro_success _ _ _ Hfetch).
    fold text. fold lines. exists (join (lit ". ") (take 3 lines)).
    split; [|done]. rewrite <- Hjoin at 1. apply join_take_drop. lia.
Qed.

Lemma get_wiki_intro_sentences_witness :
  get_wiki_intro moon_page (lit "Moon")
  = lit "The Moon is Earth's only natural satellite..".
Proof.
  destruct (get_wiki_intro_sentences moon_page (lit "Moon") 200%Z
              [lit "The Moon is Earth's only natural satellite."] eq_refl)
    as (_ & H & _).
  apply H; [reflexivity|]. vm_compute. lia.
Defined.

(** X21.  [POST /search] on an object.  A topic that is missing or falsy (an
    empty string, [null], [false], 0, an empty list or object) is answered
    by the request for a topic, whatever the page would be; a non-empty
    string is looked up; any other topic raises [AttributeError]. *)
Theorem search_reply (fetch : list N -> Z * list (list N))
    (fields : list (list N * json)) :
  let topic := default (JStr []) (fields_get (lit "topic") fields) in
  (truthy topic = false ->
   search fetch (JObj fields) = Ok (lit "Please provide a topic to search."))
  /\ (forall s, topic = JStr s -> s <> [] ->
      search fetch (JObj fields) = Ok (get_wiki_intro fetch s))
  /\ (truthy topic = true -> (forall s, topic <> JStr s) ->
      search fetch (JObj fields) = Raise AttributeError).
Proof.
  intros topic. unfold search, dict_get, mbind, result_bind. fold topic.
  split; [|split].
  - by intros ->.
  - intros s -> Hs. by destruct s.
  - intros -> Hs. destruct topic; try done. by destruct (Hs s).
Qed.

Lemma search_reply_witness :
  search moon_page (JObj [(lit "topic", JNum 0)])
  = Ok (lit "Please provide a topic to search.")
  /\ search moon_page (JObj [(lit "topic", JStr (lit "Moon"))])
     = Ok (get_wiki_intro moon_page (lit "Moon"))
  /\ search moon_page (JObj [(lit "topic", JNum 7)]) = Raise AttributeError.
Proof.
  split; [|split].
  - destruct (search_reply moon_page [(lit "topic", JNum 0)]) as (H & _).
    apply H. reflexivity.
  - destruct (search_reply moon_page [(lit "topic", JStr (lit "Moon"))])
      as (_ & H & _).
    apply (H (lit "Moon")); [reflexivity | discriminate].
  - destruct (search_reply moon_page [(lit "topic", JNum 7)]) as (_ & _ & H).
    apply H; [reflexivity | discriminate].
Defined.

End Search.

(** ** Alarms that fire *)

Section AlarmThreads.

Import Py App Spec.

Variable int_of_str : list N -> option Z.
Variable str_of_value : json -> list N.

Lemma items_set_get {V} (k : key) (v : V) (items : list (key * V)) :
  items_get k (items_set k v items) = Some v.
Proof.
  induction items as [|[k' v'] items IH]; cbn [items_set items_get].
  - by rewrite key_eqb_refl.
  - destruct (key_eqb k' k) eqn:E; cbn [items_get]; by rewrite E.
Qed.

Lemma items_set_other {V} (s : list N) (k : key) (v : V)
    (items : list (key * V)) :
  k <> KStr s ->
  items_get k (items_set (KStr s) v items) = items_get k items.
Proof.
  intros Hk.
  assert (Hne : key_eqb (KStr s) k = false).
  { destruct k as [| |t]; try done. cbn. apply bool_decide_eq_false_2.
    by intros ->. }
  induction items as [|[k' v'] items IH]; cbn [items_set items_get].
  - by rewrite Hne.
  - destruct (key_eqb k' (KStr s)) eqn:E; cbn [items_get].
    + apply key_eqb_str in E as ->. by rewrite Hne.
    + by rewrite IH.
Qed.

Lemma items_set_length {V} (k : key) (v : V) (items : list (key * V)) :
  length (items_set k v items)
  = match items_get k items with
    | Some _ => length items
    | None => S (length items)
    end.
Proof.
  induction items as [|[k' v'] items IH]; cbn [items_set items_get]; [done|].
  destruct (key_eqb k' k); cbn [length]; [done|]. rewrite IH.
  by destruct (items_get k items).
Qed.

(** X22.  An alarm thread with a string message, once its sleep of a
    non-negative number of minutes is over, records its text under the
    message: looking the message up gives the text, the entries of other
    keys stay, and an earlier alarm with the same message is replaced, so
    that the dictionary holds one alarm for each message. *)
Theorem alarm_thread_records (minutes : Z) (s : list N) (w : world) :
  (0 <= minutes)%Z ->
  exists w',
    alarm_thread str_of_value minutes (JStr s) w = Ok w'
    /\ items_get (KStr s) (alarms w')
       = Some (lit "Alarm: " ++ s ++ lit " (set " ++ str_of_int minutes
               ++ lit " minutes ago)!")
    /\ (forall k, k <> KStr s -> items_get k (alarms w') = items_get k (alarms w))
    /\ length (alarms w')
       = match items_get (KStr s) (alarms w) with
         | Some _ => length (alarms w)
         | None => S (length (alarms w))
         end
    /\ threads w' = threads w.
Proof.
  intros _. eexists. unfold alarm_thread. cbn [hash_key mbind result_bind].
  unfold mbind, result_bind. split; [reflexivity|]. cbn [alarms threads].
  split; [apply items_set_get|]. split; [|split; [apply items_set_length|done]].
  intros k Hk. by apply items_set_other.
Qed.

(** X23.  The truncation of [int] on a float: a number of minutes below 1 is
    refused, also when it is positive; from 1 on the alarm is set for the
    whole minutes, the fraction dropped. *)
Theorem alarm_fractional_minutes (fields : list (list N * json)) (q : Q)
    (w : world) :
  fields_get (lit "minutes") fields = Some (JNum q) ->
  truthy (message_of (JObj fields)) = true ->
  ((q < 1)%Q ->
   alarm int_of_str str_of_value (JObj fields) w
   = (lit "Invalid input. Provide positive minutes and a message.", w))
  /\ ((1 <= q)%Q ->
      alarm int_of_str str_of_value (JObj fields) w
      = set_alarm str_of_value (Qfloor q) (message_of (JObj fields)) w).
Proof.
  intros Hmin Hmsg. unfold alarm, alarm_inputs, dict_get, mbind, result_bind.
  rewrite Hmin. cbn [default from_option id py_int].
  change (from_option id (JStr []) (fields_get (lit "message") fields))
    with (message_of (JObj fields)).
  rewrite Hmsg. cbn [negb].
  rewrite orb_false_r. destruct q as [n d]. cbn [Qnum Qden Qfloor].
  unfold Qlt, Qle. cbn [Qnum Qden]. rewrite !Z.mul_1_r, !Z.mul_1_l.
  split; intros Hq.
  - assert (Hle : (Z.quot n (Z.pos d) <= 0)%Z).
    { destruct (Z.le_gt_cases 0 n) as [Hn | Hn].
      - rewrite Z.quot_small; lia.
      - apply Z.quot_le_upper_bound; lia. }
    by destruct (Z.leb_spec (Z.quot n (Z.pos d)) 0); [|lia].
  - rewrite Z.quot_div_nonneg by lia.
    assert (Hpos : (0 < n / Z.pos d)%Z) by (apply Z.div_str_pos; lia).
    by destruct (Z.leb_spec (n / Z.pos d) 0); [lia|].
Qed.

(** X24.  A message that is a non-empty list or object passes the test of
    [/set-alarm], which confirms the alarm and starts its thread; but the
    thread raises [TypeError] when it fires, and records nothing. *)
Theorem alarm_unhashable_message (data : json) (z : Z) (w : world) :
  minutes_of int_of_str data = Some z -> (0 < z)%Z ->
  (exists x items, message_of data = JList (x :: items))
  \/ (exists x fields, message_of data = JObj (x :: fields)) ->
  alarm int_of_str str_of_value data w
  = (lit "Alarm set for " ++ str_of_int z
     ++ lit " minutes from now with message: '"
     ++ str_of_value (message_of data) ++ lit "'",
     {| alarms := alarms w; threads := threads w ++ [(z, message_of data)] |})
  /\ forall w', alarm_thread str_of_value z (message_of data) w'
                = Raise TypeError.
Proof.
  intros Hmin Hz Hmsg.
  assert (Htrue : truthy (message_of data) = true)
    by (by destruct Hmsg as [(x & l & ->) | (x & l & ->)]).
  split.
  - unfold alarm, alarm_inputs, dict_get, mbind, result_bind.
    unfold minutes_of in Hmin. unfold message_of in *.
    destruct data as [| | | | |fields]; try done.
    destruct (py_int int_of_str _) as [z'|]; [|done].
    injection Hmin as ->. rewrite Htrue.
    destruct (Z.leb_spec z 0) as [Hle|_]; [lia|]. cbn [orb negb].
    unfold set_alarm, format_value.
    by destruct Hmsg as [(x & l & ->) | (x & l & ->)].
  - intros w'. unfold alarm_thread.
    by destruct Hmsg as [(x & l & ->) | (x & l & ->)].
Qed.

End AlarmThreads.

Section AlarmThreadExamples.

Import Py App Spec.

Lemma alarm_thread_records_witness :
  exists w',
    alarm_thread (fun _ => []) 5 (JStr (lit "tea")) no_alarm = Ok w'
    /\ items_get (KStr (lit "tea")) (alarms w')
       = Some (lit "Alarm: tea (set 5 minutes ago)!").
Proof.
  destruct (alarm_thread_records (fun _ => []) 5 (lit "tea") no_alarm)
    as (w' & H1 & H2 & _); [lia|].
  exists w'. split; [exact H1 | exact H2].
Defined.

Lemma alarm_fractional_minutes_witness :
  alarm (fun _ => None) (fun _ => []) tea_in_two_and_a_half no_alarm
  = (lit "Alarm set for 2 minutes from now with message: 'tea'",
     {| alarms := []; threads := [(2%Z, JStr (lit "tea"))] |}).
Proof.
  destruct (alarm_fractional_minutes (fun _ => None) (fun _ => [])
              [(lit "minutes", JNum (5 # 2)); (lit "message", JStr (lit "tea"))]
              (5 # 2) no_alarm eq_refl eq_refl) as [_ H].
  apply H. discriminate.
Defined.

Lemma alarm_unhashable_message_witness :
  (alarm (fun _ => None) (fun _ => lit "['tea']") list_message_body no_alarm).1
  = lit "Alarm set for 5 minutes from now with message: '['tea']'"
  /\ alarm_thread (fun _ => lit "['tea']") 5 (JList [JStr (lit "tea")]) no_alarm
     = Raise TypeError.
Proof.
  destruct (alarm_unhashable_message (fun _ => None) (fun _ => lit "['tea']")
              list_message_body 5%Z no_alarm) as [H1 H2].
  - reflexivity.
  - reflexivity.
  - left. by exists (JStr (lit "tea")), [].
  - split; [by rewrite H1 | apply H2].
Defined.

End AlarmThreadExamples.
